(** * notion-cli: patch engine, numbered-line transform and error layer

    A shallow embedding of

      - [src/lib/patch.ts]    (applyPatchOperation and its four modes),
      - [src/lib/markdown.ts] (addLineNumbers, stripLineNumbers),
      - [src/lib/errors.ts]   (CliError hierarchy, sanitizeMessage, toCliError),

    together with the JavaScript primitives these functions rely on
    (String.prototype.split / endsWith / startsWith / padStart / replace,
    Array.prototype.slice / join, and the regular expressions that occur in
    the sources).

    Conventions.  A JavaScript string is a list of code units; code units are
    modelled by [ascii].  JavaScript integers are modelled by [Z], the
    [Infinity] line end by a constructor of its own.  A function that can
    throw returns a [result].  [logger.debug] only writes to stderr and is
    left out.  The two functions imported from the npm package [diff] are
    methods of the class [DiffLibrary]. *)

From Stdlib Require Import Ascii String DecimalString DecimalFacts DecimalPos.
From Stdlib Require Import NArith ZArith Lia Bool Arith List.
Import ListNotations.

Set Implicit Arguments.

(** A JavaScript string. *)
Definition str := list ascii.

(** String literals of the sources. *)
Definition lit (s : string) : str := list_ascii_of_string s.

Definition LF : ascii := ascii_of_nat 10.

(* ------------------------------------------------------------------ *)
(** * JavaScript primitives *)

Module Js.

(** [s.split('\n')]: the segments between line breaks; never empty. *)
Fixpoint split (s : str) : list str :=
  match s with
  | [] => [[]]
  | c :: s' =>
      if Ascii.eqb c LF then [] :: split s'
      else match split s' with
           | l :: ls => (c :: l) :: ls
           | [] => [[c]]
           end
  end.

(** [lines.join('\n')]. *)
Fixpoint join (ls : list str) : str :=
  match ls with
  | [] => []
  | [l] => l
  | l :: ls' => l ++ LF :: join ls'
  end.

(** Relative index of [Array.prototype.slice]: negative counts from the end,
    everything is clamped to [0, len]. *)
Definition rel_index (len : nat) (i : Z) : nat :=
  if (i <? 0)%Z then Z.to_nat (Z.max (Z.of_nat len + i) 0)
  else Nat.min (Z.to_nat i) len.

(** [a.slice(start, end)]; [None] stands for an omitted [end]. *)
Definition slice {A} (a : list A) (start : Z) (end_ : option Z) : list A :=
  let len := length a in
  let k := rel_index len start in
  let final := match end_ with Some e => rel_index len e | None => len end in
  firstn (final - k) (skipn k a).

(** [s.startsWith(p)]. *)
Fixpoint startsWith (s p : str) {struct p} : bool :=
  match p with
  | [] => true
  | a :: p' =>
      match s with
      | [] => false
      | b :: s' => Ascii.eqb a b && startsWith s' p'
      end
  end.

(** [s.endsWith(p)]. *)
Definition endsWith (s p : str) : bool :=
  startsWith (rev s) (rev p).

(** [String(n)] for an integer [n]. *)
Definition String_ (n : Z) : str :=
  list_ascii_of_string (NilZero.string_of_int (Z.to_int n)).

(** [s.padStart(w)]: pad with spaces on the left up to length [w]. *)
Definition padStart (s : str) (w : nat) : str :=
  repeat " "%char (w - length s) ++ s.

(** [Math.ceil(a / 1000)] on integers. *)
Definition ceil_div (a b : Z) : Z := (- ((- a) / b))%Z.

End Js.

(* ------------------------------------------------------------------ *)
(** * Regular expressions

    The regular expressions of the sources are sequences of literals,
    assertions and greedy repetitions of a character class.  [exec] is a
    backtracking matcher in the order ECMAScript prescribes: a repetition
    first takes as many characters as it can and gives them back one by one
    when the rest of the pattern fails. *)

Module Regex.

Definition in_range (lo hi : nat) (c : ascii) : bool :=
  let n := nat_of_ascii c in (lo <=? n) && (n <=? hi).

(** [\d] *)
Definition is_digit (c : ascii) : bool := in_range 48 57 c.

(** [\w], that is [A-Za-z0-9_] *)
Definition is_word (c : ascii) : bool :=
  in_range 65 90 c || in_range 97 122 c || is_digit c || Ascii.eqb c "_"%char.

(** [\s] restricted to one-byte code units: TAB, LF, VT, FF, CR, space, NBSP *)
Definition is_space (c : ascii) : bool :=
  in_range 9 13 c || Ascii.eqb c " "%char || (nat_of_ascii c =? 160).

(** [[A-Za-z0-9_-]] *)
Definition is_tok (c : ascii) : bool := is_word c || Ascii.eqb c "-"%char.

(** [[a-f0-9]] under the [i] flag *)
Definition is_hex (c : ascii) : bool :=
  in_range 97 102 c || in_range 65 70 c || is_digit c.

Inductive atom : Type :=
| Start                                    (* ^ (no m flag) *)
| Bnd                                      (* \b *)
| Chr (c : ascii)                          (* a literal character *)
| Rep (cls : ascii -> bool) (min : nat) (max : option nat).
                                           (* cls{min,max}, greedy *)

Definition regex := list atom.

Definition lits (s : string) : regex := map Chr (list_ascii_of_string s).

Definition word_at (c : option ascii) : bool :=
  match c with Some c => is_word c | None => false end.

(** A match state is the character before the current position (for [\b]
    and [^]) and the remaining input. *)
Definition mstate : Type := option ascii * str.

Definition max_reached (max : option nat) : bool :=
  match max with Some O => true | _ => false end.

(** Greedy repetition followed by the continuation [K]. *)
Fixpoint rep (cls : ascii -> bool) (K : option ascii -> str -> option mstate)
    (min : nat) (max : option nat) (prev : option ascii) (s : str)
    {struct s} : option mstate :=
  match s with
  | c :: s' =>
      if cls c && negb (max_reached max) then
        match rep cls K (pred min) (option_map pred max) (Some c) s' with
        | Some r => Some r
        | None => match min with O => K prev s | S _ => None end
        end
      else match min with O => K prev s | S _ => None end
  | [] => match min with O => K prev s | S _ => None end
  end.

(** [exec re prev s]: match [re] at the current position; on success the
    state just after the match. *)
Fixpoint exec (re : regex) (prev : option ascii) (s : str) {struct re}
    : option mstate :=
  match re with
  | [] => Some (prev, s)
  | Start :: k =>
      match prev with None => exec k prev s | Some _ => None end
  | Bnd :: k =>
      if Bool.eqb (word_at prev) (word_at (hd_error s)) then None
      else exec k prev s
  | Chr c :: k =>
      match s with
      | c' :: s' => if Ascii.eqb c c' then exec k (Some c') s' else None
      | [] => None
      end
  | Rep cls min max :: k => rep cls (exec k) min max prev s
  end.

Definition copy_one (go : option ascii -> str -> str) (s : str) : str :=
  match s with
  | [] => []
  | c :: s' => c :: go (Some c) s'
  end.

(** [s.replace(/re/g, repl)] from the current position on: matches are
    looked for from left to right, the search resumes after each match (one
    character further after an empty match). *)
Fixpoint replace_from (fuel : nat) (re : regex) (repl : str)
    (prev : option ascii) (s : str) : str :=
  match fuel with
  | O => s
  | S fuel' =>
      match exec re prev s with
      | Some (prev', rest) =>
          if length rest <? length s
          then repl ++ replace_from fuel' re repl prev' rest
          else repl ++ copy_one (replace_from fuel' re repl) s
      | None => copy_one (replace_from fuel' re repl) s
      end
  end.

Definition replaceAll (re : regex) (repl : str) (s : str) : str :=
  replace_from (S (length s)) re repl None s.

(** [s.replace(/re/, repl)]: only the first match is replaced. *)
Fixpoint replace_first (re : regex) (repl : str)
    (prev : option ascii) (s : str) : str :=
  match exec re prev s with
  | Some (_, rest) => repl ++ rest
  | None =>
      match s with
      | [] => []
      | c :: s' => c :: replace_first re repl (Some c) s'
      end
  end.

Definition replace (re : regex) (repl : str) (s : str) : str :=
  replace_first re repl None s.

End Regex.

(* ------------------------------------------------------------------ *)
(** * Regular expressions with groups, alternatives and anchors

    The patterns of validator.ts, id.ts and [isValidUnifiedDiff] have
    optional groups, an alternative, the anchor $ and the flag m.  [run] is
    a backtracking matcher for them, written with continuations: what is
    tried first is what ECMAScript tries first. *)

Module Rx.
Import Regex.

Inductive rx : Type :=
| Eps
| Lit (c : ascii)                                     (* a literal *)
| Many (cls : ascii -> bool) (min : nat) (max : option nat)
                                                      (* cls{min,max} *)
| Seq (a b : rx)                                      (* ab *)
| Alt (a b : rx)                                      (* (?:a|b) *)
| Opt (a : rx)                                        (* (?:a)? *)
| Group (a : rx)                                      (* (a), group 1 *)
| Bol (multiline : bool)                              (* ^ *)
| Eol (multiline : bool).                             (* $ *)

(** The sequence of the patterns of a list. *)
Fixpoint cat (rs : list rx) : rx :=
  match rs with
  | [] => Eps
  | [r] => r
  | r :: rs' => Seq r (cat rs')
  end.

(** Line terminators among the one-byte code units: LF and CR. *)
Definition is_line_terminator (c : ascii) : bool :=
  Ascii.eqb c LF || Ascii.eqb c (ascii_of_nat 13).

(** The class of [.] *)
Definition is_dot (c : ascii) : bool := negb (is_line_terminator c).

Definition at_bol (multiline : bool) (prev : option ascii) : bool :=
  match prev with
  | None => true
  | Some c => multiline && is_line_terminator c
  end.

Definition at_eol (multiline : bool) (s : str) : bool :=
  match s with
  | [] => true
  | c :: _ => multiline && is_line_terminator c
  end.

(** The state after a match: the character before the position reached,
    the rest of the input, and what group 1 captured. *)
Definition outcome : Type := option ascii * str * option str.

(** Greedy repetition of a class, then [K]. *)
Fixpoint many (cls : ascii -> bool) (K : option ascii -> str -> option outcome)
    (min : nat) (max : option nat) (prev : option ascii) (s : str)
    {struct s} : option outcome :=
  match s with
  | c :: s' =>
      if cls c && negb (max_reached max) then
        match many cls K (pred min) (option_map pred max) (Some c) s' with
        | Some r => Some r
        | None => match min with O => K prev s | S _ => None end
        end
      else match min with O => K prev s | S _ => None end
  | [] => match min with O => K prev s | S _ => None end
  end.

Fixpoint run (r : rx)
    (K : option ascii -> str -> option str -> option outcome)
    (prev : option ascii) (s : str) (g : option str) {struct r}
    : option outcome :=
  match r with
  | Eps => K prev s g
  | Lit c =>
      match s with
      | c' :: s' => if Ascii.eqb c c' then K (Some c') s' g else None
      | [] => None
      end
  | Many cls min max => many cls (fun p t => K p t g) min max prev s
  | Seq a b => run a (fun p t g' => run b K p t g') prev s g
  | Alt a b =>
      match run a K prev s g with
      | Some o => Some o
      | None => run b K prev s g
      end
  | Opt a =>
      match run a K prev s g with
      | Some o => Some o
      | None => K prev s g
      end
  | Group a =>
      run a (fun p t _ => K p t (Some (firstn (length s - length t) s)))
        prev s g
  | Bol m => if at_bol m prev then K prev s g else None
  | Eol m => if at_eol m s then K prev s g else None
  end.

(** A match at the current position. *)
Definition exec_at (r : rx) (prev : option ascii) (s : str) : option outcome :=
  run r (fun p t g => Some (p, t, g)) prev s None.

(** [r.exec(s)]: the first position with a match, from left to right. *)
Fixpoint search (r : rx) (prev : option ascii) (s : str) : option outcome :=
  match exec_at r prev s with
  | Some o => Some o
  | None =>
      match s with
      | [] => None
      | c :: s' => search r (Some c) s'
      end
  end.

(** [r.test(s)] *)
Definition test (r : rx) (s : str) : bool :=
  match search r None s with Some _ => true | None => false end.

(** [r.exec(s)?.[1]] *)
Definition group1 (r : rx) (s : str) : option str :=
  match search r None s with Some (_, _, g) => g | None => None end.

End Rx.

(* ------------------------------------------------------------------ *)
(** * Further JavaScript primitives on strings *)

Module JsString.
Import Regex.

(** [s.split(sep)] for a separator of one character. *)
Fixpoint split (sep : ascii) (s : str) : list str :=
  match s with
  | [] => [[]]
  | c :: s' =>
      if Ascii.eqb c sep then [] :: split sep s'
      else match split sep s' with
           | l :: ls => (c :: l) :: ls
           | [] => [[c]]
           end
  end.

Fixpoint drop_while (f : ascii -> bool) (s : str) : str :=
  match s with
  | c :: s' => if f c then drop_while f s' else s
  | [] => []
  end.

Fixpoint take_while (f : ascii -> bool) (s : str) : str :=
  match s with
  | c :: s' => if f c then c :: take_while f s' else []
  | [] => []
  end.

(** [s.trim()]: white space and line terminators are removed at both
    ends. *)
Definition trim (s : str) : str :=
  rev (drop_while is_space (rev (drop_while is_space s))).

Definition digit_value (c : ascii) : Z := Z.of_nat (nat_of_ascii c - 48).

(** The number a sequence of decimal digits denotes. *)
Definition digits_value (ds : str) : Z :=
  fold_left (fun acc c => (10 * acc + digit_value c)%Z) ds 0%Z.

(** [parseInt(s, 10)]: leading white space is skipped, a sign is read, then
    the longest run of digits; [None] is NaN.  The result is the integer
    the digits denote, which is what JavaScript returns below 2^53; from
    there on JavaScript rounds to the nearest double and this definition
    does not, so what is proved of parsed numbers is stated within this
    bound. *)
Definition parseInt (s : str) : option Z :=
  let s1 := drop_while is_space s in
  let '(sign, s2) :=
    match s1 with
    | c :: r =>
        if Ascii.eqb c "-"%char then ((-1)%Z, r)
        else if Ascii.eqb c "+"%char then (1%Z, r)
        else (1%Z, s1)
    | [] => (1%Z, s1)
    end in
  match take_while is_digit s2 with
  | [] => None
  | ds => Some (sign * digits_value ds)%Z
  end.

End JsString.

(* ------------------------------------------------------------------ *)
(** * src/lib/errors.ts *)

Module Errors.
Import Regex.

(** The exit codes of [ExitCode] (src/lib/types.ts) that errors.ts uses. *)
Inductive ExitCodeValue : Type :=
| GENERAL_ERROR | VALIDATION_ERROR | AUTH_ERROR | NOT_FOUND | RATE_LIMITED.

Definition REDACTED : str := lit "[REDACTED]".

(** /\b(ntn_[A-Za-z0-9_-]+)\b/g *)
Definition re_ntn : regex := Bnd :: lits "ntn_" ++ [Rep is_tok 1 None; Bnd].

(** /\b(secret_[A-Za-z0-9_-]+)\b/g *)
Definition re_secret : regex :=
  Bnd :: lits "secret_" ++ [Rep is_tok 1 None; Bnd].

(** /Bearer\s+[A-Za-z0-9_-]+/g *)
Definition re_bearer : regex :=
  lits "Bearer" ++ [Rep is_space 1 None; Rep is_tok 1 None].

(** /\b[a-f0-9]{40,}\b/gi *)
Definition re_hex : regex := [Bnd; Rep is_hex 40 None; Bnd].

Definition sanitizeMessage (message : str) : str :=
  replaceAll re_hex REDACTED
    (replaceAll re_bearer (lit "Bearer [REDACTED]")
      (replaceAll re_secret REDACTED
        (replaceAll re_ntn REDACTED message))).

(** An instance of [CliError] or of one of its subclasses; [name] tells the
    class, [retryAfterMs] is present on a [RateLimitError] only. *)
Record CliError : Type := mkCliError {
  name : str;
  message : str;
  code : str;
  exitCode : ExitCodeValue;
  retryAfterMs : option Z
}.

(** [new CliError(message, code, exitCode)] *)
Definition newCliError (message code : str) (exitCode : ExitCodeValue)
    : CliError :=
  mkCliError (lit "CliError") (sanitizeMessage message) code exitCode None.

Definition subclass (nm : str) (e : CliError) : CliError :=
  mkCliError nm (message e) (code e) (exitCode e) (retryAfterMs e).

(** [new AuthError()] *)
Definition AuthError : CliError :=
  subclass (lit "AuthError")
    (newCliError (lit "Authentication failed. Set NOTION_TOKEN or use --token.")
       (lit "AUTH_ERROR") AUTH_ERROR).

(** [new ValidationError(message)] *)
Definition ValidationError (message : str) : CliError :=
  subclass (lit "ValidationError")
    (newCliError message (lit "VALIDATION_ERROR") VALIDATION_ERROR).

(** [new NotFoundError(resource, id)] *)
Definition NotFoundError (resource id : str) : CliError :=
  subclass (lit "NotFoundError")
    (newCliError (resource ++ lit " not found: " ++ id)
       (lit "NOT_FOUND") NOT_FOUND).

(** [new RateLimitError(retryAfterMs)] *)
Definition RateLimitError (ms : Z) : CliError :=
  let e := newCliError
             (lit "Rate limited by Notion API. Retry after "
                ++ Js.String_ (Js.ceil_div ms 1000) ++ lit "s.")
             (lit "RATE_LIMITED") RATE_LIMITED in
  mkCliError (lit "RateLimitError") (message e) (code e) (exitCode e) (Some ms).

(** [new PatchConflictError(message)] *)
Definition PatchConflictError (message : str) : CliError :=
  subclass (lit "PatchConflictError")
    (newCliError message (lit "PATCH_CONFLICT") GENERAL_ERROR).

(** What a remote call can throw.  An [Error] of the Notion client has a
    message and may carry [status] and [code]; [retryAfter] is the
    retry-after hint of the response, when the server sent one. *)
Record JsError : Type := mkJsError {
  err_message : str;
  status : option Z;
  err_code : option str;
  retryAfter : option Z
}.

Inductive thrown : Type :=
| ThrownCli (e : CliError)       (* err instanceof CliError *)
| ThrownError (e : JsError)      (* err instanceof Error *)
| ThrownOther (shown : str).     (* anything else; [shown] is String(err) *)

Definition opt_is {A} (eqb : A -> A -> bool) (x : option A) (v : A) : bool :=
  match x with Some y => eqb y v | None => false end.

Definition str_eqb (a b : str) : bool :=
  if list_eq_dec Ascii.ascii_dec a b then true else false.

Definition toCliError (err : thrown) : CliError :=
  match err with
  | ThrownCli e => e
  | ThrownError notionErr =>
      if opt_is Z.eqb (status notionErr) 401%Z
         || opt_is str_eqb (err_code notionErr) (lit "unauthorized")
      then AuthError
      else if opt_is Z.eqb (status notionErr) 404%Z
         || opt_is str_eqb (err_code notionErr) (lit "object_not_found")
      then NotFoundError (lit "Resource") (lit "unknown")
      else if opt_is Z.eqb (status notionErr) 429%Z
      then RateLimitError 1000
      else newCliError (err_message notionErr) (lit "GENERAL_ERROR") GENERAL_ERROR
  | ThrownOther shown =>
      newCliError shown (lit "GENERAL_ERROR") GENERAL_ERROR
  end.

(** A computation that returns or throws a [CliError]. *)
Inductive result (A : Type) : Type :=
| Ok (a : A)
| Throw (e : CliError).
Arguments Ok {A} a.
Arguments Throw {A} e.

End Errors.

(* ------------------------------------------------------------------ *)
(** * src/lib/patch.ts *)

Module Patch.
Import Errors.

(** What a call of [applyPatch] of the npm package [diff] comes to: it
    returns the patched text; it returns [false], when a hunk cannot be
    placed; or it throws an [Error] of its own, for a patch text it cannot
    read or one that holds the patches of more than one file. *)
Inductive Applied : Type :=
| Patched (text : str)
| NotPlaced
| LibraryThrows (e : JsError).

(** The functions patch.ts imports from the npm package [diff].
    [createTwoFilesPatch oldFileName newFileName oldStr newStr oldHeader
    newHeader context] returns the text of a unified diff;
    [applyPatch source patch fuzzFactor] is the library's attempt to apply
    [patch] to [source]. *)
Class DiffLibrary : Type := {
  createTwoFilesPatch : str -> str -> str -> str -> str -> str -> nat -> str;
  applyPatch : str -> str -> nat -> Applied
}.

(** What a call of the patch engine comes to.  It returns or throws a
    [CliError], which is a [result]; or an [Error] thrown inside the diff
    library passes through it, since nothing in patch.ts catches. *)
Inductive outcome (A : Type) : Type :=
| Completed (r : result A)
| Uncaught (e : JsError).
Arguments Completed {A} r.
Arguments Uncaught {A} e.

Coercion Completed : result >-> outcome.

(** [op.end]: a line number or [Infinity]. *)
Inductive LineEnd : Type :=
| EndLine (n : Z)
| EndInfinity.

(** [PatchOperation] (src/lib/types.ts), a union tagged by [mode]. *)
Inductive PatchOperation : Type :=
| PatchLineRange (start : Z) (end_ : LineEnd) (content : str)   (* 'lines' *)
| PatchDiff (patch : str)                                       (* 'diff' *)
| PatchAppend (content : str)                                   (* 'append' *)
| PatchPrepend (content : str).                                 (* 'prepend' *)

Record PatchResult : Type := mkPatchResult {
  patched : str;
  diff : str;
  linesChanged : nat
}.

(** The loop of [buildResult]: one pass over the lines of the diff, counting
    in [added] and [removed]. *)
Definition count_step (acc : nat * nat) (line : str) : nat * nat :=
  let '(added, removed) := acc in
  let added :=
    if Js.startsWith line (lit "+") && negb (Js.startsWith line (lit "+++"))
    then S added else added in
  let removed :=
    if Js.startsWith line (lit "-") && negb (Js.startsWith line (lit "---"))
    then S removed else removed in
  (added, removed).

Definition countChanged (diffText : str) : nat :=
  let '(added, removed) := fold_left count_step (Js.split diffText) (0, 0) in
  added + removed.

Section WithDiff.
Context {D : DiffLibrary}.

Definition buildResult (original patched : str) : PatchResult :=
  let diff := createTwoFilesPatch (lit "before") (lit "after")
                original patched [] [] 3 in
  mkPatchResult patched diff (countChanged diff).

(** [op.end === Infinity ? totalLines : Math.min(op.end, totalLines)] *)
Definition effectiveEnd (end_ : LineEnd) (totalLines : Z) : Z :=
  match end_ with
  | EndInfinity => totalLines
  | EndLine e => Z.min e totalLines
  end.

Definition is_empty (s : str) : bool :=
  match s with [] => true | _ => false end.

Definition applyLineRange (original : str) (start : Z) (end_ : LineEnd)
    (content : str) : result PatchResult :=
  let lines := Js.split original in
  let totalLines := Z.of_nat (length lines) in
  if (start <? 1)%Z then
    Throw (ValidationError (lit "Line range start must be >= 1."))
  else
    let effEnd := effectiveEnd end_ totalLines in
    if (start >? totalLines + 1)%Z then
      Throw (ValidationError
               (lit "Start line " ++ Js.String_ start
                  ++ lit " exceeds document length ("
                  ++ Js.String_ totalLines ++ lit " lines)."))
    else
      let before := Js.slice lines 0 (Some (start - 1)%Z) in
      let after := Js.slice lines effEnd None in
      let newLines := if is_empty content then [] else Js.split content in
      let patched := Js.join (before ++ newLines ++ after) in
      Ok (buildResult original patched).

Definition applyUnifiedDiff (original patch : str) : outcome PatchResult :=
  match applyPatch original patch 2 with
  | LibraryThrows e => Uncaught e
  | NotPlaced =>
      Throw (PatchConflictError
        (lit "Failed to apply patch. The page content may have changed since the diff was created. "
           ++ lit "Re-read the page with `page read --numbered-lines` and create a new diff."))
  | Patched res => Ok (buildResult original res)
  end.

Definition applyAppend (original content : str) : result PatchResult :=
  let patched :=
    if Js.endsWith original [LF] then original ++ content
    else original ++ LF :: content in
  Ok (buildResult original patched).

Definition applyPrepend (original content : str) : result PatchResult :=
  let patched := content ++ LF :: original in
  Ok (buildResult original patched).

Definition applyPatchOperation (original : str) (operation : PatchOperation)
    : outcome PatchResult :=
  match operation with
  | PatchLineRange start end_ content =>
      applyLineRange original start end_ content
  | PatchDiff patch => applyUnifiedDiff original patch
  | PatchAppend content => applyAppend original content
  | PatchPrepend content => applyPrepend original content
  end.

End WithDiff.

End Patch.

(* ------------------------------------------------------------------ *)
(** * src/lib/markdown.ts *)

Module Markdown.
Import Regex.

(** [lines.map((line, i) => f(line, i))] *)
Fixpoint mapi_from {A B} (f : A -> nat -> B) (i : nat) (l : list A) : list B :=
  match l with
  | [] => []
  | x :: l' => f x i :: mapi_from f (S i) l'
  end.

Definition number_line (padWidth : nat) (line : str) (i : nat) : str :=
  Js.padStart (Js.String_ (Z.of_nat (i + 1))) padWidth ++ lit ": " ++ line.

Definition addLineNumbers (markdown : str) : str :=
  let lines := Js.split markdown in
  let padWidth := length (Js.String_ (Z.of_nat (length lines))) in
  Js.join (mapi_from (number_line padWidth) 0 lines).

(** /^\s*\d+:\s?/ *)
Definition re_line_number : regex :=
  [Start; Rep is_space 0 None; Rep is_digit 1 None; Chr ":";
   Rep is_space 0 (Some 1)].

Definition stripLineNumbers (numbered : str) : str :=
  Js.join (map (replace re_line_number []) (Js.split numbered)).

End Markdown.

(* ------------------------------------------------------------------ *)
(** * src/utils/logger.ts, src/lib/config.ts, src/lib/client.ts and
      src/lib/validator.ts *)

Module Logger.

(** [maskToken]: the first 4 and the last 4 characters of a token, or
    "****" for a token of 12 characters or less. *)
Definition maskToken (token : str) : str :=
  if length token <=? 12 then lit "****"
  else Js.slice token 0 (Some 4%Z) ++ lit "..." ++ Js.slice token (-4) None.

End Logger.

Module Config.
Import Errors.

(** [CliConfig] (src/lib/types.ts), as far as config.ts reads it. *)
Record CliConfig : Type := mkCliConfig { token : option str }.

(** [resolveToken(cliToken)].  [envToken] is [process.env['NOTION_TOKEN']],
    [config] is what [loadConfig()] returns ([None]: no config file could
    be read). *)
Definition resolveToken (cliToken envToken : option str)
    (config : option CliConfig) : result str :=
  match cliToken with
  | Some (c :: t) => Ok (c :: t)
  | _ =>
      match envToken with
      | Some (c :: t) => Ok (c :: t)
      | _ =>
          match config with
          | Some {| token := Some (c :: t) |} => Ok (c :: t)
          | _ => Throw AuthError
          end
      end
  end.

End Config.

Module Client.
Import Errors Config.

(** A [Client] of the Notion SDK, as far as client.ts builds it: the
    options given to [new Client]. *)
Record NotionClient : Type := mkClient { auth : str; timeoutMs : Z }.

(** The variable [clientInstance] of the module. *)
Definition state : Type := option NotionClient.

(** What [resolveToken] finds outside the program at the time of a call:
    [process.env['NOTION_TOKEN']] and the config file. *)
Record environment : Type := mkEnvironment {
  envToken : option str;
  config : option CliConfig
}.

(** [getClient(cliToken)]: the result and the new [clientInstance].  The
    debug line it logs is left out. *)
Definition getClient (st : state) (e : environment) (cliToken : option str)
    : result NotionClient * state :=
  match st with
  | Some c => (Ok c, st)
  | None =>
      match resolveToken cliToken (envToken e) (config e) with
      | Ok token =>
          let c := mkClient token 30000 in
          (Ok c, Some c)
      | Throw err => (Throw err, st)
      end
  end.

Definition resetClient (st : state) : state := None.

(** A series of calls of [getClient], each with its own surroundings and
    argument. *)
Fixpoint getClients (st : state) (calls : list (environment * option str))
    : list (result NotionClient) * state :=
  match calls with
  | [] => ([], st)
  | (e, t) :: calls' =>
      let '(r, st1) := getClient st e t in
      let '(rs, st2) := getClients st1 calls' in
      (r :: rs, st2)
  end.

End Client.

Module Validator.
Import Regex Rx.

(** [parts.join(sep)] *)
Fixpoint joinWith (sep : str) (parts : list str) : str :=
  match parts with
  | [] => []
  | [p] => p
  | p :: rest => p ++ sep ++ joinWith sep rest
  end.

(** /-/g *)
Definition re_dash : regex := [Chr "-"].

Definition normalizeId (id : str) : str :=
  let clean := replaceAll re_dash [] id in
  joinWith (lit "-")
    [ Js.slice clean 0 (Some 8%Z);
      Js.slice clean 8 (Some 12%Z);
      Js.slice clean 12 (Some 16%Z);
      Js.slice clean 16 (Some 20%Z);
      Js.slice clean 20 (Some 32%Z) ].

(** [tokenSchema]: a non-empty string that starts with "ntn_" or
    "secret_". *)
Definition tokenSchema (t : str) : bool :=
  (1 <=? length t)
  && (Js.startsWith t (lit "ntn_") || Js.startsWith t (lit "secret_")).

(** [[a-f0-9]{n}] under the [i] flag *)
Definition hex (n : nat) : rx := Many is_hex n (Some n).

(** /^[a-f0-9]{8}-?[a-f0-9]{4}-?[a-f0-9]{4}-?[a-f0-9]{4}-?[a-f0-9]{12}$/i *)
Definition NOTION_ID_REGEX : rx :=
  cat [Bol false; hex 8; Opt (Lit "-"); hex 4; Opt (Lit "-"); hex 4;
       Opt (Lit "-"); hex 4; Opt (Lit "-"); hex 12; Eol false].

(** [notionIdSchema.safeParse(id).success] *)
Definition notionIdSchema (id : str) : bool := test NOTION_ID_REGEX id.

(** /^\d+:\d+$/ *)
Definition re_line_range : rx :=
  cat [Bol false; Many is_digit 1 None; Lit ":"; Many is_digit 1 None;
       Eol false].

(** [a >= b] on numbers, [None] being NaN. *)
Definition num_ge (a : option Z) (b : Z) : bool :=
  match a with Some x => (b <=? x)%Z | None => false end.

(** [lineRangeSchema.safeParse(val)]: [Some (start, end)] is a success with
    this data, [None] a failure. *)
Definition lineRangeSchema (val : str) : option (Z * Z) :=
  if test re_line_range val then
    let parts := JsString.split ":" val in
    let start := JsString.parseInt (nth 0 parts (lit "0")) in
    let end_ := JsString.parseInt (nth 1 parts (lit "0")) in
    match start, end_ with
    | Some a, Some b =>
        if num_ge start 1 && num_ge end_ 1 && (a <=? b)%Z
        then Some (a, b) else None
    | _, _ => None
    end
  else None.

End Validator.

(* ------------------------------------------------------------------ *)
(** * src/utils/id.ts *)

Module Id.
Import Regex Rx Errors Validator.

(** /([a-f0-9]{32})(?:\?|$)/i *)
Definition re_url_id : rx :=
  Seq (Group (hex 32)) (Alt (Lit "?") (Eol false)).

(** /([a-f0-9]{8}-[a-f0-9]{4}-[a-f0-9]{4}-[a-f0-9]{4}-[a-f0-9]{12})/i *)
Definition re_dashed_id : rx :=
  Group (cat [hex 8; Lit "-"; hex 4; Lit "-"; hex 4; Lit "-"; hex 4;
              Lit "-"; hex 12]).

(** The double quote. *)
Definition DQ : ascii := ascii_of_nat 34.

Definition parseNotionId (input : str) : result str :=
  match group1 re_url_id input with
  | Some id => Ok (normalizeId id)
  | None =>
      match group1 re_dashed_id input with
      | Some id => Ok (normalizeId id)
      | None =>
          if notionIdSchema input then Ok (normalizeId input)
          else Throw (ValidationError
                 (lit "Invalid Notion ID: " ++ DQ :: input
                    ++ DQ :: lit ". Expected a UUID or Notion URL."))
      end
  end.

End Id.

(* ------------------------------------------------------------------ *)
(** * isValidUnifiedDiff (src/lib/patch.ts) and extractTitle
      (src/lib/markdown.ts) *)

Module UnifiedDiff.
Import Regex Rx.

(** /^@@\s+-\d+(?:,\d+)?\s+\+\d+(?:,\d+)?\s+@@/m *)
Definition re_hunk_header : rx :=
  cat [Bol true; Lit "@"; Lit "@"; Many is_space 1 None;
       Lit "-"; Many is_digit 1 None;
       Opt (Seq (Lit ",") (Many is_digit 1 None));
       Many is_space 1 None;
       Lit "+"; Many is_digit 1 None;
       Opt (Seq (Lit ",") (Many is_digit 1 None));
       Many is_space 1 None; Lit "@"; Lit "@"].

Definition isValidUnifiedDiff (patch : str) : bool :=
  test re_hunk_header patch.

End UnifiedDiff.

Module Title.
Import Regex Rx.

(** /^#\s+(.+)$/m *)
Definition re_title : rx :=
  cat [Bol true; Lit "#"; Many is_space 1 None;
       Group (Many is_dot 1 None); Eol true].

Definition extractTitle (markdown : str) : str :=
  match group1 re_title markdown with
  | Some t => JsString.trim t
  | None => lit "Untitled"
  end.

End Title.

(* ------------------------------------------------------------------ *)
(** * Lines of a text: split, join, slice *)

Module JsFacts.
Import Js.

Definition no_LF (l : str) : Prop := ~ In LF l.

Lemma split_cons_LF (s : str) : split (LF :: s) = [] :: split s.
Proof. reflexivity. Qed.

Lemma split_not_nil (s : str) : split s <> [].
Proof.
  induction s as [|c s IH]; simpl; [discriminate|].
  destruct (Ascii.eqb c LF); [discriminate|].
  destruct (split s); [contradiction|discriminate].
Qed.

Lemma split_cons_other (c : ascii) (s : str) :
  c <> LF ->
  exists l ls, split s = l :: ls /\ split (c :: s) = (c :: l) :: ls.
Proof.
  intros Hc. simpl.
  destruct (Ascii.eqb_spec c LF) as [->|_]; [contradiction|].
  destruct (split s) as [|l ls] eqn:E.
  - exfalso. now apply (split_not_nil s).
  - now exists l, ls.
Qed.

Lemma split_no_LF (s : str) : Forall no_LF (split s).
Proof.
  induction s as [|c s IH].
  - constructor; [intros []|constructor].
  - destruct (Ascii.eqb_spec c LF) as [->|Hc].
    + rewrite split_cons_LF. constructor; [intros []|exact IH].
    + destruct (split_cons_other s Hc) as (l & ls & E & ->).
      rewrite E in IH. inversion IH as [|? ? Hl Hls]; subst.
      constructor; [|exact Hls].
      intros [H|H]; [now apply Hc|now apply Hl].
Qed.

Lemma join_cons (l : str) (ls : list str) :
  ls <> [] -> join (l :: ls) = l ++ LF :: join ls.
Proof. destruct ls; [contradiction|reflexivity]. Qed.

Lemma join_split (s : str) : join (split s) = s.
Proof.
  induction s as [|c s IH]; [reflexivity|].
  destruct (Ascii.eqb_spec c LF) as [->|Hc].
  - rewrite split_cons_LF, join_cons by apply split_not_nil.
    now rewrite IH.
  - destruct (split_cons_other s Hc) as (l & ls & E & ->).
    rewrite E in IH. destruct ls as [|l' ls'].
    + simpl in *. now rewrite IH.
    + change (join ((c :: l) :: l' :: ls')) with (c :: join (l :: l' :: ls')).
      now rewrite IH.
Qed.

Lemma split_app_no_LF (l s : str) :
  no_LF l ->
  exists l' ls, split s = l' :: ls /\ split (l ++ s) = (l ++ l') :: ls.
Proof.
  induction l as [|c l IH]; intros Hl.
  - destruct (split s) as [|l' ls] eqn:E.
    + exfalso. now apply (split_not_nil s).
    + now exists l', ls.
  - destruct IH as (l' & ls & E & E').
    { intros H. apply Hl. now right. }
    assert (Hc : c <> LF) by (intros ->; apply Hl; now left).
    destruct (split_cons_other (l ++ s) Hc) as (l1 & ls1 & E1 & E2).
    rewrite E' in E1. injection E1 as <- <-.
    exists l', ls. split; [exact E|exact E2].
Qed.

Lemma split_line_LF (l s : str) :
  no_LF l -> split (l ++ LF :: s) = l :: split s.
Proof.
  intros Hl. destruct (split_app_no_LF (LF :: s) Hl) as (l' & ls & E & ->).
  rewrite split_cons_LF in E. injection E as <- <-.
  now rewrite app_nil_r.
Qed.

Lemma split_line (l : str) : no_LF l -> split l = [l].
Proof.
  intros Hl. destruct (split_app_no_LF [] Hl) as (l' & ls & E & E').
  simpl in E. injection E as <- <-. now rewrite app_nil_r in E'.
Qed.

Lemma split_join (ls : list str) :
  ls <> [] -> Forall no_LF ls -> split (join ls) = ls.
Proof.
  induction ls as [|l ls IH]; intros Hne Hall; [contradiction|].
  inversion Hall as [|? ? Hl Hls]; subst.
  destruct ls as [|l' ls'].
  - simpl. now apply split_line.
  - rewrite join_cons by discriminate.
    rewrite split_line_LF by assumption.
    f_equal. apply IH; [discriminate|assumption].
Qed.

Lemma join_app (ls1 ls2 : list str) :
  ls1 <> [] -> ls2 <> [] ->
  join (ls1 ++ ls2) = join ls1 ++ LF :: join ls2.
Proof.
  induction ls1 as [|l ls1 IH]; intros H1 H2; [contradiction|].
  destruct ls1 as [|l' ls1'].
  - simpl app. now rewrite join_cons.
  - change ((l :: l' :: ls1') ++ ls2) with (l :: ((l' :: ls1') ++ ls2)).
    rewrite join_cons by discriminate.
    rewrite IH by (discriminate || assumption).
    rewrite (join_cons l) by discriminate.
    now rewrite <- app_assoc.
Qed.

Lemma split_app_LF (a b : str) :
  split (a ++ LF :: b) = split a ++ split b.
Proof.
  rewrite <- (join_split a) at 1. rewrite <- (join_split b) at 1.
  rewrite <- join_app by apply split_not_nil.
  apply split_join.
  - intros H. apply app_eq_nil in H. now apply (split_not_nil a).
  - apply Forall_app. split; apply split_no_LF.
Qed.

Lemma length_split (s : str) :
  length (split s) = S (count_occ Ascii.ascii_dec s LF).
Proof.
  induction s as [|c s IH]; [reflexivity|].
  destruct (Ascii.eqb_spec c LF) as [->|Hc].
  - rewrite split_cons_LF. simpl length. rewrite IH.
    now rewrite count_occ_cons_eq.
  - destruct (split_cons_other s Hc) as (l & ls & E & ->).
    rewrite E in IH. simpl length in *. rewrite IH.
    now rewrite count_occ_cons_neq.
Qed.

Lemma Forall_firstn_skipn {A} (P : A -> Prop) (n : nat) (l : list A) :
  Forall P l -> Forall P (firstn n l) /\ Forall P (skipn n l).
Proof.
  intros H. apply Forall_app. now rewrite firstn_skipn.
Qed.

(** ** slice *)

Lemma slice_prefix {A} (a : list A) (n : Z) :
  (0 <= n)%Z -> slice a 0 (Some n) = firstn (Z.to_nat n) a.
Proof.
  intros Hn. unfold slice, rel_index. simpl.
  destruct (n <? 0)%Z eqn:E; [lia|].
  rewrite Nat.sub_0_r.
  destruct (Nat.le_ge_cases (Z.to_nat n) (length a)) as [H|H].
  - now rewrite Nat.min_l.
  - rewrite Nat.min_r by assumption.
    now rewrite !firstn_all2 by lia.
Qed.

Lemma slice_suffix {A} (a : list A) (n : Z) :
  (0 <= n)%Z -> slice a n None = skipn (Z.to_nat n) a.
Proof.
  intros Hn. unfold slice, rel_index.
  destruct (n <? 0)%Z eqn:E; [lia|].
  destruct (Nat.le_ge_cases (Z.to_nat n) (length a)) as [H|H].
  - rewrite Nat.min_l by assumption.
    apply firstn_all2. rewrite length_skipn. lia.
  - rewrite Nat.min_r by assumption.
    rewrite !skipn_all2 by lia. now rewrite firstn_nil.
Qed.

(** ** endsWith *)

Lemma startsWith_iff (s p : str) :
  startsWith s p = true <-> exists t, s = p ++ t.
Proof.
  revert s. induction p as [|a p IH]; intros s; simpl.
  - split; [intros _; now exists s|reflexivity].
  - destruct s as [|b s].
    + split; [discriminate|intros [t H]; discriminate].
    + rewrite andb_true_iff, IH. split.
      * intros [Hab [t ->]]. apply Ascii.eqb_eq in Hab. subst. now exists t.
      * intros [t H]. injection H as -> ->.
        split; [apply Ascii.eqb_refl|now exists t].
Qed.

Lemma endsWith_iff (s p : str) :
  endsWith s p = true <-> exists t, s = t ++ p.
Proof.
  unfold endsWith. rewrite startsWith_iff. split.
  - intros [t H]. exists (rev t).
    rewrite <- (rev_involutive s), H, rev_app_distr.
    now rewrite rev_involutive.
  - intros [t ->]. exists (rev t). apply rev_app_distr.
Qed.

End JsFacts.

(* ------------------------------------------------------------------ *)
(** * The patch engine *)

Module PatchFacts.
Import Js JsFacts Errors Patch.

(** [s.includes(p)] *)
Fixpoint includes (s p : str) : bool :=
  startsWith s p || match s with [] => false | _ :: s' => includes s' p end.

(** Number of lines of a document: the segments between line breaks. *)
Definition totalLines (original : str) : Z :=
  Z.of_nat (length (split original)).

(** The lines that replace the addressed range. *)
Definition contentLines (content : str) : list str :=
  match content with [] => [] | _ => split content end.

(** An instance of the diff library that reports an empty diff and places
    no patch; it serves to run the engine where the outcome does not depend
    on the library. *)
Definition plainDiff : DiffLibrary :=
  {| createTwoFilesPatch := fun _ _ _ _ _ _ _ => [];
     applyPatch := fun _ _ _ => NotPlaced |}.

Section Engine.
Context {D : DiffLibrary}.

(** A line operation comes to what [applyLineRange] returns or throws. *)
Lemma lines_operation (original content : str) (start : Z) (end_ : LineEnd) :
  applyPatchOperation original (PatchLineRange start end_ content)
  = Completed (applyLineRange original start end_ content).
Proof. reflexivity. Qed.

Lemma Completed_inj {A} (a b : result A) :
  Completed a = Completed b -> a = b.
Proof. intros H. now injection H. Qed.

Lemma totalLines_pos (original : str) : (1 <= totalLines original)%Z.
Proof.
  unfold totalLines. pose proof (split_not_nil original).
  destruct (split original); [contradiction|simpl length; lia].
Qed.

Lemma is_empty_contentLines (content : str) :
  (if is_empty content then [] else split content) = contentLines content.
Proof. now destruct content. Qed.

(** In range, a line operation succeeds and splices the three pieces. *)
Lemma applyLineRange_ok (original content : str) (start : Z) (end_ : LineEnd) :
  (1 <= start <= totalLines original + 1)%Z ->
  applyLineRange original start end_ content =
  Ok (buildResult original
        (join (firstn (Z.to_nat (start - 1)) (split original)
                 ++ contentLines content
                 ++ slice (split original)
                      (effectiveEnd end_ (totalLines original)) None))).
Proof.
  intros [H1 H2]. unfold applyLineRange. fold (totalLines original).
  destruct (start <? 1)%Z eqn:E1; [lia|].
  destruct (start >? totalLines original + 1)%Z eqn:E2; [lia|].
  rewrite slice_prefix by lia.
  now rewrite is_empty_contentLines.
Qed.

Lemma applyLineRange_low (original content : str) (start : Z) (end_ : LineEnd) :
  (start < 1)%Z ->
  applyLineRange original start end_ content =
  Throw (ValidationError (lit "Line range start must be >= 1.")).
Proof.
  intros H. unfold applyLineRange.
  destruct (start <? 1)%Z eqn:E1; [reflexivity|lia].
Qed.

Lemma applyLineRange_high (original content : str) (start : Z) (end_ : LineEnd) :
  (start > totalLines original + 1)%Z ->
  exists msg, applyLineRange original start end_ content =
              Throw (ValidationError msg).
Proof.
  intros H. pose proof (totalLines_pos original).
  unfold applyLineRange. fold (totalLines original).
  destruct (start <? 1)%Z eqn:E1; [lia|].
  destruct (start >? totalLines original + 1)%Z eqn:E2; [|lia].
  eexists. reflexivity.
Qed.

Lemma name_ValidationError (msg : str) :
  name (ValidationError msg) = lit "ValidationError".
Proof. reflexivity. Qed.

Lemma contentLines_no_LF (content : str) : Forall no_LF (contentLines content).
Proof. destruct content; [constructor|apply split_no_LF]. Qed.

Lemma contentLines_not_nil (content : str) :
  content <> [] -> contentLines content <> [].
Proof. destruct content; [contradiction|intros _; apply split_not_nil]. Qed.

Lemma contentLines_join (content : str) :
  join (contentLines content) = content.
Proof. destruct content; [reflexivity|apply join_split]. Qed.

(** ** Line-range replacement *)

(** C1. In range (1 <= start <= totalLines+1, end >= start or Infinity) the
    patched text consists of the first start-1 lines of the original, then
    the lines of the content (none when the content is empty), then the
    original lines after min(end, totalLines); Infinity stands for
    totalLines.  Read back line by line, the patched text is exactly this
    sequence, so the lines outside the range are untouched and in order. *)
Theorem line_range_splice (original content : str) (start : Z) (end_ : LineEnd) :
  (1 <= start <= totalLines original + 1)%Z ->
  match end_ with EndLine e => (start <= e)%Z | EndInfinity => True end ->
  let lines := split original in
  let effEnd := match end_ with
                | EndLine e => Z.min e (totalLines original)
                | EndInfinity => totalLines original
                end in
  let expected := firstn (Z.to_nat (start - 1)) lines
                    ++ contentLines content
                    ++ skipn (Z.to_nat effEnd) lines in
  exists r,
    applyPatchOperation original (PatchLineRange start end_ content) = Ok r /\
    patched r = join expected /\
    (expected <> [] -> split (patched r) = expected).
Proof.
  intros Hs He lines effEnd expected.
  assert (Hpos : (0 <= effEnd)%Z).
  { subst effEnd. pose proof (totalLines_pos original).
    destruct end_; lia. }
  eexists. split; [|split].
  - simpl. rewrite applyLineRange_ok by assumption. reflexivity.
  - simpl. now rewrite slice_suffix by exact Hpos.
  - intros Hne. simpl. rewrite slice_suffix by exact Hpos.
    apply split_join; [exact Hne|].
    pose proof (split_no_LF original) as Hall.
    repeat (apply Forall_app; split).
    + now apply Forall_firstn_skipn.
    + apply contentLines_no_LF.
    + now apply Forall_firstn_skipn.
Qed.

(** A line operation throws a ValidationError exactly out of range. *)
Lemma applyLineRange_throws_iff (original content : str) (start : Z)
    (end_ : LineEnd) :
  (exists e,
     applyLineRange original start end_ content = Throw e
     /\ name e = lit "ValidationError")
  <-> (start < 1 \/ start > totalLines original + 1)%Z.
Proof.
  split.
  - intros (e & He & _).
    destruct (Z_lt_le_dec start 1) as [Hlo|Hlo]; [now left|].
    destruct (Z_le_gt_dec start (totalLines original + 1)) as [Hhi|Hhi];
      [|now right].
    rewrite applyLineRange_ok in He by lia. discriminate.
  - intros [Hlo|Hhi].
    + rewrite applyLineRange_low by assumption. eexists. split; reflexivity.
    + destruct (applyLineRange_high original content end_ Hhi) as [msg ->].
      eexists. split; reflexivity.
Qed.

(** Just after the last line, with an end that is not before the last
    line, a line operation appends. *)
Lemma applyLineRange_append (original content : str) (end_ : LineEnd) :
  content <> [] ->
  match end_ with
  | EndLine e => (totalLines original <= e)%Z
  | EndInfinity => True
  end ->
  exists r,
    applyLineRange original (totalLines original + 1) end_ content = Ok r
    /\ patched r = original ++ LF :: content.
Proof.
  pose proof (totalLines_pos original) as Hpos.
  intros Hc He. rewrite applyLineRange_ok by lia.
  eexists. split; [reflexivity|]. simpl patched.
  assert (Heff : effectiveEnd end_ (totalLines original) = totalLines original).
  { destruct end_; simpl; lia. }
  rewrite Heff, slice_suffix by lia.
  replace (totalLines original + 1 - 1)%Z with (totalLines original) by lia.
  unfold totalLines. rewrite Nat2Z.id.
  rewrite firstn_all, skipn_all, app_nil_r.
  rewrite join_app by (apply split_not_nil || now apply contentLines_not_nil).
  now rewrite join_split, contentLines_join.
Qed.

(** The same two facts for the operation as [applyPatchOperation] runs
    it. *)
Lemma lines_operation_throws_iff (original content : str) (start : Z)
    (end_ : LineEnd) :
  (exists e,
     applyPatchOperation original (PatchLineRange start end_ content)
     = Throw e
     /\ name e = lit "ValidationError")
  <-> (start < 1 \/ start > totalLines original + 1)%Z.
Proof.
  rewrite lines_operation.
  rewrite <- (applyLineRange_throws_iff original content start end_).
  split; intros (e & H & Hn); exists e; (split; [|exact Hn]).
  - now apply Completed_inj.
  - now rewrite H.
Qed.

Lemma lines_operation_append (original content : str) (end_ : LineEnd) :
  content <> [] ->
  match end_ with
  | EndLine e => (totalLines original <= e)%Z
  | EndInfinity => True
  end ->
  exists r,
    applyPatchOperation original
      (PatchLineRange (totalLines original + 1) end_ content) = Ok r
    /\ patched r = original ++ LF :: content.
Proof.
  intros Hc He. rewrite lines_operation.
  destruct (applyLineRange_append original end_ Hc He) as (r & H & Hp).
  exists r. split; [now rewrite H|exact Hp].
Qed.

(** C2 (amended). A line operation throws a ValidationError exactly when
    start < 1 or start > totalLines + 1.  With start = 0 the message
    mentions "start must be >= 1", whatever the end.  With
    start = totalLines + 1, non-empty content and an end that is not before
    the last line (as is every end >= start, and Infinity), the operation
    appends the content's lines after the last line. *)
Theorem line_range_validation (original content : str) (start : Z) (end_ : LineEnd) :
  ((exists e,
      applyPatchOperation original (PatchLineRange start end_ content) = Throw e
      /\ name e = lit "ValidationError")
   <-> (start < 1 \/ start > totalLines original + 1)%Z)
  /\ (exists e,
        applyPatchOperation original (PatchLineRange 0 end_ content) = Throw e
        /\ name e = lit "ValidationError"
        /\ includes (message e) (lit "start must be >= 1") = true)
  /\ (content <> [] ->
      match end_ with
      | EndLine e => (totalLines original <= e)%Z
      | EndInfinity => True
      end ->
      exists r,
        applyPatchOperation original
          (PatchLineRange (totalLines original + 1) end_ content) = Ok r
        /\ patched r = original ++ LF :: content).
Proof.
  split; [|split].
  - apply lines_operation_throws_iff.
  - simpl. rewrite applyLineRange_low by lia.
    eexists. split; [reflexivity|]. split; [reflexivity|].
    vm_compute. reflexivity.
  - apply lines_operation_append.
Qed.

(** C10. The empty document is one empty line.  On it a line operation with
    start 1 or 2 succeeds (start 2 inserts after the empty line), start >= 3
    throws a ValidationError.  In general the number of lines is one more
    than the number of line breaks, so a document that ends in a line break
    has a last, empty line, and start = end = totalLines addresses it. *)
Theorem empty_document_is_one_line :
  split [] = [[]]
  /\ (forall start end_ content,
        start = 1%Z \/ start = 2%Z ->
        exists r,
          applyPatchOperation [] (PatchLineRange start end_ content) = Ok r)
  /\ (forall end_ content,
        content <> [] ->
        match end_ with EndLine e => (1 <= e)%Z | EndInfinity => True end ->
        exists r,
          applyPatchOperation [] (PatchLineRange 2 end_ content) = Ok r
          /\ patched r = LF :: content)
  /\ (forall start end_ content,
        (3 <= start)%Z ->
        exists e,
          applyPatchOperation [] (PatchLineRange start end_ content) = Throw e
          /\ name e = lit "ValidationError")
  /\ (forall original,
        length (split original) = S (count_occ Ascii.ascii_dec original LF))
  /\ (forall s content,
        content <> [] ->
        let original := s ++ [LF] in
        totalLines original = (totalLines s + 1)%Z
        /\ last (split original) [LF] = []
        /\ exists r,
             applyPatchOperation original
               (PatchLineRange (totalLines original)
                  (EndLine (totalLines original)) content) = Ok r
             /\ patched r = s ++ LF :: content).
Proof.
  split; [reflexivity|]. split; [|split; [|split; [|split]]].
  - intros start end_ content Hs. simpl.
    rewrite applyLineRange_ok.
    + eexists. reflexivity.
    + change (totalLines []) with 1%Z. lia.
  - intros end_ content Hc He.
    apply (@lines_operation_append [] content end_ Hc).
    change (totalLines []) with 1%Z.
    destruct end_; [exact He|exact I].
  - intros start end_ content Hs.
    apply lines_operation_throws_iff. right.
    change (totalLines []) with 1%Z. lia.
  - exact length_split.
  - intros s content Hc original.
    assert (Hsplit : split original = split s ++ [[]]).
    { subst original. now rewrite split_app_LF. }
    assert (Htot : totalLines original = (totalLines s + 1)%Z).
    { unfold totalLines. rewrite Hsplit, length_app. simpl. lia. }
    split; [exact Htot|]. split.
    { rewrite Hsplit. apply last_last. }
    pose proof (totalLines_pos s) as Hpos.
    simpl. rewrite applyLineRange_ok by lia.
    eexists. split; [reflexivity|]. simpl patched.
    rewrite Z.min_id, slice_suffix by lia.
    assert (Hlen : Z.to_nat (totalLines original) = length (split original)).
    { unfold totalLines. apply Nat2Z.id. }
    rewrite Hlen, skipn_all, app_nil_r.
    replace (Z.to_nat (totalLines original - 1)) with (length (split s))
      by (rewrite Htot; unfold totalLines; lia).
    rewrite Hsplit, firstn_app, firstn_all, Nat.sub_diag. simpl firstn.
    rewrite app_nil_r.
    rewrite join_app by (apply split_not_nil || now apply contentLines_not_nil).
    now rewrite join_split, contentLines_join.
Qed.

(** ** Unified diff *)


(** ** Append and prepend *)

(** C4. Append: when the original ends with a line break the patched text is
    the original directly followed by the content; otherwise exactly one
    line break is put between them.  Either way the content starts on a
    line of its own. *)
Theorem append_on_own_line (original content : str) :
  exists r,
    applyPatchOperation original (PatchAppend content) = Ok r
    /\ ((exists p, original = p ++ [LF]) -> patched r = original ++ content)
    /\ (~ (exists p, original = p ++ [LF]) ->
        patched r = original ++ [LF] ++ content)
    /\ (exists p, patched r = p ++ [LF] ++ content).
Proof.
  simpl. unfold applyAppend. eexists. split; [reflexivity|]. simpl patched.
  destruct (endsWith original [LF]) eqn:E.
  - apply endsWith_iff in E. repeat split.
    + intros H. now elim H.
    + destruct E as [p ->]. exists p. now rewrite <- app_assoc.
  - assert (Hn : ~ exists p, original = p ++ [LF]).
    { intros H. apply endsWith_iff in H. congruence. }
    repeat split.
    + intros H. now elim Hn.
    + now exists original.
Qed.

(** C5. Prepend: the patched text is the content, one line break, and the
    original, whatever the original starts with and whatever the content
    is. *)
Theorem prepend_exact (original content : str) :
  exists r,
    applyPatchOperation original (PatchPrepend content) = Ok r
    /\ patched r = content ++ [LF] ++ original.
Proof.
  simpl. unfold applyPrepend. eexists. split; reflexivity.
Qed.

(** ** The change count *)

Definition is_added (line : str) : bool :=
  startsWith line (lit "+") && negb (startsWith line (lit "+++")).

Definition is_removed (line : str) : bool :=
  startsWith line (lit "-") && negb (startsWith line (lit "---")).

Lemma fold_count_step (ls : list str) (a r : nat) :
  fold_left count_step ls (a, r) =
  (a + length (filter is_added ls), r + length (filter is_removed ls)).
Proof.
  revert a r. induction ls as [|l ls IH]; intros a r; cbn [fold_left filter].
  - simpl. now rewrite !Nat.add_0_r.
  - replace (count_step (a, r) l)
      with (if is_added l then S a else a, if is_removed l then S r else r)
      by reflexivity.
    destruct (is_added l), (is_removed l); rewrite IH; simpl length;
      f_equal; lia.
Qed.

(** What [buildResult] counts: the lines of the diff that begin with '+' but
    not with '+++', and those that begin with '-' but not with '---'. *)
Lemma countChanged_filter (diffText : str) :
  countChanged diffText =
  length (filter is_added (split diffText))
  + length (filter is_removed (split diffText)).
Proof.
  unfold countChanged. now rewrite fold_count_step.
Qed.

(** The count as the specification words it: the lines of the diff that
    begin with '+' or '-', the two file-header lines left out. *)
Definition specLinesChanged (diffText : str) : nat :=
  length (filter (fun l => startsWith l (lit "+") || startsWith l (lit "-"))
            (split diffText)) - 2.

(** A document with a Markdown rule on its second line, and the unified
    diff (3 lines of context) between it and the same document without the
    rule. *)
Definition ruleDocument : str := lit "a
---
b
".

Definition TAB : ascii := ascii_of_nat 9.

Definition ruleDiff : str :=
  join [ lit "===================================================================";
         lit "--- before" ++ [TAB];
         lit "+++ after" ++ [TAB];
         lit "@@ -1,3 +1,2 @@";
         lit " a";
         lit "----";
         lit " b";
         [] ].

(** C6, at a failing input.  Deleting the rule line gives a diff with one
    removed line, printed "----"; [buildResult] takes it for a header and
    reports no changed line. *)
Theorem linesChanged_skips_rule_line :
  createTwoFilesPatch (lit "before") (lit "after") ruleDocument (lit "a
b
") [] [] 3 = ruleDiff ->
  exists r,
    applyPatchOperation ruleDocument (PatchLineRange 2 (EndLine 2) []) = Ok r
    /\ patched r = lit "a
b
"
    /\ diff r = ruleDiff
    /\ linesChanged r = 0
    /\ specLinesChanged (diff r) = 1.
Proof.
  intros Hdiff.
  exists (buildResult ruleDocument (lit "a
b
")).
  split; [reflexivity|]. split; [reflexivity|].
  unfold buildResult. cbn [diff linesChanged]. rewrite Hdiff.
  repeat split.
Qed.

End Engine.

Lemma line_range_splice_witness :
  exists r,
    applyPatchOperation (D := plainDiff) (lit "one
two
three") (PatchLineRange 2 (EndLine 7) (lit "deux
2")) = Ok r
    /\ patched r = lit "one
deux
2".
Proof.
  destruct (@line_range_splice plainDiff (lit "one
two
three") (lit "deux
2") 2%Z (EndLine 7)) as (r & H1 & H2 & _).
  - vm_compute. split; discriminate.
  - vm_compute. discriminate.
  - exists r. split; [exact H1|rewrite H2; reflexivity].
Defined.


(** C2 as first stated fails: start = totalLines + 1 with an end before the
    last line does not only append, it also repeats the lines after the
    end. *)
Lemma line_range_append_repeats_lines :
  totalLines (lit "a
b") = 2%Z
  /\ exists r,
       applyPatchOperation (D := plainDiff) (lit "a
b") (PatchLineRange 3 (EndLine 1) (lit "x")) = Ok r
       /\ patched r = lit "a
b
x
b"
       /\ patched r <> lit "a
b" ++ LF :: lit "x".
Proof.
  split; [reflexivity|]. eexists. split; [reflexivity|].
  split; [reflexivity|]. vm_compute. discriminate.
Qed.

Lemma line_range_validation_witness :
  exists r,
    applyPatchOperation (D := plainDiff) (lit "a
b") (PatchLineRange 3 (EndLine 3) (lit "x")) = Ok r
    /\ patched r = lit "a
b
x".
Proof.
  destruct (@line_range_validation plainDiff (lit "a
b") (lit "x") 3 (EndLine 3)) as (_ & _ & H).
  apply H.
  - discriminate.
  - vm_compute. discriminate.
Defined.

Lemma empty_document_is_one_line_witness :
  (exists r,
     applyPatchOperation (D := plainDiff) []
       (PatchLineRange 2 (EndLine 2) (lit "x")) = Ok r
     /\ patched r = LF :: lit "x")
  /\ (exists e,
        applyPatchOperation (D := plainDiff) []
          (PatchLineRange 3 (EndLine 3) (lit "x")) = Throw e
        /\ name e = lit "ValidationError").
Proof.
  destruct (@empty_document_is_one_line plainDiff) as (_ & _ & H2 & H3 & _).
  split.
  - apply H2; [discriminate|vm_compute; discriminate].
  - apply H3. vm_compute. discriminate.
Defined.

Lemma append_on_own_line_witness :
  exists r,
    applyPatchOperation (D := plainDiff) (lit "a
") (PatchAppend (lit "b")) = Ok r
    /\ patched r = lit "a
b".
Proof.
  destruct (@append_on_own_line plainDiff (lit "a
") (lit "b")) as (r & H & Hyes & _).
  exists r. split; [exact H|].
  rewrite Hyes; [reflexivity|]. now exists (lit "a").
Defined.

(** ** The diff library on the inputs of tests/patch.test.ts *)

(** The page of the test suite, and the page with its fourth line
    modified. *)
Definition testPage : str :=
  join [ lit "# Hello World"; []; lit "This is line 3.";
         lit "This is line 4."; lit "This is line 5."; [];
         lit "## Section Two"; []; lit "Content here." ].

Definition testPagePatched : str :=
  join [ lit "# Hello World"; []; lit "This is line 3.";
         lit "This is MODIFIED line 4."; lit "This is line 5."; [];
         lit "## Section Two"; []; lit "Content here." ].

(** The diff of the test 'should apply a valid unified diff'. *)
Definition validDiff : str :=
  join [ lit "--- a/file.md"; lit "+++ b/file.md"; lit "@@ -3,3 +3,3 @@";
         lit " This is line 3."; lit "-This is line 4.";
         lit "+This is MODIFIED line 4."; lit " This is line 5." ].

(** The diff of the test 'should throw on failed patch application'. *)
Definition badDiff : str :=
  join [ lit "--- a/file.md"; lit "+++ b/file.md"; lit "@@ -3,3 +3,3 @@";
         lit " This line does not exist in the original.";
         lit "-Nonexistent line."; lit "+Replacement.";
         lit " Also nonexistent." ].

(** One text with the patches of two files: the diff above, and after it
    a patch of another file under its own Index line. *)
Definition twoFileDiff : str :=
  join [ lit "--- a/file.md"; lit "+++ b/file.md"; lit "@@ -3,3 +3,3 @@";
         lit " This is line 3."; lit "-This is line 4.";
         lit "+This is MODIFIED line 4."; lit " This is line 5.";
         lit "Index: other.md";
         lit "===================================================================";
         lit "--- a/other.md"; lit "+++ b/other.md"; lit "@@ -1 +1 @@";
         lit "-# Hello World"; lit "+# Hello" ].

(** The diff, with 3 lines of context, between the page and the modified
    page. *)
Definition testPageDiff : str :=
  join [ lit "===================================================================";
         lit "--- before" ++ [TAB];
         lit "+++ after" ++ [TAB];
         lit "@@ -1,7 +1,7 @@";
         lit " # Hello World";
         lit " ";
         lit " This is line 3.";
         lit "-This is line 4.";
         lit "+This is MODIFIED line 4.";
         lit " This is line 5.";
         lit " ";
         lit " ## Section Two";
         [] ].

(** The [Error] the library throws when it is given more than one patch. *)
Definition singleInputError : JsError :=
  mkJsError (lit "applyPatch only works with a single input.")
    None None None.

(** What the library does on these inputs: it places [validDiff] in the
    page, cannot place [badDiff], and throws on [twoFileDiff].  On every
    other input this instance places nothing and reports an empty diff;
    only the inputs above are used. *)
Definition testDiffLibrary : DiffLibrary :=
  {| createTwoFilesPatch := fun _ _ oldStr newStr _ _ _ =>
       if str_eqb oldStr testPage && str_eqb newStr testPagePatched
       then testPageDiff else [];
     applyPatch := fun source patch _ =>
       if str_eqb patch twoFileDiff then LibraryThrows singleInputError
       else if str_eqb source testPage && str_eqb patch validDiff
       then Patched testPagePatched
       else NotPlaced |}.


(** tests/patch.test.ts, 'Unified diff' *)

Example applies_a_valid_unified_diff :
  exists r,
    applyPatchOperation (D := testDiffLibrary) testPage (PatchDiff validDiff)
    = Ok r
    /\ includes (patched r) (lit "This is MODIFIED line 4.") = true
    /\ 0 < linesChanged r.
Proof.
  eexists. split; [reflexivity|]. split; [vm_compute; reflexivity|].
  vm_compute. lia.
Qed.

Example throws_on_failed_patch_application :
  exists e,
    applyPatchOperation (D := testDiffLibrary) testPage (PatchDiff badDiff)
    = Throw e
    /\ includes (message e) (lit "page content may have changed") = true.
Proof.
  eexists. split; [reflexivity|]. vm_compute. reflexivity.
Qed.



(** The diff library on the one input of [ruleDocument]. *)
Definition ruleDiffLibrary : DiffLibrary :=
  {| createTwoFilesPatch := fun _ _ _ _ _ _ _ => ruleDiff;
     applyPatch := fun _ _ _ => NotPlaced |}.

Lemma linesChanged_skips_rule_line_witness :
  exists r,
    applyPatchOperation (D := ruleDiffLibrary) ruleDocument
      (PatchLineRange 2 (EndLine 2) []) = Ok r
    /\ linesChanged r = 0
    /\ specLinesChanged (diff r) = 1.
Proof.
  destruct (@linesChanged_skips_rule_line ruleDiffLibrary eq_refl)
    as (r & H & _ & _ & H0 & H1).
  exists r. repeat split; assumption.
Defined.

End PatchFacts.

(* ------------------------------------------------------------------ *)
(** * Conversion of thrown values *)

Module ErrorFacts.
Import Errors.

Lemma str_eqb_eq (a b : str) : str_eqb a b = true <-> a = b.
Proof.
  unfold str_eqb. destruct (list_eq_dec Ascii.ascii_dec a b); split;
    congruence.
Qed.

Lemma opt_is_str (x : option str) (v : str) :
  x <> Some v -> opt_is str_eqb x v = false.
Proof.
  destruct x as [y|]; [|reflexivity]. intros H. simpl.
  destruct (str_eqb y v) eqn:E; [|reflexivity].
  apply str_eqb_eq in E. congruence.
Qed.

(** C8 (amended). A failure with status 429 (whose code is neither
    "unauthorized" nor "object_not_found") becomes a RateLimitError whose
    retry-after duration is the fixed 1000 ms, with or without a hint from
    the server.  A RateLimitError carries the duration it is built with. *)
Theorem rate_limit_fixed_delay (e : JsError) :
  status e = Some 429%Z ->
  err_code e <> Some (lit "unauthorized") ->
  err_code e <> Some (lit "object_not_found") ->
  toCliError (ThrownError e) = RateLimitError 1000
  /\ name (toCliError (ThrownError e)) = lit "RateLimitError"
  /\ retryAfterMs (toCliError (ThrownError e)) = Some 1000%Z
  /\ (forall ms, retryAfterMs (RateLimitError ms) = Some ms).
Proof.
  intros Hs H1 H2.
  assert (H : toCliError (ThrownError e) = RateLimitError 1000).
  { unfold toCliError.
    now rewrite Hs, (opt_is_str H1), (opt_is_str H2). }
  rewrite H. repeat split.
Qed.

(** C8 as first stated fails: a hint of 5000 ms is not taken over. *)
Lemma rate_limit_hint_ignored :
  let failure :=
    mkJsError (lit "Rate limited") (Some 429%Z) (Some (lit "rate_limited"))
      (Some 5000%Z) in
  retryAfter failure = Some 5000%Z
  /\ retryAfterMs (toCliError (ThrownError failure)) = Some 1000%Z
  /\ retryAfterMs (toCliError (ThrownError failure)) <> retryAfter failure.
Proof.
  repeat split. vm_compute. discriminate.
Qed.

Lemma rate_limit_fixed_delay_witness :
  retryAfterMs
    (toCliError
       (ThrownError
          (mkJsError (lit "Rate limited") (Some 429%Z)
             (Some (lit "rate_limited")) (Some 5000%Z)))) = Some 1000%Z.
Proof.
  apply (@rate_limit_fixed_delay
           (mkJsError (lit "Rate limited") (Some 429%Z)
              (Some (lit "rate_limited")) (Some 5000%Z))).
  - reflexivity.
  - vm_compute. discriminate.
  - vm_compute. discriminate.
Defined.

End ErrorFacts.

(* ------------------------------------------------------------------ *)
(** * Greedy repetitions *)

Module RegexFacts.
Import Regex.

(** The character before the position reached after reading [xs]. *)
Fixpoint prev_after (prev : option ascii) (xs : str) : option ascii :=
  match xs with
  | [] => prev
  | x :: xs' => prev_after (Some x) xs'
  end.

Lemma prev_after_cons (prev : option ascii) (x : ascii) (xs : str) :
  prev_after prev (x :: xs) = prev_after (Some x) xs.
Proof. reflexivity. Qed.

Lemma prev_after_app (prev : option ascii) (xs ys : str) :
  prev_after prev (xs ++ ys) = prev_after (prev_after prev xs) ys.
Proof.
  revert prev. induction xs as [|x xs IH]; intros prev; [reflexivity|].
  simpl app. now rewrite !prev_after_cons, IH.
Qed.

(** The next character is outside the class (or there is none). *)
Definition stops (cls : ascii -> bool) (s : str) : Prop :=
  match s with c :: _ => cls c = false | [] => True end.

Definition all_in (cls : ascii -> bool) (xs : str) : Prop :=
  Forall (fun c => cls c = true) xs.

Lemma rep_stop cls K n max prev s :
  stops cls s ->
  rep cls K n max prev s = match n with O => K prev s | S _ => None end.
Proof.
  destruct s as [|c s]; simpl; [reflexivity|]. now intros ->.
Qed.

(** An unbounded repetition that reads a whole run and whose continuation
    succeeds there does not backtrack. *)
Lemma rep_run cls K n prev xs s r :
  all_in cls xs -> n <= length xs ->
  K (prev_after prev xs) s = Some r ->
  stops cls s ->
  rep cls K n None prev (xs ++ s) = Some r.
Proof.
  intros Hxs. revert n prev.
  induction Hxs as [|x xs Hx _ IH]; intros n prev Hn HK Hs.
  - simpl in Hn. assert (n = 0) as -> by lia.
    simpl app. now rewrite rep_stop.
  - simpl app. simpl rep. rewrite Hx. simpl.
    rewrite prev_after_cons in HK.
    rewrite (IH (pred n) (Some x)); [reflexivity| |assumption|assumption].
    simpl in Hn. lia.
Qed.

(** A repetition that may take nothing more hands over at once. *)
Lemma rep_max0 cls K prev s : rep cls K 0 (Some 0) prev s = K prev s.
Proof.
  destruct s as [|c s]; simpl; [reflexivity|]. now rewrite andb_false_r.
Qed.

Lemma replace_at_start re repl prev rest s :
  exec re None s = Some (prev, rest) -> replace re repl s = repl ++ rest.
Proof.
  intros H. unfold replace. destruct s; simpl; now rewrite H.
Qed.

(** ** One step of the matcher *)

Lemma exec_rep cls n max k prev s :
  exec (Rep cls n max :: k) prev s = rep cls (exec k) n max prev s.
Proof. reflexivity. Qed.

Lemma exec_bnd_cons k prev s :
  exec (Bnd :: k) prev s =
  if Bool.eqb (word_at prev) (word_at (hd_error s)) then None
  else exec k prev s.
Proof. reflexivity. Qed.

(** ** What a match consumes *)

(** A repetition that succeeds has read some characters of the class, at
    least [n] of them, and its continuation succeeded there. *)
Lemma rep_sound cls K n max prev s r :
  rep cls K n max prev s = Some r ->
  exists xs s1,
    s = xs ++ s1 /\ all_in cls xs /\ n <= length xs
    /\ K (prev_after prev xs) s1 = Some r.
Proof.
  revert n max prev. induction s as [|c s IH]; intros n max prev H.
  - simpl in H. destruct n; [|discriminate].
    exists [], []. repeat split; [constructor|simpl; lia|exact H].
  - simpl in H.
    destruct (cls c && negb (max_reached max)) eqn:E.
    + destruct (rep cls K (pred n) (option_map pred max) (Some c) s) eqn:E1.
      * injection H as <-. apply IH in E1.
        destruct E1 as (xs & s1 & -> & Hxs & Hn & HK).
        apply andb_true_iff in E. destruct E as [Hc _].
        exists (c :: xs), s1. repeat split.
        -- now constructor.
        -- simpl. lia.
        -- exact HK.
      * destruct n; [|discriminate].
        exists [], (c :: s). repeat split; [constructor|simpl; lia|exact H].
    + destruct n; [|discriminate].
      exists [], (c :: s). repeat split; [constructor|simpl; lia|exact H].
Qed.

(** An unbounded repetition finds a match whenever its continuation can
    succeed after some admissible number of characters of the class. *)
Lemma rep_complete cls K n prev xs s1 :
  all_in cls xs -> n <= length xs ->
  K (prev_after prev xs) s1 <> None ->
  rep cls K n None prev (xs ++ s1) <> None.
Proof.
  intros Hxs. revert n prev.
  induction Hxs as [|x xs Hx _ IH]; intros n prev Hn HK.
  - simpl in Hn. assert (n = 0) as -> by lia. simpl app.
    destruct s1 as [|c s1]; simpl; [exact HK|].
    destruct (cls c); simpl; [|exact HK].
    destruct (rep cls K 0 None (Some c) s1); [discriminate|exact HK].
  - simpl app. simpl rep. rewrite Hx. simpl.
    specialize (IH (pred n) (Some x)).
    destruct (rep cls K (pred n) None (Some x) (xs ++ s1)); [discriminate|].
    exfalso. apply IH; [simpl in Hn; lia|exact HK|reflexivity].
Qed.

Lemma rep_total cls prev s :
  rep cls (fun p t => Some (p, t)) 0 None prev s <> None.
Proof.
  revert prev. induction s as [|c s IH]; intros prev; simpl; [discriminate|].
  destruct (cls c); simpl; [|discriminate].
  destruct (rep cls (fun p t => Some (p, t)) 0 None (Some c) s);
    discriminate.
Qed.

(** A repetition whose continuation takes whatever is left reads the whole
    run. *)
Lemma rep_greedy_end cls n prev s prev' rest :
  rep cls (fun p t => Some (p, t)) n None prev s = Some (prev', rest) ->
  stops cls rest.
Proof.
  revert n prev. induction s as [|c s IH]; intros n prev H.
  - simpl in H. destruct n; [|discriminate]. injection H as <- <-. exact I.
  - simpl in H. destruct (cls c) eqn:Hc; simpl in H.
    + destruct (rep cls (fun p t => Some (p, t)) (pred n) None (Some c) s)
        as [r|] eqn:E.
      * injection H as ->. now apply IH in E.
      * destruct n; [|discriminate]. now apply rep_total in E.
    + destruct n; [|discriminate]. injection H as <- <-. exact Hc.
Qed.

Lemma exec_lits_app (L : str) (k : regex) (prev : option ascii) (r : str) :
  exec (map Chr L ++ k) prev (L ++ r) = exec k (prev_after prev L) r.
Proof.
  revert prev. induction L as [|a L IH]; intros prev; [reflexivity|].
  simpl. rewrite Ascii.eqb_refl. apply IH.
Qed.

Lemma exec_lits_inv (L : str) (k : regex) (prev : option ascii) (s : str) res :
  exec (map Chr L ++ k) prev s = Some res ->
  exists r, s = L ++ r /\ exec k (prev_after prev L) r = Some res.
Proof.
  revert prev s. induction L as [|a L IH]; intros prev s H.
  - now exists s.
  - simpl in H. destruct s as [|c s]; [discriminate|].
    destruct (Ascii.eqb_spec a c) as [<-|]; [|discriminate].
    apply IH in H. destruct H as (r & -> & H). now exists r.
Qed.

(** The least number of characters a pattern consumes. *)
Fixpoint min_len (re : regex) : nat :=
  match re with
  | [] => 0
  | Chr _ :: k => S (min_len k)
  | Rep _ n _ :: k => n + min_len k
  | _ :: k => min_len k
  end.

(** A match consumes a prefix of the input; the state it ends in is the one
    after that prefix. *)
Lemma exec_consumes re prev s prev' rest :
  exec re prev s = Some (prev', rest) ->
  exists m, s = m ++ rest /\ prev' = prev_after prev m
            /\ min_len re <= length m.
Proof.
  revert prev s. induction re as [|a k IH]; intros prev s H.
  - injection H as <- <-. exists []. repeat split. simpl. lia.
  - destruct a as [| |c|cls n max].
    + simpl in H. destruct prev; [discriminate|]. now apply IH in H.
    + simpl in H.
      destruct (Bool.eqb (word_at prev) (word_at (hd_error s)));
        [discriminate|]. now apply IH in H.
    + simpl in H. destruct s as [|c' s]; [discriminate|].
      destruct (Ascii.eqb c c'); [|discriminate].
      apply IH in H. destruct H as (m & -> & -> & Hm).
      exists (c' :: m). repeat split. simpl. lia.
    + simpl in H. apply rep_sound in H.
      destruct H as (xs & s1 & -> & _ & Hn & H).
      apply IH in H. destruct H as (m & -> & -> & Hm).
      exists (xs ++ m). rewrite app_assoc, prev_after_app, length_app.
      repeat split. simpl. lia.
Qed.

Lemma exec_bnd prev s res :
  exec [Bnd] prev s = Some res ->
  res = (prev, s) /\ word_at prev <> word_at (hd_error s).
Proof.
  simpl. destruct (Bool.eqb (word_at prev) (word_at (hd_error s))) eqn:E;
    [discriminate|].
  intros [= <-]. split; [reflexivity|]. now apply eqb_false_iff.
Qed.

Lemma exec_bnd_ok prev s :
  word_at prev <> word_at (hd_error s) -> exec [Bnd] prev s = Some (prev, s).
Proof.
  intros H. simpl. apply eqb_false_iff in H. now rewrite H.
Qed.

(** ** Global replacement without fuel *)

Definition matches (re : regex) (prev : option ascii) (s : str) : bool :=
  match exec re prev s with Some _ => true | None => false end.

Lemma matches_true re prev s :
  matches re prev s = true <-> exec re prev s <> None.
Proof.
  unfold matches. destruct (exec re prev s); split; congruence.
Qed.

Lemma matches_false re prev s :
  matches re prev s = false <-> exec re prev s = None.
Proof.
  unfold matches. destruct (exec re prev s); split; congruence.
Qed.

Section Scanner.
Variables (re : regex) (repl : str).

(** The pattern never matches the empty string. *)
Hypothesis progress : 1 <= min_len re.

Lemma replace_from_fuel f1 f2 prev s :
  length s < f1 -> length s < f2 ->
  replace_from f1 re repl prev s = replace_from f2 re repl prev s.
Proof.
  revert f2 prev s. induction f1 as [|f1 IH]; intros f2 prev s H1 H2; [lia|].
  destruct f2 as [|f2]; [lia|]. simpl.
  destruct (exec re prev s) as [[prev' rest]|] eqn:E.
  - apply exec_consumes in E. destruct E as (m & -> & _ & Hm).
    rewrite length_app in *.
    destruct (Nat.ltb_spec (length rest) (length m + length rest)); [|lia].
    f_equal. apply IH; lia.
  - destruct s as [|c s]; [reflexivity|]. simpl. f_equal.
    simpl in H1, H2. apply IH; lia.
Qed.

Lemma replaceAll_nil : replaceAll re repl [] = [].
Proof.
  unfold replaceAll. simpl.
  destruct (exec re None []) as [[prev' rest]|] eqn:E; [|reflexivity].
  apply exec_consumes in E. destruct E as (m & Hm & _ & Hlen).
  destruct m; [simpl in Hlen; lia|discriminate].
Qed.

(** The scan from a position on, with all the fuel it needs. *)
Definition scan (prev : option ascii) (s : str) : str :=
  replace_from (S (length s)) re repl prev s.

Lemma scan_nil prev : scan prev [] = [].
Proof.
  unfold scan. simpl.
  destruct (exec re prev []) as [[prev' rest]|] eqn:E; [|reflexivity].
  apply exec_consumes in E. destruct E as (m & Hm & _ & Hlen).
  destruct m; [simpl in Hlen; lia|discriminate].
Qed.

Lemma scan_copy prev c s :
  exec re prev (c :: s) = None -> scan prev (c :: s) = c :: scan (Some c) s.
Proof.
  intros H. unfold scan. simpl replace_from at 1. rewrite H. simpl.
  reflexivity.
Qed.

Lemma scan_match prev s prev' rest :
  exec re prev s = Some (prev', rest) ->
  scan prev s = repl ++ scan prev' rest /\ length rest < length s.
Proof.
  intros H. unfold scan. simpl replace_from at 1. rewrite H.
  apply exec_consumes in H. destruct H as (m & -> & _ & Hm).
  rewrite length_app.
  destruct (Nat.ltb_spec (length rest) (length m + length rest)); [|lia].
  split; [|lia]. f_equal. apply replace_from_fuel; rewrite ?length_app; lia.
Qed.

Lemma replaceAll_scan s : replaceAll re repl s = scan None s.
Proof. reflexivity. Qed.

(** The three ways a scan goes on. *)
Lemma scan_cases prev s :
  (s = [] /\ scan prev s = [])
  \/ (exists c s', s = c :: s' /\ exec re prev s = None
                   /\ scan prev s = c :: scan (Some c) s')
  \/ (exists prev' rest, exec re prev s = Some (prev', rest)
                         /\ scan prev s = repl ++ scan prev' rest
                         /\ length rest < length s).
Proof.
  destruct (exec re prev s) as [[prev' rest]|] eqn:E.
  - right. right. exists prev', rest. split; [reflexivity|].
    now apply scan_match.
  - destruct s as [|c s'].
    + left. split; [reflexivity|apply scan_nil].
    + right. left. exists c, s'.
      split; [reflexivity|]. split; [reflexivity|now apply scan_copy].
Qed.

(** The replacement text starts with [r0]. *)
Variables (r0 : ascii) (repl' : str).
Hypothesis repl_starts : repl = r0 :: repl'.

(** A first character of the result other than [r0] was copied. *)
Lemma scan_head prev s x o :
  scan prev s = x :: o ->
  (exists s', s = x :: s' /\ exec re prev s = None /\ o = scan (Some x) s')
  \/ (x = r0 /\ matches re prev s = true).
Proof.
  intros H.
  destruct (scan_cases prev s) as [[_ E]|[(c & s' & -> & En & E)|
                                   (prev' & rest & Em & E & _)]];
    rewrite E in H.
  - discriminate.
  - injection H as Hx Ho. subst x o. left. now exists s'.
  - rewrite repl_starts in H. injection H as <- _. right.
    split; [reflexivity|]. unfold matches. now rewrite Em.
Qed.

(** A prefix of the result without [r0] was copied. *)
Lemma scan_copied u prev s o :
  ~ In r0 u -> scan prev s = u ++ o ->
  exists s', s = u ++ s' /\ o = scan (prev_after prev u) s'.
Proof.
  revert prev s. induction u as [|x u IH]; intros prev s Hu H.
  - now exists s.
  - simpl in H. apply scan_head in H.
    destruct H as [(s' & -> & _ & H)|[-> _]].
    + symmetry in H. apply IH in H; [|intros Hin; apply Hu; now right].
      destruct H as (s'' & -> & ->). now exists s''.
    + exfalso. apply Hu. now left.
Qed.

Lemma scan_not_nil prev c s : scan prev (c :: s) <> [].
Proof.
  destruct (scan_cases prev (c :: s)) as [[E _]|[(c' & s' & _ & _ & E)|
                                          (prev' & rest & _ & E & _)]];
    [discriminate| |]; rewrite E; [discriminate|].
  rewrite repl_starts. discriminate.
Qed.

End Scanner.

(** ** One replacement pass and the matches of a pattern *)

(** [clean_from re' prev t]: the pattern [re'] matches at no position of
    [t], the text before [t] ending in [prev]. *)
Definition clean_from (re' : regex) (prev : option ascii) (t : str) : Prop :=
  forall pre suf, t = pre ++ suf ->
    matches re' (prev_after prev pre) suf = false.

Lemma clean_from_cons re' prev c t :
  matches re' prev (c :: t) = false ->
  clean_from re' (Some c) t ->
  clean_from re' prev (c :: t).
Proof.
  intros H0 Ht pre suf E. destruct pre as [|x pre].
  - simpl in E. subst suf. exact H0.
  - injection E as <- E. rewrite prev_after_cons. now apply Ht.
Qed.

Lemma clean_from_nil re' prev :
  matches re' prev [] = false -> clean_from re' prev [].
Proof.
  intros H pre suf E. symmetry in E. apply app_eq_nil in E.
  destruct E as [-> ->]. exact H.
Qed.

Lemma clean_from_app re' prev a t :
  (forall pre suf, a = pre ++ suf -> suf <> [] ->
     matches re' (prev_after prev pre) (suf ++ t) = false) ->
  clean_from re' (prev_after prev a) t ->
  clean_from re' prev (a ++ t).
Proof.
  intros Ha Ht pre suf E.
  apply app_eq_app in E. destruct E as (l & [[-> ->]|[-> ->]]).
  - destruct l as [|x l].
    + rewrite app_nil_r in Ht. simpl. now apply (Ht [] t).
    + apply Ha; [reflexivity|discriminate].
  - rewrite prev_after_app. now apply Ht.
Qed.

Lemma clean_from_suffix re' prev m t :
  clean_from re' prev (m ++ t) -> clean_from re' (prev_after prev m) t.
Proof.
  intros H pre suf ->. rewrite <- prev_after_app. apply H.
  now rewrite app_assoc.
Qed.

Section Pass.
Variables (re' re : regex) (repl : str).

Hypothesis progress : 1 <= min_len re.

(** [re'] looks at the character before the match only to tell whether it
    is a word character; both patterns start with a word character. *)
Hypothesis prev_only_word :
  forall p q s, word_at p = word_at q -> matches re' p s = matches re' q s.
Hypothesis starts_word' :
  forall p s, matches re' p s = true -> word_at (hd_error s) = true.
Hypothesis starts_word :
  forall p s, matches re p s = true -> word_at (hd_error s) = true.

(** A match of [re] ends next to a non-word position. *)
Hypothesis match_end :
  forall p s p' rest, exec re p s = Some (p', rest) ->
    word_at p' = false \/ word_at (hd_error rest) = false.

(** [re'] matches nowhere in the replacement text, whatever follows it,
    and the replacement text ends with a non-word character. *)
Hypothesis repl_clean :
  forall p t pre suf, repl = pre ++ suf -> suf <> [] ->
    matches re' (prev_after p pre) (suf ++ t) = false.
Hypothesis repl_end : forall p, word_at (prev_after p repl) = false.

(** Where [re] does not match, a match of [re'] in the result of the scan
    was a match in the input already. *)
Hypothesis transfer :
  forall p c s, matches re p (c :: s) = false ->
    matches re' p (c :: scan re repl (Some c) s) = true ->
    matches re' p (c :: s) = true.

(** In the input, [re'] matches only where [re] matches. *)
Definition covered (p : option ascii) (s : str) : Prop :=
  forall pre suf, s = pre ++ suf ->
    matches re (prev_after p pre) suf = false ->
    matches re' (prev_after p pre) suf = false.

Lemma covered_suffix p m s : covered p (m ++ s) -> covered (prev_after p m) s.
Proof.
  intros H pre suf ->. rewrite <- prev_after_app. apply H.
  now rewrite app_assoc.
Qed.

Lemma no_match_nil p : matches re' p [] = false.
Proof.
  destruct (matches re' p []) eqn:E; [|reflexivity].
  now apply starts_word' in E.
Qed.

Lemma pass_clean_from n :
  forall s pin pout, length s < n ->
    word_at pout = word_at pin
    \/ (word_at pout = false /\ word_at (hd_error s) = false) ->
    covered pin s ->
    clean_from re' pout (scan re repl pin s).
Proof.
  induction n as [|n IH]; intros s pin pout Hn Hcompat Hcov; [lia|].
  destruct (@scan_cases re repl progress pin s)
    as [[-> E]|[(c & s' & -> & En & E)|(p' & rest & Em & E & Hlen)]];
    rewrite E.
  - apply clean_from_nil, no_match_nil.
  - apply clean_from_cons.
    + destruct (matches re' pout (c :: scan re repl (Some c) s')) eqn:E';
        [|reflexivity].
      destruct Hcompat as [Hw|[_ Hc]].
      * rewrite (prev_only_word pout pin _ Hw) in E'.
        apply transfer in E'; [|now apply matches_false].
        assert (Hno : matches re' pin (c :: s') = false).
        { apply (Hcov [] (c :: s') eq_refl). now apply matches_false. }
        congruence.
      * apply starts_word' in E'. simpl in E', Hc. congruence.
    + apply IH; [simpl in Hn; lia|now left|].
      apply (@covered_suffix pin [c] s'). exact Hcov.
  - assert (Hm : matches re pin s = true).
    { unfold matches. now rewrite Em. }
    destruct Hcompat as [Hw|[_ Hc]];
      [|apply starts_word in Hm; congruence].
    pose proof (@match_end _ _ _ _ Em) as Hend.
    apply exec_consumes in Em. destruct Em as (m & -> & -> & _).
    apply clean_from_app.
    + intros pre suf. apply repl_clean.
    + apply IH; [lia| |now apply covered_suffix].
      destruct Hend as [H|H]; [left|right].
      * now rewrite repl_end.
      * split; [apply repl_end|exact H].
Qed.

(** After the pass, [re'] matches nowhere. *)
Lemma pass_clean s :
  covered None s -> clean_from re' None (replaceAll re repl s).
Proof.
  intros H. rewrite replaceAll_scan.
  apply (@pass_clean_from (S (length s))); [lia|now left|exact H].
Qed.

End Pass.

End RegexFacts.

(* ------------------------------------------------------------------ *)
(** * Numbered lines *)

Module MarkdownFacts.
Import Js JsFacts Regex RegexFacts Markdown.

Lemma digits_of_uint (d : Decimal.uint) :
  all_in is_digit (list_ascii_of_string (NilEmpty.string_of_uint d)).
Proof.
  induction d; simpl; constructor; try reflexivity; assumption.
Qed.

(** [String(n)] of a natural number: one digit at least, digits only. *)
Lemma String_digits (n : nat) :
  all_in is_digit (String_ (Z.of_nat n)) /\ 1 <= length (String_ (Z.of_nat n)).
Proof.
  unfold String_.
  assert (H : exists d, Z.to_int (Z.of_nat n) = Decimal.Pos d).
  { destruct (Z.of_nat n) eqn:E; simpl; eauto. lia. }
  destruct H as [d ->]. simpl NilZero.string_of_int.
  unfold NilZero.string_of_uint.
  destruct d; try (split; [apply digits_of_uint|simpl; lia]).
  split; [repeat constructor|simpl; lia].
Qed.

(** The width of [String(n)] grows with [n]. *)

Lemma nb_digits_succ (d : Decimal.uint) :
  Decimal.nb_digits d <= Decimal.nb_digits (Decimal.Little.succ d).
Proof. induction d; simpl; lia. Qed.

Lemma to_lu_mono (n m : N) :
  (n <= m)%N ->
  Decimal.nb_digits (Unsigned.to_lu n) <= Decimal.nb_digits (Unsigned.to_lu m).
Proof.
  intros H. replace m with (n + (m - n))%N by lia.
  generalize (m - n)%N as k. clear. intros k.
  induction k using N.peano_ind.
  - now rewrite N.add_0_r.
  - rewrite N.add_succ_r, Unsigned.to_lu_succ.
    etransitivity; [exact IHk|apply nb_digits_succ].
Qed.

Lemma length_string_of_uint (d : Decimal.uint) :
  String.length (NilEmpty.string_of_uint d) = Decimal.nb_digits d.
Proof. induction d; simpl; congruence. Qed.

Lemma length_list_ascii (s : string) :
  length (list_ascii_of_string s) = String.length s.
Proof. induction s; simpl; congruence. Qed.

Lemma length_String_pos (p : positive) :
  length (String_ (Z.pos p)) = Decimal.nb_digits (Unsigned.to_lu (Npos p)).
Proof.
  unfold String_. simpl Z.to_int. simpl NilZero.string_of_int.
  unfold NilZero.string_of_uint.
  pose proof (Unsigned.to_uint_nonnil p) as Hn.
  destruct (Pos.to_uint p) eqn:E; try contradiction;
    rewrite <- E, length_list_ascii, length_string_of_uint;
    unfold Pos.to_uint; now rewrite nb_digits_rev.
Qed.

Lemma length_String_mono (a b : nat) :
  1 <= a <= b ->
  length (String_ (Z.of_nat a)) <= length (String_ (Z.of_nat b)).
Proof.
  intros [Ha Hab].
  destruct (Z.of_nat a) as [|p|p] eqn:Ea; try lia.
  destruct (Z.of_nat b) as [|q|q] eqn:Eb; try lia.
  rewrite !length_String_pos. apply to_lu_mono. lia.
Qed.

Lemma all_in_no_LF cls (xs : str) :
  cls LF = false -> all_in cls xs -> no_LF xs.
Proof.
  intros HLF Hxs Hin. unfold all_in in Hxs. rewrite Forall_forall in Hxs.
  apply Hxs in Hin. congruence.
Qed.

Lemma spaces_all_space (k : nat) : all_in is_space (repeat " "%char k).
Proof.
  induction k; simpl; constructor; [reflexivity|assumption].
Qed.

Lemma spaces_no_LF (k : nat) : no_LF (repeat " "%char k).
Proof.
  intros H. apply repeat_spec in H. discriminate.
Qed.

Lemma no_LF_app (a b : str) : no_LF a -> no_LF b -> no_LF (a ++ b).
Proof.
  intros Ha Hb H. apply in_app_or in H. destruct H; [now apply Ha|now apply Hb].
Qed.

Lemma digit_not_space (c : ascii) : is_digit c = true -> is_space c = false.
Proof.
  destruct c as [[] [] [] [] [] [] [] []]; vm_compute; congruence.
Qed.

(** A numbered line has no line break when the line has none. *)
Lemma number_line_no_LF (w i : nat) (line : str) :
  no_LF line -> no_LF (number_line w line i).
Proof.
  intros Hl. unfold number_line, padStart.
  repeat apply no_LF_app; try assumption.
  - apply spaces_no_LF.
  - apply all_in_no_LF with (cls := is_digit);
      [reflexivity|apply String_digits].
  - intros [H|[H|[]]]; discriminate.
Qed.

(** The pattern of [stripLineNumbers] reads the padding, the digits, the
    colon and the one space that [addLineNumbers] wrote, and nothing of the
    line behind them. *)
Lemma exec_line_number (w i : nat) (line : str) :
  exec re_line_number None (number_line w line i)
  = Some (Some " "%char, line).
Proof.
  unfold number_line, padStart, re_line_number.
  destruct (String_digits (i + 1)) as [Hd Hlen].
  set (ds := String_ (Z.of_nat (i + 1))) in *.
  set (pad := repeat " "%char (w - length ds)).
  assert (Hnext : stops is_space (ds ++ lit ": " ++ line)).
  { destruct ds as [|d ds']; [simpl in Hlen; lia|].
    simpl. apply digit_not_space. now inversion Hd. }
  rewrite <- app_assoc.
  cbn [exec].
  apply rep_run with (xs := pad); [apply spaces_all_space|lia| |exact Hnext].
  cbn [exec].
  apply rep_run with (xs := ds); [exact Hd|exact Hlen| |reflexivity].
  cbn [exec lit list_ascii_of_string app]. rewrite Ascii.eqb_refl.
  cbn [exec rep]. change (is_space " ") with true. cbn [andb negb max_reached].
  cbn [pred option_map]. now rewrite rep_max0.
Qed.

Lemma strip_number_line (w i : nat) (line : str) :
  replace re_line_number [] (number_line w line i) = line.
Proof.
  now rewrite (@replace_at_start _ [] _ _ _ (exec_line_number w i line)).
Qed.

Lemma mapi_no_LF (w : nat) (ls : list str) (i : nat) :
  Forall no_LF ls -> Forall no_LF (mapi_from (number_line w) i ls).
Proof.
  intros H. revert i. induction H as [|l ls Hl _ IH]; intros i; simpl.
  - constructor.
  - constructor; [now apply number_line_no_LF|apply IH].
Qed.

Lemma mapi_not_nil {A B} (f : A -> nat -> B) (i : nat) (l : list A) :
  l <> [] -> mapi_from f i l <> [].
Proof. destruct l; [contradiction|discriminate]. Qed.

Lemma mapi_from_ext {A B} (f g : A -> nat -> B) (i : nat) (l : list A) :
  (forall x j, f x j = g x j) -> mapi_from f i l = mapi_from g i l.
Proof.
  intros H. revert i. induction l as [|x l IH]; intros i; simpl;
    [reflexivity|]. now rewrite H, IH.
Qed.

Lemma length_mapi_from {A B} (f : A -> nat -> B) (k : nat) (l : list A) :
  length (mapi_from f k l) = length l.
Proof.
  revert k. induction l as [|x l IH]; intros k; simpl; [reflexivity|].
  now rewrite IH.
Qed.

Lemma nth_mapi_from {A B} (f : A -> nat -> B) (l : list A) (dB : B) (dA : A) :
  forall k i, i < length l ->
    nth i (mapi_from f k l) dB = f (nth i l dA) (k + i).
Proof.
  induction l as [|x l IH]; intros k i Hi; simpl in Hi; [lia|].
  destruct i as [|i]; simpl.
  - now rewrite Nat.add_0_r.
  - rewrite IH by lia. f_equal. lia.
Qed.

Lemma strip_mapi (w : nat) (ls : list str) (i : nat) :
  map (replace re_line_number []) (mapi_from (number_line w) i ls) = ls.
Proof.
  revert i. induction ls as [|l ls IH]; intros i; simpl; [reflexivity|].
  now rewrite strip_number_line, IH.
Qed.

(** The lines of the numbered text are the numbered lines of the text. *)
Lemma split_addLineNumbers (text : str) :
  split (addLineNumbers text) =
  mapi_from (number_line (length (String_ (Z.of_nat (length (split text))))))
    0 (split text).
Proof.
  unfold addLineNumbers. apply split_join.
  - apply mapi_not_nil, split_not_nil.
  - apply mapi_no_LF, split_no_LF.
Qed.

(** Stripping undoes numbering, on every text. *)
Lemma strip_add (text : str) : stripLineNumbers (addLineNumbers text) = text.
Proof.
  unfold stripLineNumbers. rewrite split_addLineNumbers, strip_mapi.
  apply join_split.
Qed.

(** A line that begins with optional whitespace, digits and a colon:
    /^\s*\d+:/ *)
Definition re_numbered : regex :=
  [Start; Rep is_space 0 None; Rep is_digit 1 None; Chr ":"].

Definition looks_numbered (line : str) : bool :=
  match exec re_numbered None line with Some _ => true | None => false end.

(** C7. For a non-empty text none of whose lines begins with optional
    whitespace, digits and a colon, stripLineNumbers (addLineNumbers text)
    is the text.  The numbered text has the same number of lines; its line
    i is the index i (from 1), padded on the left with spaces to the width
    of the number of lines, then ": ", then line i of the text. *)
Theorem strip_add_line_numbers (text : str) :
  text <> [] ->
  Forall (fun line => looks_numbered line = false) (split text) ->
  stripLineNumbers (addLineNumbers text) = text
  /\ length (split (addLineNumbers text)) = length (split text)
  /\ forall i, i < length (split text) ->
       let index := String_ (Z.of_nat (i + 1)) in
       let width := length (String_ (Z.of_nat (length (split text)))) in
       let pad := repeat " "%char (width - length index) in
       nth i (split (addLineNumbers text)) []
       = pad ++ index ++ lit ": " ++ nth i (split text) []
       /\ length (pad ++ index) = width.
Proof.
  intros _ _. split; [apply strip_add|].
  rewrite split_addLineNumbers. split; [apply length_mapi_from|].
  intros i Hi index width pad. split.
  - etransitivity; [apply (@nth_mapi_from _ _ _ _ [] [] 0 i Hi)|].
    unfold number_line, padStart. now rewrite <- app_assoc.
  - subst pad. rewrite length_app, repeat_length.
    assert (length index <= width); [|lia].
    apply length_String_mono. lia.
Qed.

Lemma strip_add_line_numbers_witness :
  stripLineNumbers (addLineNumbers (lit "# Title

body: text")) = lit "# Title

body: text".
Proof.
  apply (@strip_add_line_numbers (lit "# Title

body: text")).
  - discriminate.
  - vm_compute. repeat constructor.
Defined.

End MarkdownFacts.

(* ------------------------------------------------------------------ *)
(** * Redaction of secrets *)

Module SanitizeFacts.
Import Js Regex RegexFacts Errors.

(** ** Character classes *)

Ltac by_cases_on c :=
  destruct c as [[] [] [] [] [] [] [] []]; vm_compute; congruence.

Lemma word_is_tok c : is_word c = true -> is_tok c = true.
Proof. by_cases_on c. Qed.

Lemma hex_is_word c : is_hex c = true -> is_word c = true.
Proof. by_cases_on c. Qed.

Lemma space_not_tok c : is_space c = true -> is_tok c = false.
Proof. by_cases_on c. Qed.

Lemma tok_not_word c : is_tok c = true -> is_word c = false -> c = "-"%char.
Proof. by_cases_on c. Qed.

Lemma all_in_impl (cls cls' : ascii -> bool) (xs : str) :
  (forall c, cls c = true -> cls' c = true) -> all_in cls xs -> all_in cls' xs.
Proof. intros H. apply Forall_impl. exact H. Qed.

Lemma all_in_app cls (xs ys : str) :
  all_in cls (xs ++ ys) <-> all_in cls xs /\ all_in cls ys.
Proof. apply Forall_app. Qed.

(** The longest run of a class at the head of a string. *)
Lemma run_split cls (s : str) :
  exists run rest, s = run ++ rest /\ all_in cls run /\ stops cls rest.
Proof.
  induction s as [|c s (run & rest & -> & Hrun & Hrest)].
  - exists [], []. repeat split. constructor.
  - destruct (cls c) eqn:Hc.
    + exists (c :: run), rest. repeat split; [now constructor|exact Hrest].
    + exists [], (c :: run ++ rest). repeat split; [constructor|exact Hc].
Qed.

Lemma prev_after_last prev (xs : str) (x : ascii) :
  prev_after prev (xs ++ [x]) = Some x.
Proof. now rewrite prev_after_app. Qed.

Lemma stops_word_at (s : str) : stops is_word s -> word_at (hd_error s) = false.
Proof. destruct s; [reflexivity|exact (fun H => H)]. Qed.

(** ** The three kinds of pattern, in closed form *)

(** /\bL[A-Za-z0-9_-]+\b/ for a literal [L] *)
Definition token_pattern (L : str) : regex :=
  Bnd :: map Chr L ++ [Rep is_tok 1 None; Bnd].

Definition has_word (w : str) : Prop := Exists (fun c => is_word c = true) w.

Section Token.
Variables (l0 : ascii) (L' : str).
Let L : str := l0 :: L'.
Hypothesis l0_word : is_word l0 = true.

(** A token pattern matches where a word starts with the literal and goes
    on with token characters, one of them at least a word character. *)
Lemma token_match_iff prev s :
  matches (token_pattern L) prev s = true <->
  word_at prev = false
  /\ exists w rest, s = L ++ w ++ rest /\ all_in is_tok w /\ has_word w.
Proof.
  rewrite matches_true. split.
  - intros H. destruct (exec (token_pattern L) prev s) as [res|] eqn:E;
      [clear H|congruence].
    unfold token_pattern in E. rewrite exec_bnd_cons in E.
    destruct (Bool.eqb (word_at prev) (word_at (hd_error s))) eqn:Eb;
      [discriminate|].
    apply exec_lits_inv in E. destruct E as (r & -> & E).
    rewrite exec_rep in E. apply rep_sound in E.
    destruct E as (xs & s1 & -> & Hxs & Hlen & E).
    apply exec_bnd in E. destruct E as [_ Hb].
    split.
    { apply eqb_false_iff in Eb. simpl in Eb. rewrite l0_word in Eb.
      now destruct (word_at prev). }
    destruct (exists_last (l := xs)) as (xs' & x & ->).
    { intros ->. simpl in Hlen. lia. }
    rewrite prev_after_last in Hb. simpl word_at in Hb.
    destruct (is_word x) eqn:Hx.
    + exists (xs' ++ [x]), s1. repeat split; [exact Hxs|].
      apply Exists_app. right. now constructor.
    + destruct s1 as [|y s2]; [now elim Hb|]. simpl in Hb.
      destruct (is_word y) eqn:Hy; [|now elim Hb].
      exists ((xs' ++ [x]) ++ [y]), s2. split; [|split].
      * now rewrite <- !app_assoc.
      * apply all_in_app. split; [exact Hxs|].
        constructor; [now apply word_is_tok|constructor].
      * apply Exists_app. right. now constructor.
  - intros (Hp & w & rest & -> & Hw & Hex).
    apply Exists_exists in Hex. destruct Hex as (y & Hin & Hy).
    apply in_split in Hin. destruct Hin as (w1 & w2 & ->).
    destruct (run_split is_word (w2 ++ rest)) as (wr & after & E & Hwr & Hafter).
    unfold token_pattern. rewrite exec_bnd_cons.
    replace (Bool.eqb (word_at prev) (word_at (hd_error (L ++ (w1 ++ y :: w2) ++ rest))))
      with false by (simpl; now rewrite Hp, l0_word).
    rewrite exec_lits_app, exec_rep.
    replace ((w1 ++ y :: w2) ++ rest) with ((w1 ++ y :: wr) ++ after)
      by (rewrite <- !app_assoc; simpl; now rewrite E).
    apply all_in_app in Hw. destruct Hw as [Hw1 _].
    apply rep_complete.
    + apply all_in_app. split; [exact Hw1|].
      constructor; [now apply word_is_tok|].
      now apply all_in_impl with (cls := is_word); [apply word_is_tok|].
    + rewrite length_app. simpl. lia.
    + rewrite exec_bnd_ok; [discriminate|].
      rewrite (stops_word_at after Hafter).
      destruct (exists_last (l := y :: wr)) as (xs' & x & Ex); [discriminate|].
      assert (Hx : is_word x = true).
      { assert (Hall : all_in is_word (y :: wr)) by now constructor.
        rewrite Ex in Hall. apply all_in_app in Hall.
        destruct Hall as [_ Hall]. now inversion Hall. }
      replace (w1 ++ y :: wr) with ((w1 ++ xs') ++ [x])
        by (rewrite <- app_assoc; now rewrite <- Ex).
      rewrite prev_after_last. simpl. now rewrite Hx.
Qed.

Lemma token_prev_only_word p q s :
  word_at p = word_at q ->
  matches (token_pattern L) p s = matches (token_pattern L) q s.
Proof.
  intros H. apply eq_true_iff_eq. rewrite !token_match_iff. now rewrite H.
Qed.

Lemma token_head p s :
  matches (token_pattern L) p s = true -> exists s', s = l0 :: s'.
Proof.
  intros H. apply token_match_iff in H.
  destruct H as (_ & w & rest & -> & _). now eexists.
Qed.

Lemma token_starts_word p s :
  matches (token_pattern L) p s = true -> word_at (hd_error s) = true.
Proof.
  intros H. apply token_head in H. destruct H as [s' ->]. exact l0_word.
Qed.

Lemma token_match_end p s p' rest :
  exec (token_pattern L) p s = Some (p', rest) ->
  word_at p' = false \/ word_at (hd_error rest) = false.
Proof.
  intros E. unfold token_pattern in E. rewrite exec_bnd_cons in E.
  destruct (Bool.eqb (word_at p) (word_at (hd_error s))); [discriminate|].
  apply exec_lits_inv in E. destruct E as (r & -> & E).
  rewrite exec_rep in E. apply rep_sound in E.
  destruct E as (xs & s1 & -> & _ & _ & E).
  apply exec_bnd in E. destruct E as [[= -> ->] Hb].
  destruct (word_at (hd_error s1)); [left|now right].
  apply not_true_is_false. exact Hb.
Qed.

Lemma token_progress : 1 <= min_len (token_pattern L).
Proof. simpl. lia. Qed.

(** *** A token pattern after a replacement pass *)

Variables (re : regex) (repl : str).
Hypothesis progress : 1 <= min_len re.

(** The literal consists of token characters.  The replacement text starts
    with the token characters [t0], then has another character; matches of
    [re] start with [t0] too. *)
Hypothesis L_tok : all_in is_tok L'.
Variables (t0 : str) (x0 : ascii) (rest0 : str).
Hypothesis repl_shape : repl = t0 ++ x0 :: rest0.
Hypothesis x0_not_tok : is_tok x0 = false.
Hypothesis match_starts :
  forall p s, matches re p s = true -> exists s', s = t0 ++ s'.

Lemma tok_prefix (t r w o : str) :
  t ++ x0 :: r = w ++ o -> all_in is_tok w -> exists t1, t = w ++ t1.
Proof.
  revert t. induction w as [|a w IH]; intros t E Hw.
  - now exists t.
  - inversion Hw as [|? ? Ha Hw']; subst. destruct t as [|b t].
    + injection E as -> _. congruence.
    + injection E as -> E. apply IH in E; [|exact Hw'].
      destruct E as [t1 ->]. now exists t1.
Qed.

(** A prefix of token characters of the result is a prefix of the input. *)
Lemma tok_prefix_scan n :
  forall s p w o, length s < n ->
    scan re repl p s = w ++ o -> all_in is_tok w -> exists s', s = w ++ s'.
Proof.
  induction n as [|n IH]; intros s p w o Hn E Hw; [lia|].
  destruct (@scan_cases re repl progress p s)
    as [[-> E']|[(c & s' & -> & _ & E')|(p' & rest & Em & E' & Hlen)]];
    rewrite E' in E.
  - destruct w; [now exists []|discriminate].
  - destruct w as [|a w]; [now eexists|].
    injection E as <- E. inversion Hw; subst.
    apply IH in E; [|simpl in Hn; lia|assumption].
    destruct E as [s'' ->]. now exists s''.
  - rewrite repl_shape, <- app_assoc in E. simpl in E.
    apply tok_prefix in E; [|exact Hw]. destruct E as [t1 ->].
    destruct (match_starts p s) as [s' ->].
    { unfold matches. now rewrite Em. }
    exists (t1 ++ s'). now rewrite app_assoc.
Qed.

Lemma token_transfer p c s :
  matches (token_pattern L) p (c :: scan re repl (Some c) s) = true ->
  matches (token_pattern L) p (c :: s) = true.
Proof.
  intros H. apply token_match_iff in H.
  destruct H as (Hp & w & rest & E & Hw & Hex).
  apply token_match_iff. split; [exact Hp|].
  injection E as -> E. rewrite app_assoc in E.
  apply (@tok_prefix_scan (S (length s))) in E; [|lia|].
  - destruct E as [s' ->]. exists w, s'.
    split; [now rewrite <- app_assoc|]. now split.
  - apply all_in_app. now split.
Qed.

(** After the pass the token pattern matches nowhere, if before the pass it
    matched only where [re] matched. *)
Lemma token_pass s :
  (forall p s, matches re p s = true -> word_at (hd_error s) = true) ->
  (forall p s p' rest, exec re p s = Some (p', rest) ->
     word_at p' = false \/ word_at (hd_error rest) = false) ->
  (forall p t pre suf, repl = pre ++ suf -> suf <> [] ->
     matches (token_pattern L) (prev_after p pre) (suf ++ t) = false) ->
  (forall p, word_at (prev_after p repl) = false) ->
  covered (token_pattern L) re None s ->
  clean_from (token_pattern L) None (replaceAll re repl s).
Proof.
  intros Hstart Hend Hrepl Hrend Hcov.
  apply pass_clean; try assumption.
  - exact token_prev_only_word.
  - exact token_starts_word.
  - intros p c s0 _. apply token_transfer.
Qed.

End Token.

(** A run of 40 hexadecimal digits or more between two non-word
    positions. *)
Lemma hex_match_iff prev s :
  matches re_hex prev s = true <->
  word_at prev = false
  /\ exists h rest, s = h ++ rest /\ all_in is_hex h /\ 40 <= length h
                    /\ word_at (hd_error rest) = false.
Proof.
  rewrite matches_true. split.
  - intros H. destruct (exec re_hex prev s) as [res|] eqn:E;
      [clear H|congruence].
    unfold re_hex in E. rewrite exec_bnd_cons in E.
    destruct (Bool.eqb (word_at prev) (word_at (hd_error s))) eqn:Eb;
      [discriminate|].
    rewrite exec_rep in E. apply rep_sound in E. destruct E as (xs & s1 & -> & Hxs & Hlen & E).
    apply exec_bnd in E. destruct E as [_ Hb].
    destruct xs as [|x0 xs0] eqn:Exs; [simpl in Hlen; lia|].
    assert (Hx0 : is_word x0 = true) by (apply hex_is_word; now inversion Hxs).
    split.
    { apply eqb_false_iff in Eb. simpl in Eb. rewrite Hx0 in Eb.
      now destruct (word_at prev). }
    exists (x0 :: xs0), s1. repeat split; try assumption.
    destruct (exists_last (l := x0 :: xs0)) as (xs' & x & Ex); [discriminate|].
    rewrite Ex in Hb, Hxs. rewrite prev_after_last in Hb.
    apply all_in_app in Hxs. destruct Hxs as [_ Hx]. inversion Hx; subst.
    simpl in Hb. rewrite hex_is_word in Hb by assumption.
    now destruct (word_at (hd_error s1)).
  - intros (Hp & h & rest & -> & Hh & Hlen & Hrest).
    destruct h as [|x0 h0] eqn:Eh; [simpl in Hlen; lia|].
    assert (Hx0 : is_word x0 = true) by (apply hex_is_word; now inversion Hh).
    unfold re_hex. rewrite exec_bnd_cons.
    replace (Bool.eqb (word_at prev) (word_at (hd_error ((x0 :: h0) ++ rest))))
      with false by (simpl; now rewrite Hp, Hx0).
    rewrite exec_rep. apply rep_complete; [exact Hh|exact Hlen|].
    rewrite exec_bnd_ok; [discriminate|].
    destruct (exists_last (l := x0 :: h0)) as (xs' & x & Ex); [discriminate|].
    rewrite Ex in Hh |- *. rewrite prev_after_last.
    apply all_in_app in Hh. destruct Hh as [_ Hx]. inversion Hx; subst.
    simpl. rewrite hex_is_word by assumption. now rewrite Hrest.
Qed.

Definition Bearer : str := lit "Bearer".

(** "Bearer", whitespace, and a token character. *)
Lemma bearer_match_iff prev s :
  matches re_bearer prev s = true <->
  exists ws x rest,
    s = Bearer ++ ws ++ x :: rest /\ ws <> [] /\ all_in is_space ws
    /\ is_tok x = true.
Proof.
  rewrite matches_true. split.
  - intros H. destruct (exec re_bearer prev s) as [res|] eqn:E;
      [clear H|congruence].
    unfold re_bearer, lits in E.
    apply exec_lits_inv in E. destruct E as (r & -> & E).
    rewrite exec_rep in E. apply rep_sound in E.
    destruct E as (ws & s1 & -> & Hws & Hlen & E).
    rewrite exec_rep in E. apply rep_sound in E. destruct E as (xs & s2 & -> & Hxs & Hlen2 & _).
    destruct xs as [|x xs]; [simpl in Hlen2; lia|].
    exists ws, x, (xs ++ s2). repeat split.
    + intros ->. simpl in Hlen. lia.
    + exact Hws.
    + now inversion Hxs.
  - intros (ws & x & rest & -> & Hne & Hws & Hx).
    unfold re_bearer, lits. fold (lit "Bearer"). fold Bearer.
    rewrite exec_lits_app, exec_rep.
    apply rep_complete; [exact Hws|destruct ws; [contradiction|simpl; lia]|].
    rewrite exec_rep.
    apply (@rep_complete is_tok (exec []) 1
             (prev_after (prev_after prev Bearer) ws) [x] rest).
    + now repeat constructor.
    + simpl. lia.
    + discriminate.
Qed.

Lemma prev_after_in_class cls prev (c : ascii) (xs : str) :
  all_in cls (c :: xs) ->
  exists x, prev_after prev (c :: xs) = Some x /\ cls x = true.
Proof.
  intros H.
  destruct (exists_last (l := c :: xs)) as (xs' & x & E); [discriminate|].
  rewrite E in *. apply all_in_app in H. destruct H as [_ H].
  exists x. split; [apply prev_after_last|now inversion H].
Qed.

(** *** The hexadecimal pattern *)

Lemma hex_prev_only_word p q s :
  word_at p = word_at q -> matches re_hex p s = matches re_hex q s.
Proof.
  intros H. apply eq_true_iff_eq. rewrite !hex_match_iff. now rewrite H.
Qed.

Lemma hex_starts_word p s :
  matches re_hex p s = true -> word_at (hd_error s) = true.
Proof.
  intros H. apply hex_match_iff in H.
  destruct H as (_ & h & rest & -> & Hh & Hlen & _).
  destruct h as [|x h]; [simpl in Hlen; lia|].
  simpl. apply hex_is_word. now inversion Hh.
Qed.

Lemma hex_match_end p s p' rest :
  exec re_hex p s = Some (p', rest) ->
  word_at p' = false \/ word_at (hd_error rest) = false.
Proof.
  intros E. unfold re_hex in E. rewrite exec_bnd_cons in E.
  destruct (Bool.eqb (word_at p) (word_at (hd_error s))); [discriminate|].
  rewrite exec_rep in E. apply rep_sound in E.
  destruct E as (xs & s1 & -> & _ & _ & E).
  apply exec_bnd in E. destruct E as [[= -> ->] Hb].
  destruct (word_at (hd_error s1)); [left|now right].
  apply not_true_is_false. exact Hb.
Qed.

Lemma hex_progress : 1 <= min_len re_hex.
Proof. simpl. lia. Qed.

(** *** The Bearer pattern *)

Lemma bearer_prev_only_word p q s :
  word_at p = word_at q -> matches re_bearer p s = matches re_bearer q s.
Proof.
  intros _. apply eq_true_iff_eq. now rewrite !bearer_match_iff.
Qed.

Lemma bearer_head p s :
  matches re_bearer p s = true -> exists s', s = Bearer ++ s'.
Proof.
  intros H. apply bearer_match_iff in H.
  destruct H as (ws & x & rest & -> & _). now eexists.
Qed.

Lemma bearer_starts_word p s :
  matches re_bearer p s = true -> word_at (hd_error s) = true.
Proof.
  intros H. apply bearer_head in H. destruct H as [s' ->]. reflexivity.
Qed.

Lemma bearer_match_end p s p' rest :
  exec re_bearer p s = Some (p', rest) ->
  word_at p' = false \/ word_at (hd_error rest) = false.
Proof.
  intros E. right. unfold re_bearer, lits in E.
  apply exec_lits_inv in E. destruct E as (r & -> & E).
  rewrite exec_rep in E. apply rep_sound in E.
  destruct E as (ws & s1 & -> & _ & _ & E).
  rewrite exec_rep in E. apply rep_greedy_end in E.
  destruct rest as [|y rest]; [reflexivity|]. simpl in *.
  destruct (is_word y) eqn:Hy; [|reflexivity].
  apply word_is_tok in Hy. congruence.
Qed.

Lemma bearer_progress : 1 <= min_len re_bearer.
Proof. simpl. lia. Qed.

(** ** The replacement texts *)

Definition BearerRedacted : str := lit "Bearer [REDACTED]".

(** [re'] matches at none of the positions after the first of [c :: w],
    followed by [t]. *)
Fixpoint inner_clean (re' : regex) (c : ascii) (w t : str) : bool :=
  match w with
  | [] => true
  | d :: w' =>
      negb (matches re' (Some c) (w ++ t)) && inner_clean re' d w' t
  end.

Lemma inner_clean_spec re' t w :
  forall c, inner_clean re' c w t = true ->
  forall pre suf, w = pre ++ suf -> suf <> [] ->
    matches re' (prev_after (Some c) pre) (suf ++ t) = false.
Proof.
  induction w as [|d w IH]; intros c H pre suf E Hne.
  - symmetry in E. apply app_eq_nil in E. now destruct E.
  - simpl in H. apply andb_true_iff in H. destruct H as [H0 H].
    destruct pre as [|x pre].
    + simpl in E. subst suf. now apply negb_true_iff in H0.
    + injection E as <- E. rewrite prev_after_cons. now apply (IH d).
Qed.

Lemma repl_clean_intro re' (r0 : ascii) (repl' : str) :
  (forall p t, matches re' p ((r0 :: repl') ++ t) = false) ->
  (forall t, inner_clean re' r0 repl' t = true) ->
  forall p t pre suf, r0 :: repl' = pre ++ suf -> suf <> [] ->
    matches re' (prev_after p pre) (suf ++ t) = false.
Proof.
  intros H0 H p t pre suf E Hne. destruct pre as [|x pre].
  - simpl in E. subst suf. apply H0.
  - injection E as <- E. rewrite prev_after_cons.
    now apply (@inner_clean_spec re' t repl' r0 (H t)).
Qed.

Ltac no_match_by_start lemma :=
  let p := fresh "p" in let t := fresh "t" in let E := fresh "E" in
  intros p t;
  match goal with
  | |- ?m = false => destruct m eqn:E; [|reflexivity]
  end;
  apply lemma in E; discriminate E.

Lemma redacted_clean_hex p t pre suf :
  REDACTED = pre ++ suf -> suf <> [] ->
  matches re_hex (prev_after p pre) (suf ++ t) = false.
Proof.
  apply repl_clean_intro.
  - no_match_by_start hex_starts_word.
  - intros t'. vm_compute. reflexivity.
Qed.

Lemma redacted_clean_bearer p t pre suf :
  REDACTED = pre ++ suf -> suf <> [] ->
  matches re_bearer (prev_after p pre) (suf ++ t) = false.
Proof.
  apply repl_clean_intro.
  - no_match_by_start bearer_starts_word.
  - intros t'. vm_compute. reflexivity.
Qed.

Lemma bearer_redacted_clean_bearer p t pre suf :
  BearerRedacted = pre ++ suf -> suf <> [] ->
  matches re_bearer (prev_after p pre) (suf ++ t) = false.
Proof.
  apply repl_clean_intro.
  - intros p' t'. reflexivity.
  - intros t'. vm_compute. reflexivity.
Qed.

Lemma redacted_end p : word_at (prev_after p REDACTED) = false.
Proof. reflexivity. Qed.

Lemma bearer_redacted_end p : word_at (prev_after p BearerRedacted) = false.
Proof. reflexivity. Qed.

Lemma re_ntn_token : re_ntn = token_pattern ("n"%char :: lit "tn_").
Proof. reflexivity. Qed.

Lemma re_secret_token : re_secret = token_pattern ("s"%char :: lit "ecret_").
Proof. reflexivity. Qed.

Ltac no_token_at_start :=
  let p := fresh "p" in let t := fresh "t" in let E := fresh "E" in
  intros p t;
  match goal with
  | |- ?m = false => destruct m eqn:E; [|reflexivity]
  end;
  apply token_head in E; [|reflexivity];
  destruct E as [? E]; discriminate E.

Lemma redacted_clean_ntn p t pre suf :
  REDACTED = pre ++ suf -> suf <> [] ->
  matches re_ntn (prev_after p pre) (suf ++ t) = false.
Proof.
  apply repl_clean_intro.
  - rewrite re_ntn_token. no_token_at_start.
  - intros t'. vm_compute. reflexivity.
Qed.

Lemma redacted_clean_secret p t pre suf :
  REDACTED = pre ++ suf -> suf <> [] ->
  matches re_secret (prev_after p pre) (suf ++ t) = false.
Proof.
  apply repl_clean_intro.
  - rewrite re_secret_token. no_token_at_start.
  - intros t'. vm_compute. reflexivity.
Qed.

Lemma bearer_redacted_clean_ntn p t pre suf :
  BearerRedacted = pre ++ suf -> suf <> [] ->
  matches re_ntn (prev_after p pre) (suf ++ t) = false.
Proof.
  apply repl_clean_intro.
  - rewrite re_ntn_token. no_token_at_start.
  - intros t'. vm_compute. reflexivity.
Qed.

Lemma bearer_redacted_clean_secret p t pre suf :
  BearerRedacted = pre ++ suf -> suf <> [] ->
  matches re_secret (prev_after p pre) (suf ++ t) = false.
Proof.
  apply repl_clean_intro.
  - rewrite re_secret_token. no_token_at_start.
  - intros t'. vm_compute. reflexivity.
Qed.

(** ** Matches that survive a pass were there before *)

Lemma not_in_class cls (c : ascii) (xs : str) :
  all_in cls xs -> cls c = false -> ~ In c xs.
Proof.
  intros H Hc Hin. unfold all_in in H. rewrite Forall_forall in H.
  apply H in Hin. congruence.
Qed.

Lemma hex_hex_transfer p c s :
  matches re_hex p (c :: s) = false ->
  matches re_hex p (c :: scan re_hex REDACTED (Some c) s) = true ->
  matches re_hex p (c :: s) = true.
Proof.
  intros _ H. apply hex_match_iff in H.
  destruct H as (Hp & h & rest & E & Hh & Hlen & Hrest).
  destruct h as [|c' h']; [simpl in Hlen; lia|].
  injection E as <- E.
  apply (@scan_copied re_hex REDACTED hex_progress "["%char (lit "REDACTED]"))
    in E; [|reflexivity|].
  2:{ apply not_in_class with (cls := is_hex); [now inversion Hh|reflexivity]. }
  destruct E as (s' & -> & E).
  apply hex_match_iff. split; [exact Hp|].
  exists (c :: h'), s'. repeat split; try assumption.
  destruct (prev_after_in_class (Some c) Hh) as (x & Hx & Hhex).
  change (prev_after (Some c) h') with (prev_after (Some c) (c :: h')) in E.
  rewrite Hx in E.
  destruct s' as [|y s3]; [reflexivity|].
  destruct rest as [|z o].
  { symmetry in E. now apply scan_not_nil with (r0 := "["%char)
      (repl' := lit "REDACTED]") in E; [|apply hex_progress|]. }
  symmetry in E.
  apply (@scan_head re_hex REDACTED hex_progress "["%char (lit "REDACTED]"))
    in E; [|reflexivity].
  destruct E as [(s4 & [= -> ->] & _)|[_ Hm]]; [exact Hrest|].
  apply hex_match_iff in Hm. destruct Hm as [Hw _].
  simpl in Hw. apply hex_is_word in Hhex. congruence.
Qed.

Lemma bearer_hex_transfer p c s :
  matches re_hex p (c :: s) = false ->
  matches re_bearer p (c :: scan re_hex REDACTED (Some c) s) = true ->
  matches re_bearer p (c :: s) = true.
Proof.
  intros _ H. apply bearer_match_iff in H.
  destruct H as (ws & x & rest & E & Hne & Hws & Hx).
  injection E as -> E.
  assert (E' : scan re_hex REDACTED (Some "B"%char) s
               = (lit "earer" ++ ws ++ [x]) ++ rest).
  { rewrite <- !app_assoc. exact E. }
  clear E.
  apply (@scan_copied re_hex REDACTED hex_progress "["%char (lit "REDACTED]"))
    in E'; [|reflexivity|].
  - destruct E' as (s' & -> & _). apply bearer_match_iff.
    exists ws, x, s'. repeat split; try assumption.
    unfold Bearer, lit. simpl. now rewrite <- !app_assoc.
  - intros Hin. apply in_app_or in Hin. destruct Hin as [Hin|Hin].
    { vm_compute in Hin. intuition discriminate. }
    apply in_app_or in Hin. destruct Hin as [Hin|[->|[]]].
    + revert Hin. now apply not_in_class with (cls := is_space).
    + discriminate Hx.
Qed.

Lemma bearer_bearer_transfer p c s :
  matches re_bearer p (c :: s) = false ->
  matches re_bearer p (c :: scan re_bearer BearerRedacted (Some c) s) = true ->
  matches re_bearer p (c :: s) = true.
Proof.
  intros _ H. apply bearer_match_iff in H.
  destruct H as (ws & x & rest & E & Hne & Hws & Hx).
  injection E as -> E.
  assert (E' : scan re_bearer BearerRedacted (Some "B"%char) s
               = (lit "earer" ++ ws) ++ x :: rest).
  { rewrite <- app_assoc. exact E. }
  clear E.
  apply (@scan_copied re_bearer BearerRedacted bearer_progress "B"%char
           (lit "earer [REDACTED]")) in E'; [|reflexivity|].
  - destruct E' as (s' & -> & E). symmetry in E.
    apply (@scan_head re_bearer BearerRedacted bearer_progress "B"%char
             (lit "earer [REDACTED]")) in E; [|reflexivity].
    apply bearer_match_iff.
    destruct E as [(s4 & -> & _)|[-> Hm]].
    + exists ws, x, s4. repeat split; try assumption.
      all: try (unfold Bearer, lit; simpl; now rewrite <- !app_assoc).
    + apply bearer_head in Hm. destruct Hm as [s4 ->].
      exists ws, "B"%char, (lit "earer" ++ s4). repeat split; try assumption.
      all: try (unfold Bearer, lit; simpl; now rewrite <- !app_assoc).
  - intros Hin. apply in_app_or in Hin. destruct Hin as [Hin|Hin].
    { vm_compute in Hin. intuition discriminate. }
    revert Hin. now apply not_in_class with (cls := is_space).
Qed.

(** ** The four passes of sanitizeMessage *)

(** [re] matches at no position of [t]. *)
Definition no_match (re : regex) (t : str) : Prop := clean_from re None t.

Lemma covered_self re s : covered re re None s.
Proof. intros pre suf _ H. exact H. Qed.

Lemma covered_clean re' re s : no_match re' s -> covered re' re None s.
Proof. intros H pre suf E _. now apply H. Qed.

Lemma any_start re (p : option ascii) (s : str) :
  matches re p s = true -> exists s', s = [] ++ s'.
Proof. intros _. now exists s. Qed.

(** A pass that writes [REDACTED] leaves a token pattern without match. *)
Lemma token_redacted_pass (l0 : ascii) (L' : str) (re : regex) (s : str) :
  is_word l0 = true -> all_in is_tok L' ->
  1 <= min_len re ->
  (forall p s, matches re p s = true -> word_at (hd_error s) = true) ->
  (forall p s p' rest, exec re p s = Some (p', rest) ->
     word_at p' = false \/ word_at (hd_error rest) = false) ->
  (forall p t pre suf, REDACTED = pre ++ suf -> suf <> [] ->
     matches (token_pattern (l0 :: L')) (prev_after p pre) (suf ++ t) = false) ->
  covered (token_pattern (l0 :: L')) re None s ->
  no_match (token_pattern (l0 :: L')) (replaceAll re REDACTED s).
Proof.
  intros Hl0 HL Hprog Hstart Hend Hrepl Hcov.
  apply (@token_pass l0 L' Hl0 re REDACTED Hprog HL
           [] "["%char (lit "REDACTED]")); try assumption.
  - reflexivity.
  - reflexivity.
  - apply any_start.
  - apply redacted_end.
Qed.

(** The pass that writes "Bearer [REDACTED]" does so too. *)
Lemma token_bearer_pass (l0 : ascii) (L' : str) (s : str) :
  is_word l0 = true -> all_in is_tok L' ->
  (forall p t pre suf, BearerRedacted = pre ++ suf -> suf <> [] ->
     matches (token_pattern (l0 :: L')) (prev_after p pre) (suf ++ t) = false) ->
  covered (token_pattern (l0 :: L')) re_bearer None s ->
  no_match (token_pattern (l0 :: L')) (replaceAll re_bearer BearerRedacted s).
Proof.
  intros Hl0 HL Hrepl Hcov.
  apply (@token_pass l0 L' Hl0 re_bearer BearerRedacted bearer_progress HL
           Bearer " "%char (lit "[REDACTED]")); try assumption.
  - reflexivity.
  - reflexivity.
  - apply bearer_head.
  - apply bearer_starts_word.
  - apply bearer_match_end.
  - apply bearer_redacted_end.
Qed.

Lemma ntn_tok : all_in is_tok (lit "tn_").
Proof. repeat constructor. Qed.

Lemma secret_tok : all_in is_tok (lit "ecret_").
Proof. repeat constructor. Qed.

Lemma ntn_starts_word p s :
  matches re_ntn p s = true -> word_at (hd_error s) = true.
Proof. rewrite re_ntn_token. now apply token_starts_word. Qed.

Lemma secret_starts_word p s :
  matches re_secret p s = true -> word_at (hd_error s) = true.
Proof. rewrite re_secret_token. now apply token_starts_word. Qed.

Lemma ntn_match_end p s p' rest :
  exec re_ntn p s = Some (p', rest) ->
  word_at p' = false \/ word_at (hd_error rest) = false.
Proof. rewrite re_ntn_token. now apply token_match_end. Qed.

Lemma secret_match_end p s p' rest :
  exec re_secret p s = Some (p', rest) ->
  word_at p' = false \/ word_at (hd_error rest) = false.
Proof. rewrite re_secret_token. now apply token_match_end. Qed.

Lemma ntn_progress : 1 <= min_len re_ntn.
Proof. simpl. lia. Qed.

Lemma secret_progress : 1 <= min_len re_secret.
Proof. simpl. lia. Qed.

(** The sanitised message has no match of the four patterns left. *)
Definition redacted (m : str) : Prop :=
  no_match re_ntn m /\ no_match re_secret m
  /\ no_match re_bearer m /\ no_match re_hex m.

Lemma sanitizeMessage_redacted (message : str) :
  redacted (sanitizeMessage message).
Proof.
  unfold sanitizeMessage.
  set (m1 := replaceAll re_ntn REDACTED message).
  set (m2 := replaceAll re_secret REDACTED m1).
  set (m3 := replaceAll re_bearer (lit "Bearer [REDACTED]") m2).
  (* ntn_… *)
  assert (N1 : no_match re_ntn m1).
  { rewrite re_ntn_token at 1.
    apply token_redacted_pass;
      [reflexivity|exact ntn_tok|exact ntn_progress|exact ntn_starts_word
      |exact ntn_match_end|exact redacted_clean_ntn|apply covered_self]. }
  assert (N2 : no_match re_ntn m2).
  { rewrite re_ntn_token.
    apply token_redacted_pass;
      [reflexivity|exact ntn_tok|exact secret_progress
      |exact secret_starts_word|exact secret_match_end
      |exact redacted_clean_ntn|now apply covered_clean]. }
  assert (N3 : no_match re_ntn m3).
  { rewrite re_ntn_token.
    apply token_bearer_pass;
      [reflexivity|exact ntn_tok|exact bearer_redacted_clean_ntn
      |now apply covered_clean]. }
  assert (N4 : no_match re_ntn (replaceAll re_hex REDACTED m3)).
  { rewrite re_ntn_token.
    apply token_redacted_pass;
      [reflexivity|exact ntn_tok|exact hex_progress|exact hex_starts_word
      |exact hex_match_end|exact redacted_clean_ntn|now apply covered_clean]. }
  (* secret_… *)
  assert (S2 : no_match re_secret m2).
  { rewrite re_secret_token at 1.
    apply token_redacted_pass;
      [reflexivity|exact secret_tok|exact secret_progress
      |exact secret_starts_word|exact secret_match_end
      |exact redacted_clean_secret|apply covered_self]. }
  assert (S3 : no_match re_secret m3).
  { rewrite re_secret_token.
    apply token_bearer_pass;
      [reflexivity|exact secret_tok|exact bearer_redacted_clean_secret
      |now apply covered_clean]. }
  assert (S4 : no_match re_secret (replaceAll re_hex REDACTED m3)).
  { rewrite re_secret_token.
    apply token_redacted_pass;
      [reflexivity|exact secret_tok|exact hex_progress|exact hex_starts_word
      |exact hex_match_end|exact redacted_clean_secret
      |now apply covered_clean]. }
  (* Bearer … *)
  assert (B3 : no_match re_bearer m3).
  { apply pass_clean;
      [exact bearer_progress|exact bearer_prev_only_word
      |exact bearer_starts_word|exact bearer_starts_word
      |exact bearer_match_end|exact bearer_redacted_clean_bearer
      |exact bearer_redacted_end|exact bearer_bearer_transfer
      |apply covered_self]. }
  assert (B4 : no_match re_bearer (replaceAll re_hex REDACTED m3)).
  { apply pass_clean;
      [exact hex_progress|exact bearer_prev_only_word
      |exact bearer_starts_word|exact hex_starts_word
      |exact hex_match_end|exact redacted_clean_bearer
      |exact redacted_end|exact bearer_hex_transfer
      |now apply covered_clean]. }
  (* long hexadecimal strings *)
  assert (H4 : no_match re_hex (replaceAll re_hex REDACTED m3)).
  { apply pass_clean;
      [exact hex_progress|exact hex_prev_only_word
      |exact hex_starts_word|exact hex_starts_word
      |exact hex_match_end|exact redacted_clean_hex
      |exact redacted_end|exact hex_hex_transfer
      |apply covered_self]. }
  repeat split; assumption.
Qed.

(** The same in plain terms: the message has no ntn_… or secret_… token and
    no run of 40 hexadecimal digits or more standing between non-word
    positions, and no "Bearer" followed by whitespace and a token
    character. *)
Definition no_delimited_secret (m : str) : Prop :=
  (forall a w b, m = a ++ lit "ntn_" ++ w ++ b ->
     word_at (prev_after None a) = false -> all_in is_tok w -> has_word w ->
     False)
  /\ (forall a w b, m = a ++ lit "secret_" ++ w ++ b ->
        word_at (prev_after None a) = false -> all_in is_tok w ->
        has_word w -> False)
  /\ (forall a ws x b, m = a ++ Bearer ++ ws ++ x :: b ->
        ws <> [] -> all_in is_space ws -> is_tok x = true -> False)
  /\ (forall a h b, m = a ++ h ++ b ->
        all_in is_hex h -> 40 <= length h ->
        word_at (prev_after None a) = false ->
        word_at (hd_error b) = false -> False).

Lemma redacted_plain (m : str) : redacted m -> no_delimited_secret m.
Proof.
  intros (Hn & Hs & Hb & Hh). repeat split.
  - intros a w b E Ha Hw Hex. specialize (Hn a _ E).
    rewrite re_ntn_token in Hn.
    assert (Hm : matches (token_pattern ("n"%char :: lit "tn_"))
                   (prev_after None a) (lit "ntn_" ++ w ++ b) = true).
    { apply token_match_iff; [reflexivity|]. split; [exact Ha|].
      now exists w, b. }
    congruence.
  - intros a w b E Ha Hw Hex. specialize (Hs a _ E).
    rewrite re_secret_token in Hs.
    assert (Hm : matches (token_pattern ("s"%char :: lit "ecret_"))
                   (prev_after None a) (lit "secret_" ++ w ++ b) = true).
    { apply token_match_iff; [reflexivity|]. split; [exact Ha|].
      now exists w, b. }
    congruence.
  - intros a ws x b E Hne Hws Hx. specialize (Hb a _ E).
    assert (Hm : matches re_bearer (prev_after None a)
                   (Bearer ++ ws ++ x :: b) = true).
    { apply bearer_match_iff. now exists ws, x, b. }
    congruence.
  - intros a h b E Hhex Hlen Ha Hnext. specialize (Hh a _ E).
    assert (Hm : matches re_hex (prev_after None a) (h ++ b) = true).
    { apply hex_match_iff. split; [exact Ha|]. now exists h, b. }
    congruence.
Qed.

(** A secret-shaped string, as the specification words it: a token ntn_… or
    secret_…, a Bearer token, or a hexadecimal string of 40 characters or
    more. *)
Inductive secret_shaped : str -> Prop :=
| shaped_ntn w :
    w <> [] -> all_in is_tok w -> secret_shaped (lit "ntn_" ++ w)
| shaped_secret w :
    w <> [] -> all_in is_tok w -> secret_shaped (lit "secret_" ++ w)
| shaped_bearer ws w :
    ws <> [] -> all_in is_space ws -> w <> [] -> all_in is_tok w ->
    secret_shaped (Bearer ++ ws ++ w)
| shaped_hex h :
    all_in is_hex h -> 40 <= length h -> secret_shaped h.

Definition contains_secret (m : str) : Prop :=
  exists a h b, m = a ++ h ++ b /\ secret_shaped h.

(** C9 (amended). The message of a CliError, and of each of its subclasses,
    has no match of the four redaction patterns left: every ntn_… and
    secret_… token and every run of 40 hexadecimal digits or more that
    stands between word boundaries, and every "Bearer" followed by
    whitespace and token characters, has been replaced. *)
Theorem error_messages_redacted :
  (forall msg code exitCode,
     redacted (message (newCliError msg code exitCode))
     /\ no_delimited_secret (message (newCliError msg code exitCode)))
  /\ (forall msg, redacted (message (ValidationError msg)))
  /\ redacted (message AuthError)
  /\ (forall resource id, redacted (message (NotFoundError resource id)))
  /\ (forall ms, redacted (message (RateLimitError ms)))
  /\ (forall msg, redacted (message (PatchConflictError msg))).
Proof.
  split; [|split; [|split; [|split; [|split]]]]; intros;
    try apply sanitizeMessage_redacted.
  split; [|apply redacted_plain]; apply sanitizeMessage_redacted.
Qed.

(** C9 as first stated fails: a hexadecimal string of 40 characters that
    follows "0x" does not start at a word boundary and is surfaced as it
    is. *)
Lemma prefixed_hex_not_redacted :
  let m := lit "key 0xda39a3ee5e6b4b0d3255bfef95601890afd80709" in
  message (newCliError m (lit "TEST") GENERAL_ERROR) = m
  /\ contains_secret (message (newCliError m (lit "TEST") GENERAL_ERROR)).
Proof.
  split; [vm_compute; reflexivity|].
  exists (lit "key 0x"), (lit "da39a3ee5e6b4b0d3255bfef95601890afd80709"), [].
  split; [vm_compute; reflexivity|].
  apply shaped_hex; [repeat constructor|vm_compute; lia].
Qed.

(** The tokens of the tests are redacted. *)
Example sanitize_ntn_token :
  sanitizeMessage (lit "Failed with token ntn_abc123xyz789_secret")
  = lit "Failed with token [REDACTED]".
Proof. vm_compute. reflexivity. Qed.

Example sanitize_secret_token :
  sanitizeMessage (lit "Token: secret_abc123xyz789") = lit "Token: [REDACTED]".
Proof. vm_compute. reflexivity. Qed.

End SanitizeFacts.

(* ------------------------------------------------------------------ *)
(** * The cases of the repository's test suites, run on the embedding *)

Module Tests.
Import Js Errors Patch Markdown PatchFacts.

Definition sample : str := lit "# Hello World

This is line 3.
This is line 4.
This is line 5.

## Section Two

Content here.".

Definition run (op : PatchOperation) : outcome PatchResult :=
  applyPatchOperation (D := plainDiff) sample op.

Definition patched_lines (r : outcome PatchResult) : list str :=
  match r with Completed (Ok r) => split (patched r) | _ => [] end.

Definition thrown_message (r : outcome PatchResult) : str :=
  match r with
  | Completed (Ok _) => []
  | Completed (Throw e) => message e
  | Uncaught e => err_message e
  end.

(** tests/patch.test.ts *)

Example replaces_a_range :
  let lines := patched_lines
                 (run (PatchLineRange 3 (EndLine 5) (lit "Replaced line 3.
Replaced line 4."))) in
  nth 2 lines [LF] = lit "Replaced line 3."
  /\ nth 3 lines [LF] = lit "Replaced line 4."
  /\ nth 4 lines [LF] = [].
Proof. vm_compute. repeat split. Qed.

Example replaces_a_single_line :
  let lines := patched_lines
                 (run (PatchLineRange 3 (EndLine 3) (lit "New line 3."))) in
  nth 2 lines [] = lit "New line 3." /\ nth 3 lines [] = lit "This is line 4.".
Proof. vm_compute. repeat split. Qed.

Example deletes_lines :
  length (patched_lines (run (PatchLineRange 3 (EndLine 5) [])))
  = length (split sample) - 3.
Proof. vm_compute. reflexivity. Qed.

Example replaces_to_the_end :
  let lines := patched_lines
                 (run (PatchLineRange 7 EndInfinity (lit "## New Section

New content."))) in
  nth 6 lines [] = lit "## New Section"
  /\ nth 7 lines [LF] = []
  /\ nth 8 lines [] = lit "New content."
  /\ length lines = 9.
Proof. vm_compute. repeat split. Qed.

Example rejects_start_zero :
  includes (thrown_message (run (PatchLineRange 0 (EndLine 3) (lit "test"))))
    (lit "start must be >= 1") = true.
Proof. vm_compute. reflexivity. Qed.

Example appends_at_the_end :
  patched_lines (run (PatchAppend (lit "## Appended Section")))
  = split sample ++ [lit "## Appended Section"].
Proof. vm_compute. reflexivity. Qed.

Example prepends_at_the_start :
  patched_lines (run (PatchPrepend (lit "> Note: This is a draft.")))
  = lit "> Note: This is a draft." :: split sample.
Proof. vm_compute. reflexivity. Qed.

(** tests/markdown.test.ts *)

Example numbers_lines :
  addLineNumbers (lit "line one
line two
line three") = lit "1: line one
2: line two
3: line three".
Proof. vm_compute. reflexivity. Qed.

Example pads_line_numbers :
  let numbered := split (addLineNumbers (lit "line 1
line 2
line 3
line 4
line 5
line 6
line 7
line 8
line 9
line 10
line 11
line 12")) in
  nth 0 numbered [] = lit " 1: line 1" /\ nth 11 numbered [] = lit "12: line 12".
Proof. vm_compute. repeat split. Qed.

Example strips_line_numbers :
  stripLineNumbers (lit "1: line one
2: line two
3: line three") = lit "line one
line two
line three".
Proof. vm_compute. reflexivity. Qed.

Example strips_padded_line_numbers :
  stripLineNumbers (lit " 1: line one
10: line ten") = lit "line one
line ten".
Proof. vm_compute. reflexivity. Qed.

(** tests/errors.test.ts *)

Example auth_error_code :
  code AuthError = lit "AUTH_ERROR" /\ exitCode AuthError = AUTH_ERROR.
Proof. split; reflexivity. Qed.

Example not_found_message :
  includes (message (NotFoundError (lit "Page") (lit "abc-123"))) (lit "abc-123")
  = true.
Proof. vm_compute. reflexivity. Qed.

Example rate_limit_carries_duration :
  retryAfterMs (RateLimitError 5000) = Some 5000%Z
  /\ code (RateLimitError 5000) = lit "RATE_LIMITED".
Proof. split; reflexivity. Qed.

Example converts_statuses :
  code (toCliError (ThrownError (mkJsError (lit "Unauthorized") (Some 401%Z) None None)))
    = lit "AUTH_ERROR"
  /\ code (toCliError (ThrownError (mkJsError (lit "Not found") (Some 404%Z) None None)))
    = lit "NOT_FOUND"
  /\ code (toCliError (ThrownError (mkJsError (lit "Rate limited") (Some 429%Z) None None)))
    = lit "RATE_LIMITED"
  /\ code (toCliError (ThrownOther (lit "something went wrong")))
    = lit "GENERAL_ERROR".
Proof. repeat split. Qed.

Example passes_cli_errors_through (e : CliError) :
  toCliError (ThrownCli e) = e.
Proof. reflexivity. Qed.

End Tests.

(* ------------------------------------------------------------------ *)
(** * Messages that need no redaction *)

Module RedactionFacts.
Import Regex RegexFacts Errors SanitizeFacts.

(** Where the pattern matches nowhere, the global replacement copies. *)
Lemma scan_no_match re repl (Hre : 1 <= min_len re) :
  forall s prev, clean_from re prev s -> scan re repl prev s = s.
Proof.
  induction s as [|c s IH]; intros prev H.
  - now apply scan_nil.
  - assert (Hnone : exec re prev (c :: s) = None).
    { apply matches_false. exact (H [] (c :: s) eq_refl). }
    rewrite scan_copy by assumption. f_equal. apply IH.
    exact (@clean_from_suffix re prev [c] s H).
Qed.

Lemma replaceAll_no_match re repl s :
  1 <= min_len re -> no_match re s -> replaceAll re repl s = s.
Proof.
  intros Hre H. rewrite replaceAll_scan. now apply scan_no_match.
Qed.

Lemma sanitize_redacted_id (m : str) : redacted m -> sanitizeMessage m = m.
Proof.
  intros (Hn & Hs & Hb & Hh). unfold sanitizeMessage.
  rewrite (replaceAll_no_match REDACTED ntn_progress Hn).
  rewrite (replaceAll_no_match REDACTED secret_progress Hs).
  rewrite (replaceAll_no_match (lit "Bearer [REDACTED]") bearer_progress Hb).
  exact (replaceAll_no_match REDACTED hex_progress Hh).
Qed.

(** X1. A message in which none of the four patterns matches is surfaced
    unchanged; sanitizeMessage is therefore idempotent, and an error built
    from the message of another CliError has the same message. *)
Theorem sanitize_idempotent :
  (forall m, redacted m -> sanitizeMessage m = m)
  /\ (forall m, sanitizeMessage (sanitizeMessage m) = sanitizeMessage m)
  /\ (forall msg c1 e1 c2 e2,
        message (newCliError (message (newCliError msg c1 e1)) c2 e2)
        = message (newCliError msg c1 e1)).
Proof.
  split; [exact sanitize_redacted_id|]. split; intros.
  - apply sanitize_redacted_id, sanitizeMessage_redacted.
  - apply sanitize_redacted_id, sanitizeMessage_redacted.
Qed.

Lemma sanitize_idempotent_witness :
  sanitizeMessage (lit "Failed with token [REDACTED]")
  = lit "Failed with token [REDACTED]".
Proof.
  apply (proj1 sanitize_idempotent).
  change (lit "Failed with token [REDACTED]")
    with (sanitizeMessage (lit "Failed with token ntn_abc123xyz789_secret")).
  apply sanitizeMessage_redacted.
Defined.

(** The failures that [toCliError] maps to a class of their own. *)
Definition classified (e : JsError) : bool :=
  opt_is Z.eqb (status e) 401%Z
  || opt_is str_eqb (err_code e) (lit "unauthorized")
  || opt_is Z.eqb (status e) 404%Z
  || opt_is str_eqb (err_code e) (lit "object_not_found")
  || opt_is Z.eqb (status e) 429%Z.

(** X2. What [toCliError] makes of a thrown value.  A CliError is passed
    on as it is.  An Error of status 401, 404 or 429 or of code
    "unauthorized" or "object_not_found" gives a result that depends on
    status and code only: the remote message is dropped.  Any other Error,
    and any value that is no Error, gives a general error with the
    sanitised text.  The message of an error that [toCliError] builds has
    no match of the four redaction patterns left: no ntn_ or secret_ token
    and no run of 40 hexadecimal digits or more between word boundaries, no
    "Bearer" with a token.  A secret that does not stand between word
    boundaries is no such match and is surfaced as it is: after 0x, 40
    hexadecimal digits stay. *)
Theorem toCliError_message :
  (forall c, toCliError (ThrownCli c) = c)
  /\ (forall e,
        redacted (message (toCliError (ThrownError e)))
        /\ no_delimited_secret (message (toCliError (ThrownError e)))
        /\ (classified e = true ->
            forall other hint,
              toCliError
                (ThrownError (mkJsError other (status e) (err_code e) hint))
              = toCliError (ThrownError e))
        /\ (classified e = false ->
            message (toCliError (ThrownError e))
            = sanitizeMessage (err_message e)
            /\ code (toCliError (ThrownError e)) = lit "GENERAL_ERROR"
            /\ exitCode (toCliError (ThrownError e)) = GENERAL_ERROR))
  /\ (forall shown,
        message (toCliError (ThrownOther shown)) = sanitizeMessage shown
        /\ code (toCliError (ThrownOther shown)) = lit "GENERAL_ERROR"
        /\ exitCode (toCliError (ThrownOther shown)) = GENERAL_ERROR
        /\ redacted (message (toCliError (ThrownOther shown)))
        /\ no_delimited_secret (message (toCliError (ThrownOther shown))))
  /\ (let leaked := lit "key 0xda39a3ee5e6b4b0d3255bfef95601890afd80709" in
      message (toCliError
                 (ThrownError (mkJsError leaked (Some 500%Z) None None)))
      = leaked
      /\ contains_secret leaked).
Proof.
  split; [reflexivity|]. split; [|split].
  - intros e.
    assert (Hred : redacted (message (toCliError (ThrownError e)))).
    { unfold toCliError.
      destruct (opt_is Z.eqb (status e) 401%Z
                || opt_is str_eqb (err_code e) (lit "unauthorized"));
        [apply sanitizeMessage_redacted|].
      destruct (opt_is Z.eqb (status e) 404%Z
                || opt_is str_eqb (err_code e) (lit "object_not_found"));
        [apply sanitizeMessage_redacted|].
      destruct (opt_is Z.eqb (status e) 429%Z);
        apply sanitizeMessage_redacted. }
    split; [exact Hred|]. split; [now apply redacted_plain|].
    unfold classified, toCliError. cbn [status err_code err_message].
    destruct (opt_is Z.eqb (status e) 401%Z
              || opt_is str_eqb (err_code e) (lit "unauthorized")) eqn:E1.
    { split; [reflexivity|discriminate]. }
    destruct (opt_is Z.eqb (status e) 404%Z
              || opt_is str_eqb (err_code e) (lit "object_not_found")) eqn:E2.
    { apply orb_true_iff in E2. split; [reflexivity|].
      destruct E2 as [-> | ->]; rewrite ?orb_true_r; discriminate. }
    apply orb_false_iff in E2. destruct E2 as [-> ->].
    destruct (opt_is Z.eqb (status e) 429%Z) eqn:E3.
    { split; [reflexivity|discriminate]. }
    split; [discriminate|]. intros _. repeat split.
  - intros shown. split; [reflexivity|]. split; [reflexivity|].
    split; [reflexivity|].
    split; [apply sanitizeMessage_redacted|].
    apply redacted_plain, sanitizeMessage_redacted.
  - split; [vm_compute; reflexivity|].
    exists (lit "key 0x"), (lit "da39a3ee5e6b4b0d3255bfef95601890afd80709"),
      [].
    split; [reflexivity|]. apply shaped_hex; [|simpl; lia].
    unfold all_in. repeat constructor.
Qed.

Lemma toCliError_message_witness :
  message (toCliError (ThrownError
    (mkJsError (lit "boom secret_abc") (Some 500%Z) None None)))
  = lit "boom [REDACTED]".
Proof.
  destruct (proj1 (proj2 toCliError_message)
              (mkJsError (lit "boom secret_abc") (Some 500%Z) None None))
    as (_ & _ & _ & H).
  destruct (H eq_refl) as [-> _]. vm_compute. reflexivity.
Defined.

End RedactionFacts.

(* ------------------------------------------------------------------ *)
(** * More on line operations *)

Module LineRangeFacts.
Import Js JsFacts Errors Patch PatchFacts.

Section Engine.
Context {D : DiffLibrary}.

(** The patched text of an operation that succeeded. *)
Definition patchedOf (r : outcome PatchResult) : option str :=
  match r with Completed (Ok r) => Some (patched r) | _ => None end.

Lemma patchedOf_lines (original content : str) (start e : Z) :
  (1 <= start <= totalLines original)%Z -> (start <= e)%Z ->
  patchedOf (applyPatchOperation original
               (PatchLineRange start (EndLine e) content))
  = Some (join (firstn (Z.to_nat (start - 1)) (split original)
                  ++ contentLines content
                  ++ skipn (Z.to_nat (Z.min e (totalLines original)))
                       (split original))).
Proof.
  intros Hs He. simpl. rewrite applyLineRange_ok by lia. simpl.
  now rewrite slice_suffix by lia.
Qed.

(** X3. Deleting lines start..end (empty content) of a document removes
    exactly the addressed lines, min(end, totalLines) - start + 1 of them,
    unless the whole document is addressed: then the result is the empty
    document, which still counts one line. *)
Theorem delete_line_count (original : str) (start e : Z) :
  (1 <= start <= totalLines original)%Z -> (start <= e)%Z ->
  exists r,
    applyPatchOperation original (PatchLineRange start (EndLine e) []) = Ok r
    /\ ((1 < start \/ e < totalLines original)%Z ->
        totalLines (patched r)
        = (totalLines original
           - (Z.min e (totalLines original) - start + 1))%Z)
    /\ (start = 1%Z -> (totalLines original <= e)%Z -> patched r = []).
Proof.
  intros Hs He.
  pose proof (patchedOf_lines original [] Hs He) as H.
  destruct (applyPatchOperation original (PatchLineRange start (EndLine e) []))
    as [[r|err]|err]; [|discriminate|discriminate].
  injection H as H. exists r. split; [reflexivity|]. rewrite H.
  simpl contentLines. simpl app. split.
  - intros Hpart. unfold totalLines at 1.
    assert (Hlen : length (split original) = Z.to_nat (totalLines original)).
    { unfold totalLines. now rewrite Nat2Z.id. }
    rewrite split_join.
    + rewrite length_app, length_firstn, length_skipn. lia.
    + intros Hnil. apply (f_equal (@length str)) in Hnil.
      rewrite length_app, length_firstn, length_skipn in Hnil.
      simpl in Hnil. lia.
    + pose proof (split_no_LF original) as Hall.
      apply Forall_app. split; now apply Forall_firstn_skipn.
  - intros -> Hall. simpl firstn.
    rewrite Z.min_r by lia. unfold totalLines. rewrite Nat2Z.id.
    now rewrite skipn_all.
Qed.

(** The lines start..end of a document. *)
Definition linesOf (original : str) (start e : Z) : list str :=
  firstn (Z.to_nat (e - start + 1)) (skipn (Z.to_nat (start - 1)) (split original)).

Lemma linesOf_splice (original : str) (start e : Z) :
  (1 <= start)%Z -> (start <= e <= totalLines original)%Z ->
  firstn (Z.to_nat (start - 1)) (split original)
    ++ linesOf original start e
    ++ skipn (Z.to_nat e) (split original)
  = split original.
Proof.
  intros Hs He. unfold linesOf.
  rewrite <- (firstn_skipn (Z.to_nat (start - 1)) (split original)) at 4.
  f_equal.
  rewrite <- (firstn_skipn (Z.to_nat (e - start + 1))
                (skipn (Z.to_nat (start - 1)) (split original))) at 2.
  f_equal. rewrite skipn_skipn. f_equal. lia.
Qed.

(** X4. Writing back the text of lines start..end over these lines leaves
    the document as it is, provided that text is not empty; when it is empty
    (the range is one empty line) the operation deletes the line instead. *)
Theorem rewrite_same_lines (original : str) (start e : Z) :
  (1 <= start)%Z -> (start <= e <= totalLines original)%Z ->
  let text := join (linesOf original start e) in
  exists r,
    applyPatchOperation original (PatchLineRange start (EndLine e) text) = Ok r
    /\ (text <> [] -> patched r = original)
    /\ (text = [] ->
        patched r = join (firstn (Z.to_nat (start - 1)) (split original)
                            ++ skipn (Z.to_nat e) (split original))).
Proof.
  intros Hs He text.
  assert (Hr : (1 <= start <= totalLines original)%Z) by lia.
  pose proof (patchedOf_lines original text Hr (proj1 He)) as H.
  destruct (applyPatchOperation original (PatchLineRange start (EndLine e) text))
    as [[r|err]|err]; [|discriminate|discriminate].
  injection H as H. exists r. split; [reflexivity|]. rewrite H.
  rewrite Z.min_l by lia. split.
  - intros Hne.
    assert (Hlines : contentLines text = linesOf original start e).
    { unfold contentLines. destruct text eqn:E; [contradiction|].
      rewrite <- E. subst text. apply split_join.
      - intros Hnil. rewrite Hnil in E. discriminate.
      - unfold linesOf. pose proof (split_no_LF original) as Hall.
        apply Forall_firstn_skipn. now apply Forall_firstn_skipn. }
    rewrite Hlines, linesOf_splice by lia. apply join_split.
  - intros ->. reflexivity.
Qed.

(** X5. Prepend and append are line operations.  Prepending content is
    replacing line 1 by the content, a line break and line 1.  Appending
    non-empty content is replacing the last line when that line is empty
    (the document ends with a line break), and inserting after the last
    line otherwise. *)
Theorem prepend_append_as_lines (original content : str) :
  patchedOf (applyPatchOperation original (PatchPrepend content))
  = patchedOf (applyPatchOperation original
                 (PatchLineRange 1 (EndLine 1)
                    (content ++ LF :: hd [] (split original))))
  /\ (content <> [] ->
      patchedOf (applyPatchOperation original (PatchAppend content))
      = patchedOf (applyPatchOperation original
                     (if endsWith original [LF]
                      then PatchLineRange (totalLines original)
                             (EndLine (totalLines original)) content
                      else PatchLineRange (totalLines original + 1)
                             EndInfinity content))).
Proof.
  pose proof (totalLines_pos original) as Hpos.
  pose proof (split_not_nil original) as Hne.
  split.
  - rewrite patchedOf_lines by lia. simpl patchedOf. f_equal.
    rewrite Z.min_l by lia. simpl firstn. simpl app.
    destruct (split original) as [|l ls] eqn:E; [contradiction|].
    simpl hd. simpl skipn.
    replace (contentLines (content ++ LF :: l)) with (split content ++ [l]).
    + rewrite <- app_assoc. simpl app.
      rewrite join_app by (apply split_not_nil || discriminate).
      rewrite join_split. f_equal. f_equal.
      rewrite <- E. symmetry. apply join_split.
    + unfold contentLines.
      destruct (content ++ LF :: l) eqn:E'.
      { destruct content; discriminate. }
      rewrite <- E', split_app_LF. f_equal. symmetry. apply split_line.
      pose proof (split_no_LF original) as Hall. rewrite E in Hall.
      now inversion Hall.
  - intros Hc. simpl patchedOf at 1. unfold applyAppend. simpl patchedOf at 1.
    destruct (endsWith original [LF]) eqn:Eends.
    + apply endsWith_iff in Eends. destruct Eends as [s ->].
      rewrite patchedOf_lines by lia. f_equal.
      rewrite Z.min_id.
      assert (Hsplit : split (s ++ [LF]) = split s ++ [[]])
        by now rewrite split_app_LF.
      assert (Htot : Z.to_nat (totalLines (s ++ [LF])) = S (length (split s))).
      { unfold totalLines. rewrite Nat2Z.id, Hsplit, length_app. simpl. lia. }
      replace (Z.to_nat (totalLines (s ++ [LF]) - 1)) with (length (split s))
        by lia.
      rewrite Htot, Hsplit.
      rewrite firstn_app, firstn_all, Nat.sub_diag. simpl firstn.
      rewrite skipn_all2 by (rewrite length_app; simpl; lia).
      rewrite !app_nil_r.
      rewrite join_app by (apply split_not_nil || now apply contentLines_not_nil).
      rewrite join_split, contentLines_join. now rewrite <- app_assoc.
    + simpl. rewrite applyLineRange_ok by lia. simpl. f_equal.
      rewrite slice_suffix by lia.
      replace (totalLines original + 1 - 1)%Z with (totalLines original) by lia.
      unfold totalLines. rewrite Nat2Z.id.
      rewrite firstn_all, skipn_all, app_nil_r.
      rewrite join_app by (apply split_not_nil || now apply contentLines_not_nil).
      now rewrite join_split, contentLines_join.
Qed.

End Engine.

Lemma delete_line_count_witness :
  exists r,
    applyPatchOperation (D := plainDiff) Tests.sample
      (PatchLineRange 3 (EndLine 5) []) = Ok r
    /\ totalLines (patched r) = 6%Z.
Proof.
  destruct (@delete_line_count plainDiff Tests.sample 3 5) as (r & H & Hn & _).
  - vm_compute. split; discriminate.
  - lia.
  - exists r. split; [exact H|]. rewrite Hn; [reflexivity|left; lia].
Defined.

Lemma rewrite_same_lines_witness :
  exists r,
    applyPatchOperation (D := plainDiff) Tests.sample
      (PatchLineRange 3 (EndLine 5) (lit "This is line 3.
This is line 4.
This is line 5.")) = Ok r
    /\ patched r = Tests.sample.
Proof.
  destruct (@rewrite_same_lines plainDiff Tests.sample 3 5) as (r & H & Hsame & _).
  - lia.
  - vm_compute. split; discriminate.
  - exists r. split; [exact H|]. apply Hsame. vm_compute. discriminate.
Defined.

Lemma prepend_append_as_lines_witness :
  patchedOf (applyPatchOperation (D := plainDiff) (lit "a
") (PatchAppend (lit "b")))
  = patchedOf (applyPatchOperation (D := plainDiff) (lit "a
") (PatchLineRange 2 (EndLine 2) (lit "b"))).
Proof.
  apply (proj2 (@prepend_append_as_lines plainDiff (lit "a
") (lit "b"))).
  discriminate.
Defined.

End LineRangeFacts.

(* ------------------------------------------------------------------ *)
(** * What stripLineNumbers removes *)

Module StripFacts.
Import Js JsFacts Regex RegexFacts Markdown MarkdownFacts.

(** A pattern anchored with ^ matches at the start of the input only. *)
Lemma replace_first_anchored k repl c s :
  replace_first (Start :: k) repl (Some c) s = s.
Proof.
  revert c. induction s as [|d s IH]; intros c; [reflexivity|].
  simpl. f_equal. apply IH.
Qed.

(** The characters of a line-number prefix. *)
Definition is_prefix_char (c : ascii) : bool :=
  is_space c || is_digit c || Ascii.eqb c ":".

Lemma all_in_weaken (cls cls' : ascii -> bool) (xs : str) :
  (forall c, cls c = true -> cls' c = true) -> all_in cls xs -> all_in cls' xs.
Proof. intros H. apply Forall_impl. exact H. Qed.

Lemma exec_chr c k prev s :
  exec (Chr c :: k) prev s =
  match s with
  | c' :: s' => if Ascii.eqb c c' then exec k (Some c') s' else None
  | [] => None
  end.
Proof. reflexivity. Qed.

(** What the pattern of [stripLineNumbers] consumes. *)
Lemma exec_line_number_consumes prev line prev' rest :
  exec re_line_number prev line = Some (prev', rest) ->
  exists pre, line = pre ++ rest /\ all_in is_prefix_char pre.
Proof.
  unfold re_line_number. intros H. simpl in H.
  destruct prev; [discriminate|].
  change (rep is_space (exec [Rep is_digit 1 None; Chr ":"; Rep is_space 0 (Some 1)])
            0 None None line = Some (prev', rest)) in H.
  apply rep_sound in H. destruct H as (ws & s1 & -> & Hws & _ & H).
  rewrite exec_rep in H. apply rep_sound in H.
  destruct H as (ds & s2 & -> & Hds & _ & H).
  rewrite exec_chr in H. destruct s2 as [|c s2]; [discriminate|].
  destruct (Ascii.eqb_spec ":" c) as [<-|]; [|discriminate].
  rewrite exec_rep in H.
  apply rep_sound in H. destruct H as (sp & s3 & -> & Hsp & _ & H).
  injection H as _ <-.
  exists (ws ++ ds ++ ":"%char :: sp). split.
  - now rewrite <- !app_assoc.
  - unfold is_prefix_char. repeat (apply Forall_app; split).
    + apply all_in_weaken with (cls := is_space); [|exact Hws].
      intros c ->. reflexivity.
    + apply all_in_weaken with (cls := is_digit); [|exact Hds].
      intros c ->. now rewrite orb_true_r.
    + constructor; [reflexivity|].
      apply all_in_weaken with (cls := is_space); [|exact Hsp].
      intros c ->. reflexivity.
Qed.

Lemma strip_line_suffix (line : str) :
  exists pre,
    line = pre ++ replace re_line_number [] line /\ all_in is_prefix_char pre.
Proof.
  destruct (exec re_line_number None line) as [[prev' rest]|] eqn:E.
  - destruct (exec_line_number_consumes _ _ E) as (pre & Hline & Hpre).
    exists pre. split; [|exact Hpre].
    now rewrite (@replace_at_start _ [] _ _ _ E).
  - exists []. split; [|constructor].
    unfold replace. destruct line as [|c line].
    + unfold replace_first. now rewrite E.
    + change (replace_first re_line_number [] None (c :: line))
        with (match exec re_line_number None (c :: line) with
              | Some (_, rest) => [] ++ rest
              | None => c :: replace_first re_line_number [] (Some c) line
              end).
      rewrite E. unfold re_line_number. now rewrite replace_first_anchored.
Qed.

Lemma strip_lines_no_LF (ls : list str) :
  Forall no_LF ls -> Forall no_LF (map (replace re_line_number []) ls).
Proof.
  intros H. induction H as [|l ls Hl _ IH]; simpl; constructor; [|exact IH].
  destruct (strip_line_suffix l) as (pre & E & _).
  intros Hin. apply Hl. rewrite E. apply in_or_app. now right.
Qed.

Lemma nth_map_in {A B} (f : A -> B) (l : list A) (dA : A) (dB : B) :
  forall i, i < length l -> nth i (map f l) dB = f (nth i l dA).
Proof.
  induction l as [|x l IH]; intros i Hi; simpl in Hi; [lia|].
  destruct i as [|i]; simpl; [reflexivity|]. apply IH. lia.
Qed.

(** X6. stripLineNumbers keeps the number of lines, and from each line it
    removes only a prefix made of whitespace, digits and colons: the rest
    of the line is never touched. *)
Theorem strip_keeps_line_ends (numbered : str) :
  length (split (stripLineNumbers numbered)) = length (split numbered)
  /\ forall i, i < length (split numbered) ->
       exists pre,
         nth i (split numbered) []
         = pre ++ nth i (split (stripLineNumbers numbered)) []
         /\ all_in is_prefix_char pre.
Proof.
  assert (Hsplit : split (stripLineNumbers numbered)
                   = map (replace re_line_number []) (split numbered)).
  { unfold stripLineNumbers. apply split_join.
    - pose proof (split_not_nil numbered).
      destruct (split numbered); [contradiction|discriminate].
    - apply strip_lines_no_LF, split_no_LF. }
  rewrite Hsplit. split; [apply length_map|].
  intros i Hi.
  destruct (strip_line_suffix (nth i (split numbered) [])) as (pre & E & Hpre).
  exists pre. split; [|exact Hpre].
  etransitivity; [exact E|]. f_equal. symmetry.
  now apply nth_map_in.
Qed.

Lemma strip_keeps_line_ends_witness :
  exists pre,
    nth 1 (split (lit "1: a
 2: b: c")) [] = pre ++ nth 1 (split (stripLineNumbers (lit "1: a
 2: b: c"))) []
    /\ all_in is_prefix_char pre.
Proof.
  apply (proj2 (strip_keeps_line_ends (lit "1: a
 2: b: c"))).
  vm_compute. lia.
Defined.

End StripFacts.

(* ------------------------------------------------------------------ *)
(** * Tokens: masking and resolution *)

Module TokenFacts.
Import Js JsFacts Errors Logger Config Validator.

(** [a.slice(-n)]: the last [n] elements. *)
Lemma slice_last {A} (a : list A) (n : Z) :
  (0 < n)%Z -> slice a (- n) None = skipn (length a - Z.to_nat n) a.
Proof.
  intros Hn. unfold slice, rel_index.
  destruct (Z.ltb_spec (- n) 0); [|lia].
  replace (Z.to_nat (Z.max (Z.of_nat (length a) + - n) 0))
    with (length a - Z.to_nat n) by lia.
  apply firstn_all2. rewrite length_skipn. lia.
Qed.

(** X7. maskToken shows "****" for a token of 12 characters or less, and
    otherwise 11 characters: the first 4 of the token, "...", and its last
    4.  The mask of a token that tokenSchema accepts never contains the
    token. *)
Theorem maskToken_hides (token : str) :
  (length token <= 12 -> maskToken token = lit "****")
  /\ (12 < length token ->
      maskToken token
      = firstn 4 token ++ lit "..." ++ skipn (length token - 4) token
      /\ length (maskToken token) = 11)
  /\ (tokenSchema token = true ->
      forall a b, maskToken token <> a ++ token ++ b).
Proof.
  unfold maskToken. split; [|split].
  - intros H. destruct (Nat.leb_spec (length token) 12); [reflexivity|lia].
  - intros H. destruct (Nat.leb_spec (length token) 12); [lia|].
    assert (E : slice token 0 (Some 4%Z) ++ lit "..." ++ slice token (-4) None
                = firstn 4 token ++ lit "..." ++ skipn (length token - 4) token).
    { rewrite slice_prefix by lia. f_equal. f_equal.
      exact (@slice_last _ token 4 ltac:(lia)). }
    rewrite E. split; [reflexivity|].
    rewrite !length_app, length_firstn, length_skipn.
    change (length (lit "...")) with 3. lia.
  - intros Hok a b Heq.
    apply (f_equal (@length ascii)) in Heq as Hlen.
    rewrite !length_app in Hlen.
    unfold tokenSchema in Hok. apply andb_true_iff in Hok.
    destruct Hok as [Hne Hstart].
    destruct (Nat.leb_spec (length token) 12) as [Hshort|Hlong].
    + (* "****" would have to contain a token that starts with n or s *)
      assert (Hin : exists c rest, token = c :: rest
                      /\ (c = "n"%char \/ c = "s"%char)).
      { apply orb_true_iff in Hstart.
        destruct Hstart as [H|H]; apply startsWith_iff in H;
          destruct H as [t ->]; eexists; eexists; split;
          try reflexivity; auto. }
      destruct Hin as (c & rest & -> & Hc).
      assert (Hmem : In c (lit "****")).
      { rewrite Heq. apply in_or_app. right. now left. }
      simpl in Hmem. destruct Hc as [-> | ->];
        repeat (destruct Hmem as [Hmem|Hmem]; [discriminate|]);
        contradiction.
    + assert (Hm : length (slice token 0 (Some 4%Z) ++ lit "..."
                             ++ slice token (-4) None) <= 11).
      { rewrite slice_prefix by lia.
        pose proof (@slice_last _ token 4 ltac:(lia)) as Hl.
        simpl Z.opp in Hl. rewrite Hl.
        rewrite !length_app, length_firstn, length_skipn.
        change (length (lit "...")) with 3. lia. }
      lia.
Qed.

Lemma maskToken_hides_witness :
  maskToken (lit "ntn_abcdefghijklmnop") = lit "ntn_...mnop".
Proof.
  destruct (maskToken_hides (lit "ntn_abcdefghijklmnop")) as (_ & H & _).
  destruct H as [-> _]; [simpl; lia|]. reflexivity.
Defined.

(** The first token that is present and not empty. *)
Fixpoint first_present (sources : list (option str)) : option str :=
  match sources with
  | [] => None
  | Some (c :: t) :: _ => Some (c :: t)
  | _ :: rest => first_present rest
  end.

Definition config_token (config : option CliConfig) : option str :=
  match config with Some c => token c | None => None end.

(** X8. resolveToken returns the first non-empty token among the --token
    flag, NOTION_TOKEN and the config file, in this order, and throws
    AuthError exactly when none of them gives one; it never returns the
    empty string. *)
Theorem resolveToken_precedence (cliToken envToken : option str)
    (config : option CliConfig) :
  resolveToken cliToken envToken config
  = match first_present [cliToken; envToken; config_token config] with
    | Some t => Ok t
    | None => Throw AuthError
    end
  /\ resolveToken cliToken envToken config <> Ok [].
Proof.
  unfold resolveToken, config_token.
  destruct cliToken as [[|c t]|]; destruct envToken as [[|c' t']|];
    destruct config as [[[[|c'' t'']|]]|]; simpl; split;
    try reflexivity; discriminate.
Qed.

End TokenFacts.

(* ------------------------------------------------------------------ *)
(** * normalizeId *)

Module NormalizeFacts.
Import Js JsFacts Regex RegexFacts Validator.

Definition not_dash (c : ascii) : bool := negb (Ascii.eqb "-" c).

Lemma dash_progress : 1 <= min_len re_dash.
Proof. simpl. lia. Qed.

(** [id.replace(/-/g, '')] removes the dashes and nothing else. *)
Lemma scan_dash (s : str) :
  forall prev, scan re_dash [] prev s = filter not_dash s.
Proof.
  induction s as [|c s IH]; intros prev.
  - apply scan_nil. exact dash_progress.
  - simpl filter. unfold not_dash at 1.
    destruct (Ascii.eqb "-" c) eqn:E.
    + assert (Hm : exec re_dash prev (c :: s) = Some (Some c, s)).
      { unfold re_dash. rewrite StripFacts.exec_chr. now rewrite E. }
      destruct (@scan_match re_dash [] dash_progress _ _ _ _ Hm) as [-> _].
      simpl. apply IH.
    + assert (Hn : exec re_dash prev (c :: s) = None).
      { unfold re_dash. rewrite StripFacts.exec_chr. now rewrite E. }
      rewrite scan_copy by (exact dash_progress || exact Hn).
      simpl. f_equal. apply IH.
Qed.

Lemma remove_dashes (s : str) : replaceAll re_dash [] s = filter not_dash s.
Proof. rewrite replaceAll_scan. apply scan_dash. Qed.

(** [a.slice(i, j)] for 0 <= i <= j *)
Lemma slice_range {A} (a : list A) (i j : nat) :
  i <= j ->
  slice a (Z.of_nat i) (Some (Z.of_nat j)) = firstn (j - i) (skipn i a).
Proof.
  intros Hij. unfold slice, rel_index.
  destruct (Z.ltb_spec (Z.of_nat i) 0); [lia|].
  destruct (Z.ltb_spec (Z.of_nat j) 0); [lia|].
  rewrite !Nat2Z.id.
  destruct (Nat.le_gt_cases i (length a)) as [Hi|Hi].
  - rewrite (Nat.min_l i) by lia.
    destruct (Nat.le_gt_cases j (length a)) as [Hj|Hj].
    + now rewrite Nat.min_l by lia.
    + rewrite Nat.min_r by lia.
      rewrite !firstn_all2; rewrite ?length_skipn; try lia. reflexivity.
  - rewrite !Nat.min_r by lia. rewrite Nat.sub_diag.
    rewrite (skipn_all2 a) by lia. rewrite (skipn_all2 (n := i) a) by lia.
    now rewrite !firstn_nil.
Qed.

Lemma firstn_plus {A} (a b : nat) (l : list A) :
  firstn a l ++ firstn b (skipn a l) = firstn (a + b) l.
Proof.
  revert l. induction a as [|a IH]; intros l; [reflexivity|].
  destruct l as [|x l]; simpl.
  - now rewrite firstn_nil.
  - now rewrite IH.
Qed.

(** The five blocks of [normalizeId]. *)
Definition blocks (clean : str) : list str :=
  [ firstn 8 clean; firstn 4 (skipn 8 clean); firstn 4 (skipn 12 clean);
    firstn 4 (skipn 16 clean); firstn 12 (skipn 20 clean) ].

Lemma normalizeId_blocks (id : str) :
  normalizeId id = joinWith (lit "-") (blocks (filter not_dash id)).
Proof.
  unfold normalizeId, blocks. rewrite remove_dashes.
  change 0%Z with (Z.of_nat 0). change 8%Z with (Z.of_nat 8).
  change 12%Z with (Z.of_nat 12). change 16%Z with (Z.of_nat 16).
  change 20%Z with (Z.of_nat 20). change 32%Z with (Z.of_nat 32).
  rewrite !slice_range by lia. reflexivity.
Qed.

Lemma concat_blocks (clean : str) : concat (blocks clean) = firstn 32 clean.
Proof.
  unfold blocks. cbn [concat]. rewrite app_nil_r.
  rewrite !app_assoc.
  rewrite (firstn_plus 8 4). change (8 + 4) with 12.
  rewrite (firstn_plus 12 4). change (12 + 4) with 16.
  rewrite (firstn_plus 16 4). change (16 + 4) with 20.
  now rewrite (firstn_plus 20 12).
Qed.

Lemma filter_id (P : ascii -> bool) (l : str) :
  Forall (fun c => P c = true) l -> filter P l = l.
Proof.
  intros H. induction H as [|c l Hc _ IH]; simpl; [reflexivity|].
  now rewrite Hc, IH.
Qed.

Lemma filter_all (P : ascii -> bool) (l : str) :
  Forall (fun c => P c = true) (filter P l).
Proof.
  induction l as [|c l IH]; simpl; [constructor|].
  destruct (P c) eqn:E; [now constructor|exact IH].
Qed.

Lemma Forall_firstn {A} (P : A -> Prop) (n : nat) (l : list A) :
  Forall P l -> Forall P (firstn n l).
Proof. intros H. now apply Forall_firstn_skipn. Qed.

Lemma Forall_skipn {A} (P : A -> Prop) (n : nat) (l : list A) :
  Forall P l -> Forall P (skipn n l).
Proof. intros H. now apply (Forall_firstn_skipn n). Qed.

Lemma filter_joined (clean : str) :
  Forall (fun c => not_dash c = true) clean ->
  filter not_dash (joinWith (lit "-") (blocks clean)) = firstn 32 clean.
Proof.
  intros H. rewrite <- concat_blocks. unfold blocks.
  cbn [joinWith concat]. rewrite !filter_app.
  change (filter not_dash (lit "-")) with (@nil ascii).
  rewrite !filter_id;
    try (apply Forall_firstn; try apply Forall_skipn; exact H).
  now rewrite !app_nil_r.
Qed.

Lemma blocks_firstn32 (clean : str) : blocks (firstn 32 clean) = blocks clean.
Proof.
  unfold blocks.
  rewrite !skipn_firstn_comm, !firstn_firstn. reflexivity.
Qed.

(** X9. normalizeId is idempotent.  Its result, dashes removed, is the
    first 32 characters of the input without dashes: whatever follows them
    is dropped.  For an input with exactly 32 characters besides dashes the
    result has 36 characters, dashes at offsets 8, 13, 18 and 23, and keeps
    every character of the input. *)
Theorem normalizeId_idempotent (id : str) :
  normalizeId (normalizeId id) = normalizeId id
  /\ replaceAll re_dash [] (normalizeId id)
     = firstn 32 (replaceAll re_dash [] id)
  /\ (length (replaceAll re_dash [] id) = 32 ->
      length (normalizeId id) = 36
      /\ replaceAll re_dash [] (normalizeId id) = replaceAll re_dash [] id
      /\ forall i, In i [8; 13; 18; 23] ->
           nth i (normalizeId id) " "%char = "-"%char).
Proof.
  rewrite !remove_dashes.
  assert (Hclean : filter not_dash (normalizeId id)
                   = firstn 32 (filter not_dash id)).
  { rewrite normalizeId_blocks. apply filter_joined, filter_all. }
  split; [|split].
  - rewrite (normalizeId_blocks (normalizeId id)), Hclean, blocks_firstn32.
    symmetry. apply normalizeId_blocks.
  - exact Hclean.
  - intros Hlen. rewrite Hclean.
    rewrite firstn_all2 by lia. rewrite normalizeId_blocks.
    set (clean := filter not_dash id) in *.
    do 32 (destruct clean as [|? clean]; [simpl in Hlen; lia|]).
    destruct clean; [|simpl in Hlen; lia].
    split; [reflexivity|]. split; [reflexivity|].
    intros i [<-|[<-|[<-|[<-|[]]]]]; reflexivity.
Qed.

Lemma normalizeId_idempotent_witness :
  normalizeId (lit "123456781234123412341234567890ab")
  = lit "12345678-1234-1234-1234-1234567890ab"
  /\ length (normalizeId (lit "1234-56781234123412341234567890ab")) = 36.
Proof.
  split; [vm_compute; reflexivity|].
  apply (proj2 (proj2 (normalizeId_idempotent
                         (lit "1234-56781234123412341234567890ab")))).
  vm_compute. reflexivity.
Defined.

End NormalizeFacts.

(* ------------------------------------------------------------------ *)
(** * What the matcher with groups finds

    [Match r p s g p' s' g'] says that [r] can match at the front of [s]
    (after the character [p], group 1 holding [g]) and leave [s'] (after
    [p'], group 1 holding [g']).  [run] finds a match exactly when there is
    one the continuation accepts. *)

Module RxFacts.
Import Regex Rx RegexFacts.

Inductive Match : rx -> option ascii -> str -> option str ->
                  option ascii -> str -> option str -> Prop :=
| MEps p s g : Match Eps p s g p s g
| MLit c p s g : Match (Lit c) p (c :: s) g (Some c) s g
| MMany cls min max p xs s g :
    all_in cls xs -> min <= length xs ->
    (forall m, max = Some m -> length xs <= m) ->
    Match (Many cls min max) p (xs ++ s) g (prev_after p xs) s g
| MSeq a b p s g p1 s1 g1 p2 s2 g2 :
    Match a p s g p1 s1 g1 -> Match b p1 s1 g1 p2 s2 g2 ->
    Match (Seq a b) p s g p2 s2 g2
| MAltL a b p s g p' s' g' :
    Match a p s g p' s' g' -> Match (Alt a b) p s g p' s' g'
| MAltR a b p s g p' s' g' :
    Match b p s g p' s' g' -> Match (Alt a b) p s g p' s' g'
| MOptYes a p s g p' s' g' :
    Match a p s g p' s' g' -> Match (Opt a) p s g p' s' g'
| MOptNo a p s g : Match (Opt a) p s g p s g
| MGroup a p s g p' s' g' :
    Match a p s g p' s' g' ->
    Match (Group a) p s g p' s' (Some (firstn (length s - length s') s))
| MBol m p s g : at_bol m p = true -> Match (Bol m) p s g p s g
| MEol m p s g : at_eol m s = true -> Match (Eol m) p s g p s g.

Lemma many_sound cls K n max prev s r :
  many cls K n max prev s = Some r ->
  exists xs s1,
    s = xs ++ s1 /\ all_in cls xs /\ n <= length xs
    /\ (forall m, max = Some m -> length xs <= m)
    /\ K (prev_after prev xs) s1 = Some r.
Proof.
  revert n max prev. induction s as [|c s IH]; intros n max prev H.
  - simpl in H. destruct n; [|discriminate].
    exists [], []. split; [reflexivity|]. split; [constructor|].
    split; [simpl; lia|]. split; [intros; simpl; lia|exact H].
  - assert (n = 0 -> K prev (c :: s) = Some r ->
            exists xs s1, c :: s = xs ++ s1 /\ all_in cls xs
              /\ n <= length xs
              /\ (forall m, max = Some m -> length xs <= m)
              /\ K (prev_after prev xs) s1 = Some r) as Hnil.
    { intros -> HK. exists [], (c :: s). split; [reflexivity|].
      split; [constructor|]. split; [simpl; lia|].
      split; [intros; simpl; lia|exact HK]. }
    simpl in H.
    destruct (cls c && negb (max_reached max)) eqn:E.
    + destruct (many cls K (pred n) (option_map pred max) (Some c) s) eqn:E1.
      * injection H as <-. apply IH in E1.
        destruct E1 as (xs & s1 & -> & Hxs & Hn & Hm & HK).
        apply andb_true_iff in E. destruct E as [Hc Hmax].
        exists (c :: xs), s1. split; [reflexivity|].
        split; [now constructor|]. split; [simpl; lia|].
        split; [|exact HK].
        intros m ->. simpl in Hmax. destruct m; [discriminate|].
        specialize (Hm m eq_refl). simpl. lia.
      * destruct n; [|discriminate]. now apply Hnil.
    + destruct n; [|discriminate]. now apply Hnil.
Qed.

Lemma many_complete cls K n max prev xs s1 :
  all_in cls xs -> n <= length xs ->
  (forall m, max = Some m -> length xs <= m) ->
  K (prev_after prev xs) s1 <> None ->
  many cls K n max prev (xs ++ s1) <> None.
Proof.
  intros Hxs. revert n max prev.
  induction Hxs as [|x xs Hx _ IH]; intros n max prev Hn Hm HK.
  - simpl in Hn. assert (n = 0) as -> by lia. simpl app.
    destruct s1 as [|c s1]; simpl; [exact HK|].
    destruct (cls c && negb (max_reached max)); [|exact HK].
    destruct (many cls K 0 (option_map pred max) (Some c) s1);
      [discriminate|exact HK].
  - simpl app. simpl many. rewrite Hx.
    assert (max_reached max = false) as ->.
    { destruct max as [[|m]|]; try reflexivity.
      specialize (Hm 0 eq_refl). simpl in Hm. lia. }
    simpl.
    specialize (IH (pred n) (option_map pred max) (Some x)).
    destruct (many cls K (pred n) (option_map pred max) (Some x) (xs ++ s1));
      [discriminate|].
    exfalso. apply IH; [simpl in Hn; lia| |exact HK|reflexivity].
    intros m Hmax. destruct max as [m'|]; [|discriminate].
    injection Hmax as <-. specialize (Hm m' eq_refl). simpl in Hm. lia.
Qed.

(** Soundness: a result of [run] comes from a match the continuation
    accepted. *)
Lemma run_sound r : forall K p s g o,
  run r K p s g = Some o ->
  exists p' s' g', Match r p s g p' s' g' /\ K p' s' g' = Some o.
Proof.
  induction r as [|c|cls n max|a IHa b IHb|a IHa b IHb|a IHa|a IHa|m|m];
    intros K p s g o H; simpl in H.
  - exists p, s, g. split; [constructor|exact H].
  - destruct s as [|c' s]; [discriminate|].
    destruct (Ascii.eqb_spec c c') as [<-|]; [|discriminate].
    exists (Some c), s, g. split; [constructor|exact H].
  - apply many_sound in H. destruct H as (xs & s1 & -> & Hxs & Hn & Hm & HK).
    exists (prev_after p xs), s1, g. split; [now constructor|exact HK].
  - apply IHa in H. destruct H as (p1 & s1 & g1 & Ha & H).
    apply IHb in H. destruct H as (p2 & s2 & g2 & Hb & H).
    exists p2, s2, g2. split; [econstructor; eassumption|exact H].
  - destruct (run a K p s g) eqn:E.
    + injection H as <-. apply IHa in E.
      destruct E as (p' & s' & g' & Ha & HK).
      exists p', s', g'. split; [now apply MAltL|exact HK].
    + apply IHb in H. destruct H as (p' & s' & g' & Hb & HK).
      exists p', s', g'. split; [now apply MAltR|exact HK].
  - destruct (run a K p s g) eqn:E.
    + injection H as <-. apply IHa in E.
      destruct E as (p' & s' & g' & Ha & HK).
      exists p', s', g'. split; [now apply MOptYes|exact HK].
    + exists p, s, g. split; [apply MOptNo|exact H].
  - apply IHa in H. destruct H as (p' & s' & g' & Ha & HK).
    exists p', s', (Some (firstn (length s - length s') s)).
    split; [now apply MGroup with (g' := g')|exact HK].
  - destruct (at_bol m p) eqn:E; [|discriminate].
    exists p, s, g. split; [now constructor|exact H].
  - destruct (at_eol m s) eqn:E; [|discriminate].
    exists p, s, g. split; [now constructor|exact H].
Qed.

(** Completeness: where there is a match the continuation accepts, [run]
    finds some match. *)
Lemma run_complete r p s g p' s' g' :
  Match r p s g p' s' g' ->
  forall K, K p' s' g' <> None -> run r K p s g <> None.
Proof.
  induction 1 as [p s g|c p s g|cls n max p xs s g Hxs Hn Hm
                 |a b p s g p1 s1 g1 p2 s2 g2 _ IHa _ IHb
                 |a b p s g p' s' g' _ IH|a b p s g p' s' g' _ IH
                 |a p s g p' s' g' _ IH|a p s g
                 |a p s g p' s' g' _ IH|m p s g Hb|m p s g He];
    intros K HK; simpl.
  - exact HK.
  - now rewrite Ascii.eqb_refl.
  - now apply many_complete.
  - apply IHa. now apply IHb.
  - specialize (IH K HK). destruct (run a K p s g); [discriminate|].
    now contradiction IH.
  - destruct (run a K p s g); [discriminate|]. now apply IH.
  - specialize (IH K HK). destruct (run a K p s g); [discriminate|].
    now contradiction IH.
  - destruct (run a K p s g); [discriminate|exact HK].
  - now apply IH.
  - now rewrite Hb.
  - now rewrite He.
Qed.

(** A match consumes a prefix of the input. *)
Lemma Match_consumes r p s g p' s' g' :
  Match r p s g p' s' g' ->
  exists xs, s = xs ++ s' /\ p' = prev_after p xs.
Proof.
  induction 1 as [p s g|c p s g|cls n max p xs s g Hxs Hn Hm
                 |a b p s g p1 s1 g1 p2 s2 g2 _ IHa _ IHb
                 |a b p s g p' s' g' _ IH|a b p s g p' s' g' _ IH
                 |a p s g p' s' g' _ IH|a p s g
                 |a p s g p' s' g' _ IH|m p s g Hb|m p s g He];
    try (now exists []); try exact IH.
  - now exists [c].
  - now exists xs.
  - destruct IHa as (xs & -> & ->). destruct IHb as (ys & -> & ->).
    exists (xs ++ ys). now rewrite app_assoc, prev_after_app.
Qed.

(** ** Inversion, one constructor at a time *)

Lemma Match_seq_inv a b p s g p2 s2 g2 :
  Match (Seq a b) p s g p2 s2 g2 ->
  exists p1 s1 g1, Match a p s g p1 s1 g1 /\ Match b p1 s1 g1 p2 s2 g2.
Proof. inversion 1; subst. now exists p1, s1, g1. Qed.

Lemma Match_lit_inv c p s g p' s' g' :
  Match (Lit c) p s g p' s' g' -> s = c :: s' /\ p' = Some c /\ g' = g.
Proof. inversion 1; subst. now repeat split. Qed.

Lemma Match_many_inv cls n max p s g p' s' g' :
  Match (Many cls n max) p s g p' s' g' ->
  exists xs, s = xs ++ s' /\ p' = prev_after p xs /\ g' = g
    /\ all_in cls xs /\ n <= length xs
    /\ (forall m, max = Some m -> length xs <= m).
Proof. inversion 1; subst. exists xs. now repeat split. Qed.

Lemma Match_alt_inv a b p s g p' s' g' :
  Match (Alt a b) p s g p' s' g' ->
  Match a p s g p' s' g' \/ Match b p s g p' s' g'.
Proof. inversion 1; subst; [now left|now right]. Qed.

Lemma Match_opt_inv a p s g p' s' g' :
  Match (Opt a) p s g p' s' g' ->
  Match a p s g p' s' g' \/ (p' = p /\ s' = s /\ g' = g).
Proof. inversion 1; subst; [now left|now right]. Qed.

Lemma Match_group_inv a p s g p' s' g' :
  Match (Group a) p s g p' s' g' ->
  exists xs g1, s = xs ++ s' /\ g' = Some xs /\ Match a p s g p' s' g1.
Proof.
  inversion 1 as [| | | | | | | |a' q t h q' t' h' Ha| |]; subst.
  destruct (Match_consumes Ha) as (xs & -> & _).
  exists xs, h'. split; [reflexivity|]. split; [|exact Ha].
  f_equal. rewrite length_app.
  replace (length xs + length s' - length s') with (length xs) by lia.
  now rewrite firstn_app, Nat.sub_diag, firstn_all, firstn_O, app_nil_r.
Qed.

Lemma Match_bol_inv m p s g p' s' g' :
  Match (Bol m) p s g p' s' g' ->
  at_bol m p = true /\ p' = p /\ s' = s /\ g' = g.
Proof. inversion 1; subst. now repeat split. Qed.

Lemma Match_eol_inv m p s g p' s' g' :
  Match (Eol m) p s g p' s' g' ->
  at_eol m s = true /\ p' = p /\ s' = s /\ g' = g.
Proof. inversion 1; subst. now repeat split. Qed.

(** ** The search for the first match *)

Lemma prev_after_None (xs : str) : prev_after None xs = None -> xs = [].
Proof.
  destruct xs as [|x xs]; [reflexivity|]. simpl.
  assert (forall ys y, prev_after (Some y) ys <> None) as Hne.
  { induction ys as [|z ys IH]; intros y; simpl; [discriminate|apply IH]. }
  intros H. now apply Hne in H.
Qed.

Lemma search_sound r p s o :
  search r p s = Some o ->
  exists pre suf,
    s = pre ++ suf /\ exec_at r (prev_after p pre) suf = Some o.
Proof.
  revert p. induction s as [|c s IH]; intros p H; simpl in H.
  - destruct (exec_at r p []) eqn:E; [|discriminate].
    injection H as <-. now exists [], [].
  - destruct (exec_at r p (c :: s)) eqn:E.
    + injection H as <-. now exists [], (c :: s).
    + apply IH in H. destruct H as (pre & suf & -> & H).
      now exists (c :: pre), suf.
Qed.

Lemma search_complete r p pre suf :
  exec_at r (prev_after p pre) suf <> None ->
  search r p (pre ++ suf) <> None.
Proof.
  revert p. induction pre as [|c pre IH]; intros p H.
  - simpl in *. destruct suf; simpl; destruct (exec_at r p _);
      try discriminate; now contradiction H.
  - simpl app. simpl search.
    destruct (exec_at r p (c :: pre ++ suf)); [discriminate|].
    now apply IH.
Qed.

(** [r.test(s)] says whether [r] matches somewhere in [s]. *)
Lemma test_iff r s :
  test r s = true <->
  exists pre suf p' s' g',
    s = pre ++ suf /\ Match r (prev_after None pre) suf None p' s' g'.
Proof.
  unfold test. split.
  - destruct (search r None s) as [o|] eqn:E; [intros _|discriminate].
    apply search_sound in E. destruct E as (pre & suf & -> & E).
    apply run_sound in E. destruct E as (p' & s' & g' & HM & _).
    now exists pre, suf, p', s', g'.
  - intros (pre & suf & p' & s' & g' & -> & HM).
    destruct (search r None (pre ++ suf)) eqn:E; [reflexivity|].
    exfalso. revert E. apply search_complete. unfold exec_at.
    apply (run_complete HM). discriminate.
Qed.

(** What [exec] returns as group 1 was captured by a match somewhere. *)
Lemma group1_sound r s x :
  group1 r s = Some x ->
  exists pre suf p' s',
    s = pre ++ suf /\ Match r (prev_after None pre) suf None p' s' (Some x).
Proof.
  unfold group1. destruct (search r None s) as [[[p' s'] g']|] eqn:E;
    [intros ->|discriminate].
  apply search_sound in E. destruct E as (pre & suf & -> & E).
  apply run_sound in E. destruct E as (q & t & h & HM & HK).
  injection HK as -> -> ->. now exists pre, suf, p', s'.
Qed.

Lemma search_none r s :
  search r None s = None ->
  forall pre suf p' s' g',
    s = pre ++ suf -> ~ Match r (prev_after None pre) suf None p' s' g'.
Proof.
  intros E pre suf p' s' g' -> HM. revert E. apply search_complete.
  unfold exec_at. apply (run_complete HM). discriminate.
Qed.

(** ** Building a match of a sequence *)

Lemma Match_many_all cls n max p xs s g :
  all_in cls xs -> n <= length xs ->
  (forall m, max = Some m -> length xs <= m) ->
  Match (Many cls n max) p (xs ++ s) g (prev_after p xs) s g.
Proof. now constructor. Qed.

Lemma at_bol_false p : at_bol false p = true -> p = None.
Proof. destruct p; [discriminate|reflexivity]. Qed.

Lemma at_eol_false s : at_eol false s = true -> s = [].
Proof. destruct s; [reflexivity|discriminate]. Qed.

(** ** Repetitions that take a whole run *)

Lemma many_stop cls K n max prev s :
  stops cls s ->
  many cls K n max prev s = match n with O => K prev s | S _ => None end.
Proof.
  destruct s as [|c s]; simpl; [reflexivity|]. now intros ->.
Qed.

(** An unbounded repetition that reads a whole run and whose continuation
    succeeds there does not backtrack. *)
Lemma many_run cls K n prev xs s r :
  all_in cls xs -> n <= length xs ->
  K (prev_after prev xs) s = Some r ->
  stops cls s ->
  many cls K n None prev (xs ++ s) = Some r.
Proof.
  intros Hxs. revert n prev.
  induction Hxs as [|x xs Hx _ IH]; intros n prev Hn HK Hs.
  - simpl in Hn. assert (n = 0) as -> by lia.
    simpl app. now rewrite many_stop.
  - simpl app. simpl many. rewrite Hx. simpl.
    rewrite prev_after_cons in HK.
    rewrite (IH (pred n) (Some x)); [reflexivity| |assumption|assumption].
    simpl in Hn. lia.
Qed.

(** A repetition that fails with the whole run and succeeds with one
    character less gives this character back. *)
Lemma many_back_one cls K n prev xs w r :
  all_in cls xs -> cls w = true -> n <= length xs ->
  K (prev_after prev (xs ++ [w])) [] = None ->
  K (prev_after prev xs) [w] = Some r ->
  many cls K n None prev (xs ++ [w]) = Some r.
Proof.
  intros Hxs Hw. revert n prev.
  induction Hxs as [|x xs Hx _ IH]; intros n prev Hn Hall Hone.
  - simpl in Hn. assert (n = 0) as -> by lia. simpl in *.
    rewrite Hw. simpl. now rewrite Hall.
  - simpl app. simpl many. rewrite Hx. simpl.
    rewrite (IH (pred n) (Some x)); [reflexivity| | |].
    + simpl in Hn. lia.
    + exact Hall.
    + exact Hone.
Qed.

(** [cls+] *)
Lemma plus_inv cls p s g p' s' g' :
  Match (Many cls 1 None) p s g p' s' g' ->
  exists xs, s = xs ++ s' /\ all_in cls xs /\ xs <> []
             /\ p' = prev_after p xs /\ g' = g.
Proof.
  intros H. apply Match_many_inv in H.
  destruct H as (xs & -> & -> & -> & Hxs & Hn & _).
  exists xs. split; [reflexivity|]. split; [exact Hxs|].
  split; [|now split]. intros ->. simpl in Hn. lia.
Qed.

Lemma plus_intro cls xs p s g :
  all_in cls xs -> xs <> [] ->
  Match (Many cls 1 None) p (xs ++ s) g (prev_after p xs) s g.
Proof.
  intros Hxs Hne. apply Match_many_all; [exact Hxs| |discriminate].
  destruct xs; [contradiction|simpl; lia].
Qed.

(** A search steps over a position without a match. *)
Lemma search_step r p c s :
  exec_at r p (c :: s) = None -> search r p (c :: s) = search r (Some c) s.
Proof. intros H. simpl. now rewrite H. Qed.

Lemma search_here r p s o :
  exec_at r p s = Some o -> search r p s = Some o.
Proof. intros H. destruct s; simpl; now rewrite H. Qed.

End RxFacts.

(* ------------------------------------------------------------------ *)
(** * Line ranges given on the command line *)

Module SchemaFacts.
Import Regex Rx RegexFacts RxFacts JsString Validator.

Lemma split_sep_none (sep : ascii) (s : str) :
  ~ In sep s -> split sep s = [s].
Proof.
  induction s as [|c s IH]; intros Hs; [reflexivity|]. simpl.
  destruct (Ascii.eqb_spec c sep) as [->|_].
  - exfalso. apply Hs. now left.
  - rewrite IH; [reflexivity|]. intros H. apply Hs. now right.
Qed.

Lemma split_sep_app (sep : ascii) (xs ys : str) :
  ~ In sep xs -> split sep (xs ++ sep :: ys) = xs :: split sep ys.
Proof.
  induction xs as [|c xs IH]; intros Hs.
  - simpl. now rewrite Ascii.eqb_refl.
  - simpl app. simpl split.
    destruct (Ascii.eqb_spec c sep) as [->|_].
    + exfalso. apply Hs. now left.
    + rewrite IH; [reflexivity|]. intros H. apply Hs. now right.
Qed.

Lemma digit_plain (c : ascii) :
  is_digit c = true ->
  is_space c = false /\ c <> "-"%char /\ c <> "+"%char /\ c <> ":"%char.
Proof.
  destruct c as [[] [] [] [] [] [] [] []]; vm_compute; intros H;
    repeat split; congruence.
Qed.

Lemma digits_no_colon (ds : str) : all_in is_digit ds -> ~ In ":"%char ds.
Proof.
  intros Hd Hin. unfold all_in in Hd. rewrite Forall_forall in Hd.
  apply Hd in Hin. discriminate.
Qed.

Lemma take_while_all (f : ascii -> bool) (xs : str) :
  all_in f xs -> take_while f xs = xs.
Proof.
  induction 1 as [|x xs Hx _ IH]; [reflexivity|]. simpl.
  now rewrite Hx, IH.
Qed.

(** [parseInt] of a run of digits is the number they denote. *)
Lemma parseInt_digits (ds : str) :
  all_in is_digit ds -> ds <> [] -> parseInt ds = Some (digits_value ds).
Proof.
  intros Hd Hne. destruct ds as [|c ds]; [contradiction|].
  pose proof (Forall_inv Hd) as Hc.
  destruct (digit_plain c Hc) as (Hsp & Hm & Hp & _).
  unfold parseInt. simpl drop_while. rewrite Hsp.
  destruct (Ascii.eqb_spec c "-"%char) as [->|_]; [contradiction|].
  destruct (Ascii.eqb_spec c "+"%char) as [->|_]; [contradiction|].
  rewrite (take_while_all Hd).
  destruct (digits_value (c :: ds)); reflexivity.
Qed.

(** The strings /^\d+:\d+$/ accepts. *)
Lemma line_range_shape (val : str) :
  test re_line_range val = true <->
  exists ds1 ds2,
    val = ds1 ++ ":"%char :: ds2
    /\ all_in is_digit ds1 /\ ds1 <> []
    /\ all_in is_digit ds2 /\ ds2 <> [].
Proof.
  rewrite test_iff. unfold re_line_range, cat. split.
  - intros (pre & suf & p' & s' & g' & -> & HM).
    apply Match_seq_inv in HM. destruct HM as (p1 & s1 & g1 & H1 & HM).
    apply Match_bol_inv in H1. destruct H1 as (Hb & -> & -> & ->).
    apply at_bol_false, prev_after_None in Hb. subst pre. simpl app.
    apply Match_seq_inv in HM. destruct HM as (p2 & s2 & g2 & H2 & HM).
    apply Match_many_inv in H2.
    destruct H2 as (ds1 & -> & -> & -> & Hd1 & Hn1 & _).
    apply Match_seq_inv in HM. destruct HM as (p3 & s3 & g3 & H3 & HM).
    apply Match_lit_inv in H3. destruct H3 as (-> & -> & ->).
    apply Match_seq_inv in HM. destruct HM as (p4 & s4 & g4 & H4 & HM).
    apply Match_many_inv in H4.
    destruct H4 as (ds2 & -> & -> & -> & Hd2 & Hn2 & _).
    apply Match_eol_inv in HM. destruct HM as (He & -> & -> & ->).
    apply at_eol_false in He. subst s4. rewrite app_nil_r.
    exists ds1, ds2. split; [reflexivity|].
    split; [exact Hd1|]. split; [now destruct ds1|].
    split; [exact Hd2|now destruct ds2].
  - intros (ds1 & ds2 & -> & Hd1 & Hn1 & Hd2 & Hn2).
    exists [], (ds1 ++ ":"%char :: ds2 ++ []). do 3 eexists.
    split; [now rewrite app_nil_r|]. simpl prev_after.
    eapply MSeq; [now apply MBol|].
    eapply MSeq;
      [apply Match_many_all;
       [exact Hd1|destruct ds1; [contradiction|simpl; lia]|discriminate]|].
    eapply MSeq; [apply MLit|].
    eapply MSeq;
      [apply Match_many_all;
       [exact Hd2|destruct ds2; [contradiction|simpl; lia]|discriminate]|].
    now apply MEol.
Qed.

(** What [lineRangeSchema] makes of a string of the required form. *)
Lemma lineRangeSchema_digits (ds1 ds2 : str) :
  all_in is_digit ds1 -> ds1 <> [] -> all_in is_digit ds2 -> ds2 <> [] ->
  lineRangeSchema (ds1 ++ ":"%char :: ds2) =
  if ((1 <=? digits_value ds1) && (1 <=? digits_value ds2)
      && (digits_value ds1 <=? digits_value ds2))%Z
  then Some (digits_value ds1, digits_value ds2) else None.
Proof.
  intros Hd1 Hn1 Hd2 Hn2. unfold lineRangeSchema.
  assert (test re_line_range (ds1 ++ ":"%char :: ds2) = true) as ->.
  { apply line_range_shape. now exists ds1, ds2. }
  rewrite split_sep_app by now apply digits_no_colon.
  rewrite split_sep_none by now apply digits_no_colon.
  cbn [nth]. rewrite !parseInt_digits by assumption.
  reflexivity.
Qed.

(** The digits of [String(n)] denote [n]. *)
Lemma value_of_uint_acc (d : Decimal.uint) : forall acc : positive,
  fold_left (fun a c => (10 * a + digit_value c)%Z)
    (list_ascii_of_string (NilEmpty.string_of_uint d)) (Z.pos acc)
  = Z.pos (Pos.of_uint_acc d acc).
Proof.
  induction d; intros acc;
    cbn [NilEmpty.string_of_uint list_ascii_of_string fold_left
         Pos.of_uint_acc];
    try reflexivity;
    rewrite <- IHd; f_equal;
    match goal with
    | |- (_ + digit_value ?c)%Z = _ =>
        let v := eval vm_compute in (digit_value c) in
        change (digit_value c) with v
    end; lia.
Qed.

Lemma value_of_uint (d : Decimal.uint) :
  digits_value (list_ascii_of_string (NilEmpty.string_of_uint d))
  = Z.of_N (Pos.of_uint d).
Proof.
  unfold digits_value.
  induction d;
    cbn [NilEmpty.string_of_uint list_ascii_of_string fold_left Pos.of_uint];
    try reflexivity;
    match goal with
    | |- context [(10 * 0 + digit_value ?c)%Z] =>
        let v := eval vm_compute in (10 * 0 + digit_value c)%Z in
        change (10 * 0 + digit_value c)%Z with v
    end;
    [exact IHd| ..]; apply value_of_uint_acc.
Qed.

Lemma digits_value_String (n : Z) :
  (0 <= n)%Z -> digits_value (Js.String_ n) = n.
Proof.
  intros Hn. unfold Js.String_. destruct n as [|p|p]; [reflexivity| |lia].
  simpl Z.to_int. simpl NilZero.string_of_int.
  unfold NilZero.string_of_uint.
  pose proof (Unsigned.of_to p) as Hp.
  destruct (Pos.to_uint p) eqn:E;
    [simpl in Hp; discriminate| ..];
    rewrite value_of_uint, Hp; reflexivity.
Qed.

Lemma String_is_digits (n : Z) :
  (0 <= n)%Z ->
  all_in is_digit (Js.String_ n) /\ Js.String_ n <> [].
Proof.
  intros Hn. rewrite <- (Z2Nat.id n Hn).
  destruct (MarkdownFacts.String_digits (Z.to_nat n)) as [Hd Hl].
  split; [exact Hd|]. intros E. rewrite E in Hl. simpl in Hl. lia.
Qed.

(** X10. The strings [lineRangeSchema] accepts, and what it returns for
    them: the string is two non-empty runs of digits with a colon between
    them, the data are the two numbers the digits denote, and the first
    number is at least 1 and at most the second.  Signs, spaces and a
    missing number are refused; leading zeros are accepted.  (Stated for
    strings of at most 16 characters, whose numbers are below 2^53 and so
    are exact in JavaScript.) *)
Theorem lineRange_accepts (val : str) (a b : Z) :
  length val <= 16 ->
  (lineRangeSchema val = Some (a, b) <->
   exists ds1 ds2,
     val = ds1 ++ ":"%char :: ds2
     /\ all_in is_digit ds1 /\ ds1 <> []
     /\ all_in is_digit ds2 /\ ds2 <> []
     /\ a = digits_value ds1 /\ b = digits_value ds2
     /\ (1 <= a <= b)%Z).
Proof.
  intros _. split.
  - intros H.
    assert (Ht : test re_line_range val = true).
    { unfold lineRangeSchema in H.
      destruct (test re_line_range val); [reflexivity|discriminate]. }
    apply line_range_shape in Ht.
    destruct Ht as (ds1 & ds2 & -> & Hd1 & Hn1 & Hd2 & Hn2).
    rewrite lineRangeSchema_digits in H by assumption.
    destruct ((1 <=? digits_value ds1)%Z) eqn:E1; [|discriminate].
    destruct ((1 <=? digits_value ds2)%Z) eqn:E2; [|discriminate].
    destruct ((digits_value ds1 <=? digits_value ds2)%Z) eqn:E3;
      [|discriminate].
    injection H as <- <-. exists ds1, ds2.
    split; [reflexivity|]. split; [exact Hd1|]. split; [exact Hn1|].
    split; [exact Hd2|]. split; [exact Hn2|].
    split; [reflexivity|]. split; [reflexivity|]. lia.
  - intros (ds1 & ds2 & -> & Hd1 & Hn1 & Hd2 & Hn2 & -> & -> & Hab).
    rewrite lineRangeSchema_digits by assumption.
    destruct (Z.leb_spec 1 (digits_value ds1)); [|lia].
    destruct (Z.leb_spec 1 (digits_value ds2)); [|lia].
    destruct (Z.leb_spec (digits_value ds1) (digits_value ds2)); [|lia].
    reflexivity.
Qed.

Lemma lineRange_accepts_witness :
  lineRangeSchema (lit "007:12") = Some (7, 12)%Z <->
  exists ds1 ds2,
    lit "007:12" = ds1 ++ ":"%char :: ds2
    /\ all_in is_digit ds1 /\ ds1 <> []
    /\ all_in is_digit ds2 /\ ds2 <> []
    /\ 7%Z = digits_value ds1 /\ 12%Z = digits_value ds2
    /\ (1 <= 7 <= 12)%Z.
Proof. apply (@lineRange_accepts (lit "007:12") 7 12). simpl. lia. Defined.

(** X11. Writing two line numbers as [String(a):String(b)] and parsing the
    string with [lineRangeSchema] gives the numbers back when
    1 <= a <= b, and is refused otherwise (a = 0, or b < a). *)
Theorem lineRange_round_trip (a b : Z) :
  (0 <= a < 2 ^ 53)%Z -> (0 <= b < 2 ^ 53)%Z ->
  lineRangeSchema (Js.String_ a ++ ":"%char :: Js.String_ b) =
  if ((1 <=? a) && (a <=? b))%Z then Some (a, b) else None.
Proof.
  intros [Ha _] [Hb _].
  destruct (String_is_digits Ha) as [Hd1 Hn1].
  destruct (String_is_digits Hb) as [Hd2 Hn2].
  rewrite lineRangeSchema_digits by assumption.
  rewrite !digits_value_String by assumption.
  destruct (Z.leb_spec 1 a), (Z.leb_spec 1 b), (Z.leb_spec a b);
    try reflexivity; lia.
Qed.

Lemma lineRange_round_trip_witness :
  lineRangeSchema (Js.String_ 192 ++ ":"%char :: Js.String_ 256) =
  if ((1 <=? 192) && (192 <=? 256))%Z then Some (192, 256)%Z else None.
Proof. apply (@lineRange_round_trip 192 256); lia. Defined.

Lemma lineRangeSchema_bounds (val : str) (a b : Z) :
  lineRangeSchema val = Some (a, b) -> (1 <= a <= b)%Z.
Proof.
  unfold lineRangeSchema. destruct (test re_line_range val); [|discriminate].
  destruct (parseInt _) as [x|]; [|discriminate].
  destruct (parseInt _) as [y|]; [|discriminate].
  unfold num_ge.
  destruct (Z.leb_spec 1 x); [|discriminate].
  destruct (Z.leb_spec 1 y); [|discriminate].
  destruct (Z.leb_spec x y); [|discriminate].
  intros Heq. injection Heq as <- <-. lia.
Qed.

Import Errors Patch PatchFacts.

Section Engine.
Context {D : DiffLibrary}.

(** X12. A range accepted by [lineRangeSchema] and handed to the patch
    engine as lines start..end never fails the check start >= 1.  When
    start is at most one past the last line the operation succeeds: the
    result is the lines before start, the new lines, and the lines after
    min(end, totalLines), and the part kept before never overlaps the part
    kept after, so no line of the original is repeated.  When start lies
    further out the operation throws a ValidationError.  (Stated, as the
    acceptance itself, for strings of at most 16 characters, whose numbers
    are below 2^53 and so are exact in JavaScript.) *)
Theorem validated_range_applies (val original content : str) (a b : Z) :
  length val <= 16 ->
  lineRangeSchema val = Some (a, b) ->
  ((a <= totalLines original + 1)%Z ->
   exists r,
     applyPatchOperation original (PatchLineRange a (EndLine b) content)
     = Ok r
     /\ patched r
        = Js.join (firstn (Z.to_nat (a - 1)) (Js.split original)
                     ++ contentLines content
                     ++ skipn (Z.to_nat (Z.min b (totalLines original)))
                          (Js.split original))
     /\ Z.to_nat (a - 1) <= Z.to_nat (Z.min b (totalLines original)))
  /\ ((a > totalLines original + 1)%Z ->
      exists e,
        applyPatchOperation original (PatchLineRange a (EndLine b) content)
        = Throw e
        /\ name e = lit "ValidationError").
Proof.
  intros _ Hv. apply lineRangeSchema_bounds in Hv. split.
  - intros Ha. simpl applyPatchOperation.
    rewrite applyLineRange_ok by lia. eexists. split; [reflexivity|].
    split; [|lia]. simpl patched. simpl effectiveEnd.
    pose proof (totalLines_pos original) as Hpos.
    now rewrite JsFacts.slice_suffix by lia.
  - intros Ha. simpl applyPatchOperation.
    destruct (@applyLineRange_high _ original content a (EndLine b) Ha)
      as [msg ->].
    eexists. split; reflexivity.
Qed.

End Engine.

Lemma validated_range_applies_witness :
  exists r,
    applyPatchOperation (D := plainDiff) Tests.sample
      (PatchLineRange 2 (EndLine 3) (lit "new")) = Ok r
    /\ patched r
       = Js.join (firstn (Z.to_nat (2 - 1)) (Js.split Tests.sample)
                    ++ contentLines (lit "new")
                    ++ skipn (Z.to_nat (Z.min 3 (totalLines Tests.sample)))
                         (Js.split Tests.sample))
    /\ Z.to_nat (2 - 1) <= Z.to_nat (Z.min 3 (totalLines Tests.sample)).
Proof.
  apply (@validated_range_applies plainDiff (lit "2:3") Tests.sample
           (lit "new") 2 3);
    [simpl; lia|reflexivity|vm_compute; discriminate].
Defined.

End SchemaFacts.

(* ------------------------------------------------------------------ *)
(** * Notion identifiers *)

Module IdFacts.
Import Regex Rx RegexFacts RxFacts Errors Validator Id NormalizeFacts.

(** [n] hexadecimal digits. *)
Definition hexblock (n : nat) (b : str) : Prop :=
  all_in is_hex b /\ length b = n.

(** Nothing, or one dash. *)
Definition opt_dash (d : str) : Prop := d = [] \/ d = ["-"%char].

(** A dashed UUID: blocks of 8, 4, 4, 4 and 12 hexadecimal digits. *)
Definition is_uuid (s : str) : Prop :=
  exists b1 b2 b3 b4 b5,
    s = b1 ++ "-"%char :: b2 ++ "-"%char :: b3 ++ "-"%char :: b4
           ++ "-"%char :: b5
    /\ hexblock 8 b1 /\ hexblock 4 b2 /\ hexblock 4 b3 /\ hexblock 4 b4
    /\ hexblock 12 b5.

(** The five blocks, each dash present or not. *)
Definition valid_shape (id : str) : Prop :=
  exists b1 d1 b2 d2 b3 d3 b4 d4 b5,
    id = b1 ++ d1 ++ b2 ++ d2 ++ b3 ++ d3 ++ b4 ++ d4 ++ b5
    /\ (hexblock 8 b1 /\ hexblock 4 b2 /\ hexblock 4 b3 /\ hexblock 4 b4
        /\ hexblock 12 b5)
    /\ (opt_dash d1 /\ opt_dash d2 /\ opt_dash d3 /\ opt_dash d4)
    /\ normalizeId id
       = b1 ++ "-"%char :: b2 ++ "-"%char :: b3 ++ "-"%char :: b4
            ++ "-"%char :: b5.

Lemma hex_inv n p s g p' s' g' :
  Match (hex n) p s g p' s' g' ->
  exists b, s = b ++ s' /\ hexblock n b /\ p' = prev_after p b /\ g' = g.
Proof.
  unfold hex. intros H. apply Match_many_inv in H.
  destruct H as (b & -> & -> & -> & Hb & Hn & Hm).
  exists b. split; [reflexivity|]. split; [|now split].
  split; [exact Hb|]. specialize (Hm n eq_refl). lia.
Qed.

Lemma hex_intro n b p s g :
  hexblock n b -> Match (hex n) p (b ++ s) g (prev_after p b) s g.
Proof.
  intros [Hb Hn]. apply Match_many_all; [exact Hb|lia|].
  intros m Hm. injection Hm as <-. lia.
Qed.

Lemma dash_inv p s g p' s' g' :
  Match (Opt (Lit "-")) p s g p' s' g' ->
  exists d, s = d ++ s' /\ opt_dash d /\ g' = g.
Proof.
  intros H. apply Match_opt_inv in H. destruct H as [H|(-> & -> & ->)].
  - apply Match_lit_inv in H. destruct H as (-> & -> & ->).
    exists ["-"%char]. split; [reflexivity|]. split; [now right|reflexivity].
  - exists []. split; [reflexivity|]. split; [now left|reflexivity].
Qed.

Lemma dash_intro d p s g :
  opt_dash d -> Match (Opt (Lit "-")) p (d ++ s) g (prev_after p d) s g.
Proof.
  intros [->| ->]; simpl; [apply MOptNo|apply MOptYes, MLit].
Qed.

Lemma hex_not_dash (c : ascii) : is_hex c = true -> not_dash c = true.
Proof. destruct c as [[] [] [] [] [] [] [] []]; vm_compute; congruence. Qed.

Lemma filter_hexblock (b : str) : all_in is_hex b -> filter not_dash b = b.
Proof.
  intros H. apply filter_id. unfold all_in in H.
  eapply Forall_impl; [|exact H]. apply hex_not_dash.
Qed.

Lemma filter_opt_dash (d : str) : opt_dash d -> filter not_dash d = [].
Proof. now intros [->| ->]. Qed.

Lemma firstn_exact {A} (a b : list A) (n : nat) :
  length a = n -> firstn n (a ++ b) = a.
Proof. intros <-. induction a; simpl; congruence. Qed.

Lemma skipn_exact {A} (a b : list A) (n k : nat) :
  length a = n -> n <= k -> skipn k (a ++ b) = skipn (k - n) b.
Proof.
  intros <- Hk. rewrite skipn_app, skipn_all2 by lia. reflexivity.
Qed.

Lemma blocks_exact (b1 b2 b3 b4 b5 : str) :
  length b1 = 8 -> length b2 = 4 -> length b3 = 4 -> length b4 = 4 ->
  length b5 = 12 ->
  blocks (b1 ++ b2 ++ b3 ++ b4 ++ b5) = [b1; b2; b3; b4; b5].
Proof.
  intros H1 H2 H3 H4 H5. unfold blocks.
  do 4 rewrite (@skipn_exact _ b1 _ 8 _ H1) by lia.
  cbn [Nat.sub]. rewrite skipn_O.
  do 3 rewrite (@skipn_exact _ b2 _ 4 _ H2) by lia.
  cbn [Nat.sub]. rewrite skipn_O.
  do 2 rewrite (@skipn_exact _ b3 _ 4 _ H3) by lia.
  cbn [Nat.sub]. rewrite skipn_O.
  rewrite (@skipn_exact _ b4 _ 4 _ H4) by lia.
  cbn [Nat.sub]. rewrite skipn_O.
  rewrite (firstn_exact b1 _ H1), (firstn_exact b2 _ H2),
    (firstn_exact b3 _ H3), (firstn_exact b4 _ H4).
  rewrite <- (app_nil_r b5) at 1.
  now rewrite (firstn_exact b5 _ H5).
Qed.

(** [normalizeId] depends on the characters besides dashes only. *)
Lemma normalizeId_clean (a b : str) :
  filter not_dash a = filter not_dash b -> normalizeId a = normalizeId b.
Proof. intros H. now rewrite !normalizeId_blocks, H. Qed.

Lemma normalizeId_of_blocks (id b1 b2 b3 b4 b5 : str) :
  filter not_dash id = b1 ++ b2 ++ b3 ++ b4 ++ b5 ->
  hexblock 8 b1 -> hexblock 4 b2 -> hexblock 4 b3 -> hexblock 4 b4 ->
  hexblock 12 b5 ->
  normalizeId id
  = b1 ++ "-"%char :: b2 ++ "-"%char :: b3 ++ "-"%char :: b4
       ++ "-"%char :: b5.
Proof.
  intros Hc [_ H1] [_ H2] [_ H3] [_ H4] [_ H5].
  rewrite normalizeId_blocks, Hc, blocks_exact by assumption.
  reflexivity.
Qed.

Lemma uuid_clean (b1 b2 b3 b4 b5 : str) :
  hexblock 8 b1 -> hexblock 4 b2 -> hexblock 4 b3 -> hexblock 4 b4 ->
  hexblock 12 b5 ->
  filter not_dash
    (b1 ++ "-"%char :: b2 ++ "-"%char :: b3 ++ "-"%char :: b4
        ++ "-"%char :: b5)
  = b1 ++ b2 ++ b3 ++ b4 ++ b5.
Proof.
  intros [H1 _] [H2 _] [H3 _] [H4 _] [H5 _].
  repeat (rewrite filter_app; cbn [filter];
          change (not_dash "-") with false; cbv iota).
  now rewrite (filter_hexblock H1), (filter_hexblock H2),
    (filter_hexblock H3), (filter_hexblock H4), (filter_hexblock H5).
Qed.

(** A dashed UUID is left as it is. *)
Lemma uuid_fixed (s : str) : is_uuid s -> normalizeId s = s.
Proof.
  intros (b1 & b2 & b3 & b4 & b5 & -> & H1 & H2 & H3 & H4 & H5).
  apply normalizeId_of_blocks; try assumption. now apply uuid_clean.
Qed.

(** 32 hexadecimal digits become a dashed UUID. *)
Lemma normalizeId_hex32 (id clean : str) :
  filter not_dash id = clean -> hexblock 32 clean ->
  is_uuid (normalizeId id).
Proof.
  intros Hc [Hh Hl]. rewrite normalizeId_blocks, Hc. unfold blocks.
  cbn [joinWith]. change (lit "-") with ["-"%char].
  exists (firstn 8 clean), (firstn 4 (skipn 8 clean)),
    (firstn 4 (skipn 12 clean)), (firstn 4 (skipn 16 clean)),
    (firstn 12 (skipn 20 clean)).
  split; [reflexivity|].
  unfold hexblock.
  repeat split;
    try (apply Forall_firstn; try apply Forall_skipn; exact Hh);
    rewrite length_firstn, ?length_skipn; lia.
Qed.

(** The strings NOTION_ID_REGEX accepts. *)
Lemma notion_id_shape (id : str) :
  notionIdSchema id = true <->
  exists b1 d1 b2 d2 b3 d3 b4 d4 b5,
    id = b1 ++ d1 ++ b2 ++ d2 ++ b3 ++ d3 ++ b4 ++ d4 ++ b5
    /\ (hexblock 8 b1 /\ hexblock 4 b2 /\ hexblock 4 b3 /\ hexblock 4 b4
        /\ hexblock 12 b5)
    /\ (opt_dash d1 /\ opt_dash d2 /\ opt_dash d3 /\ opt_dash d4).
Proof.
  unfold notionIdSchema. rewrite test_iff. unfold NOTION_ID_REGEX, cat.
  split.
  - intros (pre & suf & p' & s' & g' & -> & HM).
    apply Match_seq_inv in HM. destruct HM as (p0 & s0 & g0 & H0 & HM).
    apply Match_bol_inv in H0. destruct H0 as (Hb & -> & -> & ->).
    apply at_bol_false, prev_after_None in Hb. subst pre. simpl app.
    apply Match_seq_inv in HM. destruct HM as (p1 & s1 & g1 & H1 & HM).
    apply hex_inv in H1. destruct H1 as (b1 & -> & Hb1 & -> & ->).
    apply Match_seq_inv in HM. destruct HM as (p2 & s2 & g2 & H2 & HM).
    apply dash_inv in H2. destruct H2 as (d1 & -> & Hd1 & ->).
    apply Match_seq_inv in HM. destruct HM as (p3 & s3 & g3 & H3 & HM).
    apply hex_inv in H3. destruct H3 as (b2 & -> & Hb2 & -> & ->).
    apply Match_seq_inv in HM. destruct HM as (p4 & s4 & g4 & H4 & HM).
    apply dash_inv in H4. destruct H4 as (d2 & -> & Hd2 & ->).
    apply Match_seq_inv in HM. destruct HM as (p5 & s5 & g5 & H5 & HM).
    apply hex_inv in H5. destruct H5 as (b3 & -> & Hb3 & -> & ->).
    apply Match_seq_inv in HM. destruct HM as (p6 & s6 & g6 & H6 & HM).
    apply dash_inv in H6. destruct H6 as (d3 & -> & Hd3 & ->).
    apply Match_seq_inv in HM. destruct HM as (p7 & s7 & g7 & H7 & HM).
    apply hex_inv in H7. destruct H7 as (b4 & -> & Hb4 & -> & ->).
    apply Match_seq_inv in HM. destruct HM as (p8 & s8 & g8 & H8 & HM).
    apply dash_inv in H8. destruct H8 as (d4 & -> & Hd4 & ->).
    apply Match_seq_inv in HM. destruct HM as (p9 & s9 & g9 & H9 & HM).
    apply hex_inv in H9. destruct H9 as (b5 & -> & Hb5 & -> & ->).
    apply Match_eol_inv in HM. destruct HM as (He & -> & -> & ->).
    apply at_eol_false in He. subst s9. rewrite app_nil_r.
    exists b1, d1, b2, d2, b3, d3, b4, d4, b5.
    split; [reflexivity|].
    split; [exact (conj Hb1 (conj Hb2 (conj Hb3 (conj Hb4 Hb5))))
           |exact (conj Hd1 (conj Hd2 (conj Hd3 Hd4)))].
  - intros (b1 & d1 & b2 & d2 & b3 & d3 & b4 & d4 & b5 & ->
            & (H1 & H2 & H3 & H4 & H5) & (D1 & D2 & D3 & D4)).
    exists [], (b1 ++ d1 ++ b2 ++ d2 ++ b3 ++ d3 ++ b4 ++ d4 ++ b5 ++ []).
    do 3 eexists. split; [now rewrite app_nil_r|]. simpl prev_after.
    eapply MSeq; [now apply MBol|].
    eapply MSeq; [apply hex_intro; exact H1|].
    eapply MSeq; [apply dash_intro; exact D1|].
    eapply MSeq; [apply hex_intro; exact H2|].
    eapply MSeq; [apply dash_intro; exact D2|].
    eapply MSeq; [apply hex_intro; exact H3|].
    eapply MSeq; [apply dash_intro; exact D3|].
    eapply MSeq; [apply hex_intro; exact H4|].
    eapply MSeq; [apply dash_intro; exact D4|].
    eapply MSeq; [apply hex_intro; exact H5|].
    now apply MEol.
Qed.

Lemma valid_clean (b1 d1 b2 d2 b3 d3 b4 d4 b5 : str) :
  hexblock 8 b1 -> hexblock 4 b2 -> hexblock 4 b3 -> hexblock 4 b4 ->
  hexblock 12 b5 ->
  opt_dash d1 -> opt_dash d2 -> opt_dash d3 -> opt_dash d4 ->
  filter not_dash (b1 ++ d1 ++ b2 ++ d2 ++ b3 ++ d3 ++ b4 ++ d4 ++ b5)
  = b1 ++ b2 ++ b3 ++ b4 ++ b5.
Proof.
  intros [H1 _] [H2 _] [H3 _] [H4 _] [H5 _] D1 D2 D3 D4.
  rewrite !filter_app.
  rewrite (filter_hexblock H1), (filter_hexblock H2), (filter_hexblock H3),
    (filter_hexblock H4), (filter_hexblock H5).
  rewrite (filter_opt_dash D1), (filter_opt_dash D2), (filter_opt_dash D3),
    (filter_opt_dash D4).
  reflexivity.
Qed.

Lemma uuid_valid (s : str) : is_uuid s -> notionIdSchema s = true.
Proof.
  intros (b1 & b2 & b3 & b4 & b5 & -> & H1 & H2 & H3 & H4 & H5).
  apply notion_id_shape.
  exists b1, ["-"%char], b2, ["-"%char], b3, ["-"%char], b4, ["-"%char], b5.
  split; [reflexivity|].
  split; [exact (conj H1 (conj H2 (conj H3 (conj H4 H5))))|].
  unfold opt_dash. repeat split; now right.
Qed.

(** ** What the two searches of [parseNotionId] capture *)

Lemma url_group (input xs : str) :
  group1 re_url_id input = Some xs ->
  exists pre rest, input = pre ++ xs ++ rest /\ hexblock 32 xs.
Proof.
  intros H. apply group1_sound in H.
  destruct H as (pre & suf & p' & s' & -> & HM). unfold re_url_id in HM.
  apply Match_seq_inv in HM. destruct HM as (p1 & s1 & g1 & H1 & HM).
  assert (g1 = Some xs) as ->.
  { apply Match_alt_inv in HM. destruct HM as [HM|HM].
    - apply Match_lit_inv in HM. now destruct HM as (_ & _ & ->).
    - apply Match_eol_inv in HM. now destruct HM as (_ & _ & _ & ->). }
  apply Match_group_inv in H1. destruct H1 as (ys & g0 & -> & Hg & H1).
  injection Hg as <-.
  apply hex_inv in H1. destruct H1 as (b & Hb & Hhex & _).
  apply app_inv_tail in Hb. subst b.
  now exists pre, s1.
Qed.

Lemma dashed_group (input xs : str) :
  group1 re_dashed_id input = Some xs ->
  exists pre rest, input = pre ++ xs ++ rest /\ is_uuid xs.
Proof.
  intros H. apply group1_sound in H.
  destruct H as (pre & suf & p' & s' & -> & HM).
  unfold re_dashed_id, cat in HM.
  apply Match_group_inv in HM. destruct HM as (ys & g0 & -> & Hg & HM).
  injection Hg as <-.
  apply Match_seq_inv in HM. destruct HM as (p1 & s1 & g1 & H1 & HM).
  apply hex_inv in H1. destruct H1 as (b1 & E1 & Hb1 & -> & ->).
  apply Match_seq_inv in HM. destruct HM as (p2 & s2 & g2 & H2 & HM).
  apply Match_lit_inv in H2. destruct H2 as (-> & -> & ->).
  apply Match_seq_inv in HM. destruct HM as (p3 & s3 & g3 & H3 & HM).
  apply hex_inv in H3. destruct H3 as (b2 & -> & Hb2 & -> & ->).
  apply Match_seq_inv in HM. destruct HM as (p4 & s4 & g4 & H4 & HM).
  apply Match_lit_inv in H4. destruct H4 as (-> & -> & ->).
  apply Match_seq_inv in HM. destruct HM as (p5 & s5 & g5 & H5 & HM).
  apply hex_inv in H5. destruct H5 as (b3 & -> & Hb3 & -> & ->).
  apply Match_seq_inv in HM. destruct HM as (p6 & s6 & g6 & H6 & HM).
  apply Match_lit_inv in H6. destruct H6 as (-> & -> & ->).
  apply Match_seq_inv in HM. destruct HM as (p7 & s7 & g7 & H7 & HM).
  apply hex_inv in H7. destruct H7 as (b4 & -> & Hb4 & -> & ->).
  apply Match_seq_inv in HM. destruct HM as (p8 & s8 & g8 & H8 & HM).
  apply Match_lit_inv in H8. destruct H8 as (-> & -> & ->).
  apply hex_inv in HM. destruct HM as (b5 & -> & Hb5 & _).
  exists pre, s'. split; [reflexivity|].
  exists b1, b2, b3, b4, b5. split; [|now repeat (split; [assumption|])].
  apply (app_inv_tail s').
  rewrite E1. repeat (rewrite <- ?app_assoc; cbn [app]). reflexivity.
Qed.

(** ** Counting the hexadecimal digits *)

Definition hex_or_dash (c : ascii) : Prop := is_hex c = true \/ c = "-"%char.

Lemma hexblock_chars (b : str) :
  all_in is_hex b -> Forall hex_or_dash b /\ filter is_hex b = b.
Proof.
  intros H. split; [|now apply filter_id].
  eapply Forall_impl; [|exact H]. intros c Hc. now left.
Qed.

Lemma opt_dash_chars (d : str) :
  opt_dash d -> Forall hex_or_dash d /\ filter is_hex d = [].
Proof.
  intros [->| ->]; split; try reflexivity; [constructor|].
  constructor; [now right|constructor].
Qed.

Lemma valid_chars (id : str) :
  notionIdSchema id = true ->
  Forall hex_or_dash id /\ length (filter is_hex id) = 32.
Proof.
  intros H. apply notion_id_shape in H.
  destruct H as (b1 & d1 & b2 & d2 & b3 & d3 & b4 & d4 & b5 & ->
                 & ([H1 L1] & [H2 L2] & [H3 L3] & [H4 L4] & [H5 L5])
                 & (D1 & D2 & D3 & D4)).
  destruct (hexblock_chars H1) as [F1 E1].
  destruct (hexblock_chars H2) as [F2 E2].
  destruct (hexblock_chars H3) as [F3 E3].
  destruct (hexblock_chars H4) as [F4 E4].
  destruct (hexblock_chars H5) as [F5 E5].
  destruct (opt_dash_chars D1) as [G1 N1].
  destruct (opt_dash_chars D2) as [G2 N2].
  destruct (opt_dash_chars D3) as [G3 N3].
  destruct (opt_dash_chars D4) as [G4 N4].
  split.
  - repeat (apply Forall_app; split; [assumption|]). assumption.
  - rewrite !filter_app, E1, E2, E3, E4, E5, N1, N2, N3, N4.
    rewrite !length_app. simpl. lia.
Qed.

Lemma no_hex_all_dash (s : str) :
  Forall hex_or_dash s -> filter is_hex s = [] -> filter not_dash s = [].
Proof.
  induction 1 as [|c s Hc _ IH]; [reflexivity|]. simpl.
  destruct (is_hex c) eqn:E; [discriminate|]. intros Hn.
  destruct Hc as [Hc| ->]; [congruence|]. simpl. now apply IH.
Qed.

(** In a valid identifier, a part that holds 32 hexadecimal digits holds
    all that [normalizeId] looks at. *)
Lemma normalizeId_part (pre xs rest : str) :
  notionIdSchema (pre ++ xs ++ rest) = true ->
  length (filter is_hex xs) = 32 ->
  normalizeId (pre ++ xs ++ rest) = normalizeId xs.
Proof.
  intros Hv Hx. apply valid_chars in Hv. destruct Hv as [Hall Hlen].
  apply Forall_app in Hall. destruct Hall as [Hpre Hall].
  apply Forall_app in Hall. destruct Hall as [_ Hrest].
  rewrite !filter_app, !length_app in Hlen.
  apply normalizeId_clean. rewrite !filter_app.
  rewrite (no_hex_all_dash Hpre), (no_hex_all_dash Hrest).
  - now rewrite app_nil_r.
  - apply length_zero_iff_nil. lia.
  - apply length_zero_iff_nil. lia.
Qed.

Lemma uuid_hex_count (s : str) : is_uuid s -> length (filter is_hex s) = 32.
Proof.
  intros Hu. apply uuid_valid in Hu. now apply valid_chars in Hu.
Qed.

Lemma valid_normal_form (id : str) :
  notionIdSchema id = true -> valid_shape id.
Proof.
  intros H. apply notion_id_shape in H.
  destruct H as (b1 & d1 & b2 & d2 & b3 & d3 & b4 & d4 & b5 & ->
                 & (H1 & H2 & H3 & H4 & H5) & (D1 & D2 & D3 & D4)).
  exists b1, d1, b2, d2, b3, d3, b4, d4, b5.
  split; [reflexivity|].
  split; [exact (conj H1 (conj H2 (conj H3 (conj H4 H5))))|].
  split; [exact (conj D1 (conj D2 (conj D3 D4)))|].
  apply normalizeId_of_blocks; try assumption. now apply valid_clean.
Qed.

Lemma valid_normalized_uuid (id : str) :
  notionIdSchema id = true -> is_uuid (normalizeId id).
Proof.
  intros H. apply valid_normal_form in H.
  destruct H as (b1 & d1 & b2 & d2 & b3 & d3 & b4 & d4 & b5 & _
                 & (H1 & H2 & H3 & H4 & H5) & _ & ->).
  exists b1, b2, b3, b4, b5. split; [reflexivity|].
  exact (conj H1 (conj H2 (conj H3 (conj H4 H5)))).
Qed.

(** On a valid identifier [parseNotionId] is [normalizeId]. *)
Lemma parse_valid (input : str) :
  notionIdSchema input = true ->
  parseNotionId input = Ok (normalizeId input).
Proof.
  intros Hv. unfold parseNotionId.
  destruct (group1 re_url_id input) as [xs|] eqn:E1.
  - apply url_group in E1. destruct E1 as (pre & rest & -> & Hx).
    f_equal. symmetry. apply normalizeId_part; [exact Hv|].
    destruct Hx as [Hx Hl]. now rewrite (proj2 (hexblock_chars Hx)).
  - destruct (group1 re_dashed_id input) as [xs|] eqn:E2.
    + apply dashed_group in E2. destruct E2 as (pre & rest & -> & Hx).
      f_equal. symmetry. apply normalizeId_part; [exact Hv|].
      now apply uuid_hex_count.
    + now rewrite Hv.
Qed.

Lemma parse_ok_uuid (input r : str) :
  parseNotionId input = Ok r -> is_uuid r.
Proof.
  unfold parseNotionId.
  destruct (group1 re_url_id input) as [xs|] eqn:E1.
  - intros H. injection H as <-.
    apply url_group in E1. destruct E1 as (pre & rest & _ & Hx).
    apply normalizeId_hex32 with (clean := xs); [|exact Hx].
    apply filter_hexblock, Hx.
  - destruct (group1 re_dashed_id input) as [xs|] eqn:E2.
    + intros H. injection H as <-.
      apply dashed_group in E2. destruct E2 as (pre & rest & _ & Hx).
      now rewrite uuid_fixed.
    + destruct (notionIdSchema input) eqn:Hv; [|discriminate].
      intros H. injection H as <-. now apply valid_normalized_uuid.
Qed.

(** X13. What [notionIdSchema] accepts and what [normalizeId] makes of
    it.  An identifier is accepted exactly when it is five blocks of 8, 4,
    4, 4 and 12 hexadecimal digits, each of the four dashes between them
    present or not; [normalizeId] then returns the same blocks with all
    four dashes.  So the normal form of a valid identifier is a dashed
    UUID, it is valid again, and a dashed UUID is its own normal form. *)
Theorem notionId_normal_form (id : str) :
  (notionIdSchema id = true <-> valid_shape id)
  /\ (notionIdSchema id = true ->
      is_uuid (normalizeId id) /\ notionIdSchema (normalizeId id) = true)
  /\ (is_uuid id -> normalizeId id = id).
Proof.
  split; [split|split].
  - apply valid_normal_form.
  - intros (b1 & d1 & b2 & d2 & b3 & d3 & b4 & d4 & b5 & E & Hb & Hd & _).
    apply notion_id_shape. now exists b1, d1, b2, d2, b3, d3, b4, d4, b5.
  - intros Hv.
    assert (Hu : is_uuid (normalizeId id)) by now apply valid_normalized_uuid.
    split; [exact Hu|now apply uuid_valid].
  - apply uuid_fixed.
Qed.

Lemma notionId_normal_form_witness :
  is_uuid (normalizeId (lit "12345678-12341234-1234123456789ABC"))
  /\ notionIdSchema (normalizeId (lit "12345678-12341234-1234123456789ABC"))
     = true.
Proof.
  apply (proj1 (proj2 (notionId_normal_form
                         (lit "12345678-12341234-1234123456789ABC")))).
  vm_compute. reflexivity.
Defined.

(** X14. The outcomes of [parseNotionId].  Whatever it returns is a dashed
    UUID, and parsing the result again returns it unchanged.  On an input
    [notionIdSchema] accepts it returns [normalizeId] of the input.  When
    it throws, the input is not a valid identifier and the error is a
    ValidationError with exit code VALIDATION_ERROR. *)
Theorem parseNotionId_outcomes (input : str) :
  (forall r, parseNotionId input = Ok r ->
             is_uuid r /\ parseNotionId r = Ok r)
  /\ (notionIdSchema input = true ->
      parseNotionId input = Ok (normalizeId input))
  /\ (forall e, parseNotionId input = Throw e ->
                notionIdSchema input = false
                /\ name e = lit "ValidationError"
                /\ exitCode e = VALIDATION_ERROR).
Proof.
  split; [|split].
  - intros r H. apply parse_ok_uuid in H. split; [exact H|].
    rewrite parse_valid by now apply uuid_valid.
    now rewrite uuid_fixed.
  - apply parse_valid.
  - intros e. unfold parseNotionId.
    destruct (group1 re_url_id input); [discriminate|].
    destruct (group1 re_dashed_id input); [discriminate|].
    destruct (notionIdSchema input); [discriminate|].
    intros H. injection H as <-. now repeat split.
Qed.

Lemma parseNotionId_outcomes_witness :
  is_uuid (lit "12345678-1234-1234-1234-1234567890ab")
  /\ parseNotionId (lit "12345678-1234-1234-1234-1234567890ab")
     = Ok (lit "12345678-1234-1234-1234-1234567890ab").
Proof.
  apply (proj1 (parseNotionId_outcomes
    (lit "https://www.notion.so/My-Page-Title-123456781234123412341234567890ab"))).
  vm_compute. reflexivity.
Defined.

End IdFacts.

(* ------------------------------------------------------------------ *)
(** * The check for a hunk header *)

Module HunkHeaderFacts.
Import Regex Rx RegexFacts RxFacts UnifiedDiff.

Definition CR : ascii := ascii_of_nat 13.

(** The position after [pre] is the start of a line: nothing comes before
    it, or a line terminator does. *)
Definition line_start (pre : str) : Prop :=
  pre = [] \/ exists pre' c, pre = pre' ++ [c] /\ (c = LF \/ c = CR).

(** A non-empty run of characters of a class. *)
Definition run_of (cls : ascii -> bool) (xs : str) : Prop :=
  all_in cls xs /\ xs <> [].

(** Nothing, or a comma and a number. *)
Definition opt_count (c : str) : Prop :=
  c = [] \/ exists ds, c = ","%char :: ds /\ run_of is_digit ds.

(** A line of the text begins with @@ -a[,b] +c[,d] @@. *)
Definition has_hunk_header (patch : str) : Prop :=
  exists pre ws1 a c1 ws2 b c2 ws3 rest,
    patch = pre ++ "@"%char :: "@"%char :: ws1 ++ "-"%char :: a ++ c1 ++ ws2
              ++ "+"%char :: b ++ c2 ++ ws3 ++ "@"%char :: "@"%char :: rest
    /\ line_start pre
    /\ run_of is_space ws1 /\ run_of is_digit a /\ opt_count c1
    /\ run_of is_space ws2 /\ run_of is_digit b /\ opt_count c2
    /\ run_of is_space ws3.

Lemma line_terminator_iff (c : ascii) :
  is_line_terminator c = true <-> c = LF \/ c = CR.
Proof.
  unfold is_line_terminator. rewrite orb_true_iff.
  split; (intros [H|H]; [left|right]).
  - now apply Ascii.eqb_eq.
  - now apply Ascii.eqb_eq.
  - subst c. apply Ascii.eqb_refl.
  - subst c. apply Ascii.eqb_refl.
Qed.

Lemma prev_after_Some (xs : str) (c : ascii) :
  prev_after None xs = Some c -> exists xs', xs = xs' ++ [c].
Proof.
  destruct xs as [|x xs]; [discriminate|].
  destruct (@exists_last _ (x :: xs)) as (xs' & d & ->); [discriminate|].
  rewrite SanitizeFacts.prev_after_last. intros H. injection H as ->. now exists xs'.
Qed.

Lemma line_start_iff (pre : str) :
  at_bol true (prev_after None pre) = true <-> line_start pre.
Proof.
  unfold line_start. split.
  - destruct (prev_after None pre) as [c|] eqn:E.
    + simpl. intros H. apply line_terminator_iff in H.
      apply prev_after_Some in E. destruct E as [pre' ->].
      right. now exists pre', c.
    + intros _. left. now apply prev_after_None.
  - intros [->|(pre' & c & -> & Hc)]; [reflexivity|].
    rewrite SanitizeFacts.prev_after_last. simpl. now apply line_terminator_iff.
Qed.

Lemma count_inv p s g p' s' g' :
  Match (Opt (Seq (Lit ",") (Many is_digit 1 None))) p s g p' s' g' ->
  exists c, s = c ++ s' /\ opt_count c /\ g' = g.
Proof.
  intros H. apply Match_opt_inv in H. destruct H as [H|(-> & -> & ->)].
  - apply Match_seq_inv in H. destruct H as (p1 & s1 & g1 & H1 & H).
    apply Match_lit_inv in H1. destruct H1 as (-> & -> & ->).
    apply plus_inv in H. destruct H as (ds & -> & Hd & Hn & _ & ->).
    exists (","%char :: ds). split; [reflexivity|]. split; [|reflexivity].
    right. exists ds. now repeat split.
  - exists []. split; [reflexivity|]. split; [now left|reflexivity].
Qed.

Lemma count_intro c p s g :
  opt_count c ->
  Match (Opt (Seq (Lit ",") (Many is_digit 1 None))) p (c ++ s) g
    (prev_after p c) s g.
Proof.
  intros [->|(ds & -> & Hd & Hn)]; [apply MOptNo|].
  apply MOptYes. simpl app. rewrite prev_after_cons.
  eapply MSeq; [apply MLit|]. now apply plus_intro.
Qed.

Lemma isValidUnifiedDiff_spec (patch : str) :
  isValidUnifiedDiff patch = true <-> has_hunk_header patch.
Proof.
  unfold isValidUnifiedDiff. rewrite test_iff.
  unfold re_hunk_header, cat. split.
  - intros (pre & suf & p' & s' & g' & -> & HM).
    apply Match_seq_inv in HM. destruct HM as (p0 & s0 & g0 & H0 & HM).
    apply Match_bol_inv in H0. destruct H0 as (Hb & -> & -> & ->).
    apply line_start_iff in Hb.
    apply Match_seq_inv in HM. destruct HM as (p1 & s1 & g1 & H1 & HM).
    apply Match_lit_inv in H1. destruct H1 as (-> & -> & ->).
    apply Match_seq_inv in HM. destruct HM as (p2 & s2 & g2 & H2 & HM).
    apply Match_lit_inv in H2. destruct H2 as (-> & -> & ->).
    apply Match_seq_inv in HM. destruct HM as (p3 & s3 & g3 & H3 & HM).
    apply plus_inv in H3. destruct H3 as (ws1 & -> & W1 & N1 & -> & ->).
    apply Match_seq_inv in HM. destruct HM as (p4 & s4 & g4 & H4 & HM).
    apply Match_lit_inv in H4. destruct H4 as (-> & -> & ->).
    apply Match_seq_inv in HM. destruct HM as (p5 & s5 & g5 & H5 & HM).
    apply plus_inv in H5. destruct H5 as (a & -> & A1 & A2 & -> & ->).
    apply Match_seq_inv in HM. destruct HM as (p6 & s6 & g6 & H6 & HM).
    apply count_inv in H6. destruct H6 as (c1 & -> & C1 & ->).
    apply Match_seq_inv in HM. destruct HM as (p7 & s7 & g7 & H7 & HM).
    apply plus_inv in H7. destruct H7 as (ws2 & -> & W2 & N2 & -> & ->).
    apply Match_seq_inv in HM. destruct HM as (p8 & s8 & g8 & H8 & HM).
    apply Match_lit_inv in H8. destruct H8 as (-> & -> & ->).
    apply Match_seq_inv in HM. destruct HM as (p9 & s9 & g9 & H9 & HM).
    apply plus_inv in H9. destruct H9 as (b & -> & B1 & B2 & -> & ->).
    apply Match_seq_inv in HM. destruct HM as (q0 & t0 & h0 & K0 & HM).
    apply count_inv in K0. destruct K0 as (c2 & -> & C2 & ->).
    apply Match_seq_inv in HM. destruct HM as (q1 & t1 & h1 & K1 & HM).
    apply plus_inv in K1. destruct K1 as (ws3 & -> & W3 & N3 & -> & ->).
    apply Match_seq_inv in HM. destruct HM as (q2 & t2 & h2 & K2 & HM).
    apply Match_lit_inv in K2. destruct K2 as (-> & -> & ->).
    apply Match_lit_inv in HM. destruct HM as (-> & -> & ->).
    exists pre, ws1, a, c1, ws2, b, c2, ws3, s'.
    split; [reflexivity|]. split; [exact Hb|].
    unfold run_of. now repeat (split; [assumption|]).
  - intros (pre & ws1 & a & c1 & ws2 & b & c2 & ws3 & rest & -> & Hb
            & [W1 N1] & [A1 A2] & C1 & [W2 N2] & [B1 B2] & C2 & [W3 N3]).
    exists pre. eexists. do 3 eexists. split; [reflexivity|].
    eapply MSeq; [apply MBol; now apply line_start_iff|].
    eapply MSeq; [apply MLit|].
    eapply MSeq; [apply MLit|].
    eapply MSeq; [now apply plus_intro|].
    eapply MSeq; [apply MLit|].
    eapply MSeq; [now apply plus_intro|].
    eapply MSeq; [now apply count_intro|].
    eapply MSeq; [now apply plus_intro|].
    eapply MSeq; [apply MLit|].
    eapply MSeq; [now apply plus_intro|].
    eapply MSeq; [now apply count_intro|].
    eapply MSeq; [now apply plus_intro|].
    eapply MSeq; [apply MLit|].
    apply MLit.
Qed.

(** X15. [isValidUnifiedDiff] accepts a text exactly when one of its lines
    begins with a hunk header @@ -a[,b] +c[,d] @@ (white space where the
    blanks are, numbers of any length).  Nothing else is looked at: a text
    without the character @ is refused, and a header with the plain
    numbers a and c at the start of a line is accepted whatever comes
    before and after it. *)
Theorem isValidUnifiedDiff_iff (patch : str) :
  (isValidUnifiedDiff patch = true <-> has_hunk_header patch)
  /\ (~ In "@"%char patch -> isValidUnifiedDiff patch = false)
  /\ (forall (pre rest : str) (a c : nat),
        line_start pre ->
        patch = pre ++ lit "@@ -" ++ Js.String_ (Z.of_nat a) ++ lit " +"
                  ++ Js.String_ (Z.of_nat c) ++ lit " @@" ++ rest ->
        isValidUnifiedDiff patch = true).
Proof.
  split; [apply isValidUnifiedDiff_spec|]. split.
  - intros Hno. destruct (isValidUnifiedDiff patch) eqn:E; [|reflexivity].
    apply isValidUnifiedDiff_spec in E.
    destruct E as (pre & ws1 & a & c1 & ws2 & b & c2 & ws3 & rest & -> & _).
    exfalso. apply Hno. apply in_or_app. right. now left.
  - intros pre rest a c Hb ->. apply isValidUnifiedDiff_spec.
    destruct (MarkdownFacts.String_digits a) as [Ha La].
    destruct (MarkdownFacts.String_digits c) as [Hc Lc].
    exists pre, [" "%char], (Js.String_ (Z.of_nat a)), [], [" "%char],
      (Js.String_ (Z.of_nat c)), [], [" "%char], rest.
    split; [|split; [exact Hb|]].
    + reflexivity.
    + unfold run_of, opt_count.
      repeat split; try (now left); try discriminate;
        try (repeat constructor); try assumption.
      * intros E. rewrite E in La. simpl in La. lia.
      * intros E. rewrite E in Lc. simpl in Lc. lia.
Qed.

Lemma isValidUnifiedDiff_iff_witness :
  isValidUnifiedDiff
    (lit "--- a" ++ LF :: lit "+++ b" ++ LF :: lit "@@ -1,3 +1,3 @@") = true
  /\ isValidUnifiedDiff (lit "just some text") = false.
Proof.
  split.
  - apply (proj1 (isValidUnifiedDiff_iff _)).
    exists (lit "--- a" ++ LF :: lit "+++ b" ++ [LF]), [" "%char], (lit "1"),
      (lit ",3"), [" "%char], (lit "1"), (lit ",3"), [" "%char], [].
    split; [reflexivity|]. split.
    + right. exists (lit "--- a" ++ LF :: lit "+++ b"), LF.
      split; [reflexivity|now left].
    + assert (Hrun : forall cls c, cls c = true -> run_of cls [c]).
      { intros cls c Hc. split; [now repeat constructor|discriminate]. }
      assert (Hcount : opt_count (lit ",3")).
      { right. exists (lit "3"). split; [reflexivity|now apply Hrun]. }
      pose proof (Hrun is_space " "%char eq_refl) as Hs.
      pose proof (Hrun is_digit "1"%char eq_refl) as Hd.
      exact (conj Hs (conj Hd (conj Hcount
               (conj Hs (conj Hd (conj Hcount Hs)))))).
  - apply (proj1 (proj2 (isValidUnifiedDiff_iff _))).
    simpl. intuition discriminate.
Defined.

End HunkHeaderFacts.

(* ------------------------------------------------------------------ *)
(** * The title of a page *)

Module TitleFacts.
Import Regex Rx RegexFacts RxFacts JsString Title HunkHeaderFacts.

(** ** [trim] *)

Lemma drop_while_split (f : ascii -> bool) (s : str) :
  exists l, s = l ++ drop_while f s /\ all_in f l.
Proof.
  induction s as [|c s (l & IH & Hl)];
    [exists []; split; [reflexivity|constructor]|]. simpl.
  destruct (f c) eqn:E.
  - exists (c :: l). split; [simpl; f_equal; exact IH|now constructor].
  - exists []. split; [reflexivity|constructor].
Qed.

Lemma drop_while_head (f : ascii -> bool) (s : str) (c : ascii) (r : str) :
  drop_while f s = c :: r -> f c = false.
Proof.
  induction s as [|d s IH]; [discriminate|]. simpl.
  destruct (f d) eqn:E; [exact IH|]. intros H. now injection H as <- _.
Qed.

Lemma drop_while_keep (f : ascii -> bool) (c : ascii) (s : str) :
  f c = false -> drop_while f (c :: s) = c :: s.
Proof. intros H. simpl. now rewrite H. Qed.

(** [trim] removes white space at both ends and nothing else. *)
Lemma trim_split (s : str) :
  exists l r, s = l ++ trim s ++ r /\ all_in is_space l /\ all_in is_space r.
Proof.
  unfold trim.
  destruct (drop_while_split is_space s) as (l & Hs & Hl).
  destruct (drop_while_split is_space (rev (drop_while is_space s)))
    as (l2 & Hd & Hl2).
  exists l, (rev l2). split; [|split; [exact Hl|]].
  - rewrite Hs at 1. f_equal.
    rewrite <- rev_app_distr, <- Hd. now rewrite rev_involutive.
  - now apply Forall_rev.
Qed.

Lemma trim_last (s r : str) (c : ascii) :
  trim s = r ++ [c] -> is_space c = false.
Proof.
  unfold trim. intros H. apply (f_equal (@rev ascii)) in H.
  rewrite rev_involutive, rev_app_distr in H. simpl in H.
  now apply drop_while_head in H.
Qed.

Lemma trim_head (s r : str) (c : ascii) :
  trim s = c :: r -> is_space c = false.
Proof.
  intros H. unfold trim in H.
  destruct (drop_while_split is_space (rev (drop_while is_space s)))
    as (l2 & Hd & _).
  apply (f_equal (@rev ascii)) in Hd.
  rewrite rev_involutive, rev_app_distr, H in Hd. simpl in Hd.
  now apply drop_while_head in Hd.
Qed.

(** ** Where the pattern of a title matches *)

Lemma title_no_match (p : option ascii) (c : ascii) (s : str) :
  c <> "#"%char -> exec_at re_title p (c :: s) = None.
Proof.
  intros Hc. unfold exec_at, re_title, cat. cbn [run].
  destruct (at_bol true p); [|reflexivity].
  destruct (Ascii.eqb_spec "#"%char c) as [<-|_]; [contradiction|reflexivity].
Qed.

Lemma title_no_match_nil (p : option ascii) : exec_at re_title p [] = None.
Proof.
  unfold exec_at, re_title, cat. cbn [run]. now destruct (at_bol true p).
Qed.

Lemma title_skip (pre suf : str) (p : option ascii) :
  ~ In "#"%char pre ->
  search re_title p (pre ++ suf) = search re_title (prev_after p pre) suf.
Proof.
  revert p. induction pre as [|c pre IH]; intros p Hno; [reflexivity|].
  simpl app. rewrite search_step.
  - rewrite prev_after_cons. apply IH. intros H. apply Hno. now right.
  - apply title_no_match. intros ->. apply Hno. now left.
Qed.

Lemma firstn_consumed {A} (t rest : list A) :
  firstn (length (t ++ rest) - length rest) (t ++ rest) = t.
Proof.
  rewrite length_app.
  replace (length t + length rest - length rest) with (length t) by lia.
  now rewrite firstn_app, Nat.sub_diag, firstn_all, firstn_O, app_nil_r.
Qed.

Lemma at_eol_stops (rest : str) : at_eol true rest = true -> stops is_dot rest.
Proof.
  destruct rest as [|c rest]; [easy|]. simpl. unfold is_dot.
  now intros ->.
Qed.

(** The part [(.+)$] on a line [t]. *)
Lemma title_line (p : option ascii) (t rest : str) :
  run_of is_dot t -> at_eol true rest = true ->
  run (Seq (Group (Many is_dot 1 None)) (Eol true))
    (fun q u g => Some (q, u, g)) p (t ++ rest) None
  = Some (prev_after p t, rest, Some t).
Proof.
  intros [Ht Hn] He. cbn [run].
  apply many_run; [exact Ht| | |now apply at_eol_stops].
  - destruct t; [contradiction|simpl; lia].
  - now rewrite He, firstn_consumed.
Qed.

(** A heading: the marker, white space, and a line that begins with
    something else. *)
Lemma title_here (p : option ascii) (ws t' rest : str) (c : ascii) :
  at_bol true p = true -> run_of is_space ws ->
  all_in is_dot (c :: t') -> is_space c = false ->
  at_eol true rest = true ->
  exec_at re_title p ("#"%char :: ws ++ (c :: t') ++ rest)
  = Some (prev_after p ("#"%char :: ws ++ c :: t'), rest, Some (c :: t')).
Proof.
  intros Hb [Hw Hn] Ht Hc He. unfold exec_at, re_title, cat.
  change (run (Seq (Bol true) (Seq (Lit "#") (Seq (Many is_space 1 None)
            (Seq (Group (Many is_dot 1 None)) (Eol true)))))
            (fun q u g => Some (q, u, g)) p
            ("#"%char :: ws ++ (c :: t') ++ rest) None)
    with (if at_bol true p then
            many is_space
              (fun q u =>
                 run (Seq (Group (Many is_dot 1 None)) (Eol true))
                   (fun q u g => Some (q, u, g)) q u None)
              1 None (Some "#"%char) (ws ++ (c :: t') ++ rest)
          else None).
  rewrite Hb.
  apply many_run; [exact Hw| | |exact Hc].
  - destruct ws; [contradiction|simpl; lia].
  - rewrite title_line; [|split; [exact Ht|discriminate]|exact He].
    rewrite (prev_after_cons p "#"%char), prev_after_app. reflexivity.
Qed.

(** A heading of white space only, at the end of the text: the match
    gives the last blank back, and it becomes the title. *)
Lemma title_blank (p : option ascii) (ws : str) (w : ascii) :
  at_bol true p = true -> run_of is_space ws ->
  is_space w = true -> is_dot w = true ->
  exec_at re_title p ("#"%char :: ws ++ [w])
  = Some (Some w, [], Some [w]).
Proof.
  intros Hb [Hw Hn] Hs Hd. unfold exec_at, re_title, cat.
  change (run (Seq (Bol true) (Seq (Lit "#") (Seq (Many is_space 1 None)
            (Seq (Group (Many is_dot 1 None)) (Eol true)))))
            (fun q u g => Some (q, u, g)) p ("#"%char :: ws ++ [w]) None)
    with (if at_bol true p then
            many is_space
              (fun q u =>
                 run (Seq (Group (Many is_dot 1 None)) (Eol true))
                   (fun q u g => Some (q, u, g)) q u None)
              1 None (Some "#"%char) (ws ++ [w])
          else None).
  rewrite Hb.
  apply many_back_one; [exact Hw|exact Hs| |reflexivity|].
  - destruct ws; [contradiction|simpl; lia].
  - rewrite <- (app_nil_r [w]) at 1.
    rewrite title_line; [reflexivity| |reflexivity].
    split; [|discriminate]. now repeat constructor.
Qed.

(** What a match of the pattern looks like. *)
Lemma title_found (md t : str) :
  group1 re_title md = Some t ->
  exists pre ws rest,
    md = pre ++ "#"%char :: ws ++ t ++ rest
    /\ line_start pre /\ run_of is_space ws /\ run_of is_dot t
    /\ at_eol true rest = true.
Proof.
  intros H. apply group1_sound in H.
  destruct H as (pre & suf & p' & s' & -> & HM).
  unfold re_title, cat in HM.
  apply Match_seq_inv in HM. destruct HM as (p0 & s0 & g0 & H0 & HM).
  apply Match_bol_inv in H0. destruct H0 as (Hb & -> & -> & ->).
  apply line_start_iff in Hb.
  apply Match_seq_inv in HM. destruct HM as (p1 & s1 & g1 & H1 & HM).
  apply Match_lit_inv in H1. destruct H1 as (-> & -> & ->).
  apply Match_seq_inv in HM. destruct HM as (p2 & s2 & g2 & H2 & HM).
  apply plus_inv in H2. destruct H2 as (ws & -> & W1 & N1 & -> & ->).
  apply Match_seq_inv in HM. destruct HM as (p3 & s3 & g3 & H3 & HM).
  apply Match_eol_inv in HM. destruct HM as (He & -> & -> & Hg3).
  subst g3.
  apply Match_group_inv in H3. destruct H3 as (xs & g4 & -> & Hg & H3).
  injection Hg as ->.
  apply plus_inv in H3. destruct H3 as (ys & Hy & T1 & T2 & _).
  apply app_inv_tail in Hy. subst ys.
  exists pre, ws, s3. split; [reflexivity|].
  split; [exact Hb|]. split; [now split|]. split; [now split|exact He].
Qed.

(** X16. What [extractTitle] returns.  The title holds no line break and
    has no white space at either end.  It is either the text Untitled, or
    the trimmed text of a line of the page that follows a number sign at
    the start of a line and white space; a page without a number sign has
    the title Untitled. *)
Theorem extractTitle_clean (md : str) :
  all_in is_dot (extractTitle md)
  /\ (forall c r, extractTitle md = c :: r -> is_space c = false)
  /\ (forall r c, extractTitle md = r ++ [c] -> is_space c = false)
  /\ (extractTitle md = lit "Untitled"
      \/ exists pre ws t rest,
           md = pre ++ "#"%char :: ws ++ t ++ rest
           /\ line_start pre /\ run_of is_space ws /\ run_of is_dot t
           /\ at_eol true rest = true
           /\ extractTitle md = trim t)
  /\ (~ In "#"%char md -> extractTitle md = lit "Untitled").
Proof.
  unfold extractTitle.
  destruct (group1 re_title md) as [t|] eqn:E.
  - pose proof (title_found _ E) as (pre & ws & rest & Hmd & Hb & Hw & Ht & He).
    split; [|split; [|split; [|split]]].
    + destruct (trim_split t) as (l & r & Hsplit & _).
      destruct Ht as [Ht _]. rewrite Hsplit in Ht.
      apply Forall_app in Ht. destruct Ht as [_ Ht].
      apply Forall_app in Ht. now destruct Ht.
    + intros c r. apply trim_head.
    + intros r c. apply trim_last.
    + right. now exists pre, ws, t, rest.
    + intros Hno. exfalso. apply Hno. rewrite Hmd.
      apply in_or_app. right. now left.
  - split; [|split; [|split; [|split]]].
    + now repeat constructor.
    + intros c r H. now injection H as <- _.
    + intros r c H.
      change (lit "Untitled") with (lit "Untitle" ++ ["d"%char]) in H.
      apply app_inj_tail in H. now destruct H as [_ <-].
    + now left.
    + reflexivity.
Qed.

(** X17. The first heading gives the title.  When no number sign comes
    before it, a number sign at the start of a line followed by white
    space and a line that begins with another character has this line,
    trimmed, as its title; the white space may hold line breaks, so a
    marker alone on its line takes the next line with text.  A marker
    followed at the end of the page by blanks only, two at least, gives
    the empty title, not Untitled. *)
Theorem extractTitle_first_heading (pre ws : str) :
  ~ In "#"%char pre -> line_start pre -> run_of is_space ws ->
  (forall c t' rest,
     all_in is_dot (c :: t') -> is_space c = false ->
     at_eol true rest = true ->
     extractTitle (pre ++ "#"%char :: ws ++ (c :: t') ++ rest)
     = trim (c :: t'))
  /\ (forall w,
        is_space w = true -> is_dot w = true ->
        extractTitle (pre ++ "#"%char :: ws ++ [w]) = []).
Proof.
  intros Hno Hb Hw. apply line_start_iff in Hb. split.
  - intros c t' rest Ht Hc He. unfold extractTitle, group1.
    rewrite title_skip by exact Hno.
    rewrite (@search_here _ _ _ _
               (@title_here (prev_after None pre) ws t' rest c
                  Hb Hw Ht Hc He)).
    reflexivity.
  - intros w Hs Hd. unfold extractTitle, group1.
    rewrite title_skip by exact Hno.
    rewrite (@search_here _ _ _ _
               (@title_blank (prev_after None pre) ws w Hb Hw Hs Hd)).
    unfold trim. simpl. now rewrite Hs.
Qed.

Lemma extractTitle_first_heading_witness :
  extractTitle (lit "intro" ++ LF :: lit "#" ++ LF :: lit "My Page " ++ [LF])
  = lit "My Page"
  /\ extractTitle (lit "#  ") = [].
Proof.
  split.
  - apply (proj1 (@extractTitle_first_heading (lit "intro" ++ [LF]) [LF]
             ltac:(simpl; intuition discriminate)
             ltac:(right; exists (lit "intro"), LF; split;
                   [reflexivity|now left])
             ltac:(split; [now repeat constructor|discriminate]))
             "M"%char (lit "y Page ") [LF]);
      [now repeat constructor|reflexivity|reflexivity].
  - apply (proj2 (@extractTitle_first_heading [] [" "%char]
             ltac:(simpl; tauto) ltac:(now left)
             ltac:(split; [now repeat constructor|discriminate]))
             " "%char); reflexivity.
Defined.

End TitleFacts.

(* ------------------------------------------------------------------ *)
(** * Line numbers shown and line numbers addressed *)

Module NumberingFacts.
Import Js JsFacts Regex RegexFacts Errors Patch PatchFacts Markdown
  MarkdownFacts.

Lemma drop_spaces (k : nat) (c : ascii) (s : str) :
  is_space c = false ->
  JsString.drop_while is_space (repeat " "%char k ++ c :: s) = c :: s.
Proof.
  intros Hc. induction k as [|k IH]; simpl; [now rewrite Hc|exact IH].
Qed.

Lemma take_digits (ds s : str) :
  all_in is_digit ds ->
  JsString.take_while is_digit (ds ++ ":"%char :: s) = ds.
Proof.
  induction 1 as [|d ds Hd _ IH]; [reflexivity|]. simpl.
  now rewrite Hd, IH.
Qed.

(** [parseInt] reads the number of a numbered line. *)
Lemma parseInt_number_line (w i : nat) (line : str) :
  JsString.parseInt (number_line w line i) = Some (Z.of_nat (i + 1)).
Proof.
  unfold number_line, padStart.
  destruct (SchemaFacts.String_is_digits (n := Z.of_nat (i + 1)))
    as [Hd Hn]; [lia|].
  pose proof (SchemaFacts.digits_value_String (n := Z.of_nat (i + 1)))
    as Hv.
  destruct (String_ (Z.of_nat (i + 1))) as [|c ds] eqn:E; [contradiction|].
  pose proof (Forall_inv Hd) as Hc.
  destruct (SchemaFacts.digit_plain c Hc) as (Hsp & Hm & Hp & _).
  unfold JsString.parseInt. rewrite <- !app_assoc.
  change ((c :: ds) ++ lit ": " ++ line)
    with (c :: ds ++ ":"%char :: " "%char :: line).
  rewrite drop_spaces by exact Hsp.
  destruct (Ascii.eqb_spec c "-"%char) as [->|_]; [contradiction|].
  destruct (Ascii.eqb_spec c "+"%char) as [->|_]; [contradiction|].
  change (c :: ds ++ ":"%char :: " "%char :: line)
    with ((c :: ds) ++ ":"%char :: " "%char :: line).
  rewrite take_digits by exact Hd.
  rewrite Hv by lia. now destruct (Z.of_nat (i + 1)).
Qed.

Lemma nth_parts {A} (l : list A) (i : nat) (d : A) :
  i < length l -> l = firstn i l ++ [nth i l d] ++ skipn (S i) l.
Proof.
  revert i. induction l as [|x l IH]; intros i Hi; simpl in Hi; [lia|].
  destruct i as [|i]; [reflexivity|].
  simpl. f_equal. apply IH. lia.
Qed.

Section Engine.
Context {D : DiffLibrary}.

(** X18. The numbers [addLineNumbers] shows are the numbers the patch
    engine addresses.  The numbered text has as many lines as the page;
    line k is the number k, padded on the left to the width of the last
    line number, a colon, a blank, and line k of the page, so the text of
    every line starts in the same column; [parseInt] reads k back from it;
    and the operation on lines k..k replaces exactly this line of the
    page. *)
Theorem numbered_line_is_addressed (md content : str) (k : nat) :
  1 <= k <= length (split md) ->
  let w := length (String_ (Z.of_nat (length (split md)))) in
  let line := nth (k - 1) (split md) [] in
  let numbered := nth (k - 1) (split (addLineNumbers md)) [] in
  length (split (addLineNumbers md)) = length (split md)
  /\ numbered
     = repeat " "%char (w - length (String_ (Z.of_nat k)))
         ++ String_ (Z.of_nat k) ++ lit ": " ++ line
  /\ length numbered = w + 2 + length line
  /\ JsString.parseInt numbered = Some (Z.of_nat k)
  /\ md = join (firstn (k - 1) (split md) ++ [line] ++ skipn k (split md))
  /\ exists r,
       applyPatchOperation md
         (PatchLineRange (Z.of_nat k) (EndLine (Z.of_nat k)) content) = Ok r
       /\ patched r
          = join (firstn (k - 1) (split md) ++ contentLines content
                    ++ skipn k (split md)).
Proof.
  intros Hk w line numbered.
  assert (Hnum : numbered = number_line w line (k - 1)).
  { unfold numbered. rewrite split_addLineNumbers.
    etransitivity;
      [apply (@nth_mapi_from _ _ (number_line w) (split md) [] [] 0 (k - 1));
       lia|reflexivity]. }
  assert (Hk1 : k - 1 + 1 = k) by lia.
  split; [|split; [|split; [|split; [|split]]]].
  - rewrite split_addLineNumbers. apply length_mapi_from.
  - rewrite Hnum. unfold number_line, padStart.
    rewrite Hk1, <- app_assoc. reflexivity.
  - rewrite Hnum. unfold number_line, padStart. rewrite Hk1.
    rewrite !length_app, repeat_length.
    pose proof (@length_String_mono k (length (split md)) Hk) as Hle.
    fold w in Hle. change (length (lit ": ")) with 2. lia.
  - rewrite Hnum, parseInt_number_line. now rewrite Hk1.
  - rewrite <- (join_split md) at 1. f_equal.
    replace k with (S (k - 1)) at 2 by lia.
    apply nth_parts. lia.
  - simpl applyPatchOperation.
    rewrite applyLineRange_ok by (unfold totalLines; lia).
    eexists. split; [reflexivity|]. simpl patched. simpl effectiveEnd.
    rewrite slice_suffix by (unfold totalLines; lia).
    unfold totalLines. rewrite Z.min_l by lia.
    replace (Z.to_nat (Z.of_nat k - 1)) with (k - 1) by lia.
    now rewrite Nat2Z.id.
Qed.

End Engine.

Lemma numbered_line_is_addressed_witness :
  nth 1 (split (addLineNumbers Tests.sample)) []
  = repeat " "%char
      (length (String_ (Z.of_nat (length (split Tests.sample))))
       - length (String_ (Z.of_nat 2)))
      ++ String_ (Z.of_nat 2) ++ lit ": " ++ nth 1 (split Tests.sample) [].
Proof.
  apply (proj1 (proj2 (@numbered_line_is_addressed plainDiff Tests.sample
                         (lit "new") 2 ltac:(vm_compute; lia)))).
Defined.

End NumberingFacts.

(* ------------------------------------------------------------------ *)
(** * The test suites of the validators, identifiers and titles *)

Module SchemaTests.
Import Errors Validator Id UnifiedDiff Title PatchFacts.

Definition thrown_message (r : result str) : str :=
  match r with Ok _ => [] | Throw e => message e end.

(** tests/validator.test.ts *)

Example accepts_dashed_uuid :
  notionIdSchema (lit "12345678-1234-1234-1234-123456789abc") = true.
Proof. vm_compute. reflexivity. Qed.

Example accepts_undashed_uuid :
  notionIdSchema (lit "12345678123412341234123456789abc") = true.
Proof. vm_compute. reflexivity. Qed.

Example rejects_invalid_ids :
  notionIdSchema (lit "not-valid") = false /\ notionIdSchema [] = false.
Proof. vm_compute. now split. Qed.

Example parses_line_ranges :
  lineRangeSchema (lit "5:12") = Some (5, 12)%Z
  /\ lineRangeSchema (lit "192:256") = Some (192, 256)%Z.
Proof. vm_compute. now split. Qed.

Example rejects_bad_line_ranges :
  lineRangeSchema (lit "5:") = None
  /\ lineRangeSchema (lit ":256") = None
  /\ lineRangeSchema (lit "abc:def") = None
  /\ lineRangeSchema (lit "0:5") = None.
Proof. vm_compute. now repeat split. Qed.

(** tests/id.test.ts *)

Example parses_a_dashed_uuid :
  parseNotionId (lit "12345678-1234-1234-1234-123456789abc")
  = Ok (lit "12345678-1234-1234-1234-123456789abc").
Proof. vm_compute. reflexivity. Qed.

Example parses_an_undashed_uuid :
  parseNotionId (lit "123456781234123412341234567890ab")
  = Ok (lit "12345678-1234-1234-1234-1234567890ab").
Proof. vm_compute. reflexivity. Qed.

Example extracts_id_from_url :
  parseNotionId
    (lit "https://www.notion.so/My-Page-Title-123456781234123412341234567890ab")
  = Ok (lit "12345678-1234-1234-1234-1234567890ab").
Proof. vm_compute. reflexivity. Qed.

Example extracts_dashed_uuid_from_url :
  parseNotionId
    (lit "https://notion.so/workspace/12345678-1234-1234-1234-123456789abc?v=xxx")
  = Ok (lit "12345678-1234-1234-1234-123456789abc").
Proof. vm_compute. reflexivity. Qed.

Example throws_for_invalid_input :
  includes (thrown_message (parseNotionId (lit "not-a-valid-id")))
    (lit "Invalid Notion ID") = true
  /\ includes (thrown_message (parseNotionId []))
       (lit "Invalid Notion ID") = true.
Proof. vm_compute. now split. Qed.

(** tests/patch.test.ts, isValidUnifiedDiff *)

Example valid_diff :
  isValidUnifiedDiff (lit "@@ -1,3 +1,3 @@
 line1
-old
+new
 line3") = true.
Proof. vm_compute. reflexivity. Qed.

Example non_diff_text : isValidUnifiedDiff (lit "just some text") = false.
Proof. vm_compute. reflexivity. Qed.

(** tests/markdown.test.ts, extractTitle *)

Example extracts_h1_title :
  extractTitle (lit "# My Page Title

Some content.") = lit "My Page Title".
Proof. vm_compute. reflexivity. Qed.

Example untitled_without_h1 :
  extractTitle (lit "Just some text without a heading.") = lit "Untitled".
Proof. vm_compute. reflexivity. Qed.

Example extracts_first_h1_only :
  extractTitle (lit "# First Title

# Second Title") = lit "First Title".
Proof. vm_compute. reflexivity. Qed.

End SchemaTests.

(* ------------------------------------------------------------------ *)
(** * The client is made once *)

Module ClientFacts.
Import Errors Config Client.

Lemma getClient_kept (c : NotionClient) (e : environment) (t : option str) :
  getClient (Some c) e t = (Ok c, Some c).
Proof. reflexivity. Qed.

Lemma getClients_kept (c : NotionClient)
    (calls : list (environment * option str)) :
  getClients (Some c) calls = (map (fun _ => Ok c) calls, Some c).
Proof.
  induction calls as [|[e t] calls IH]; [reflexivity|].
  simpl. now rewrite IH.
Qed.

Lemma resolveToken_nonempty (a b : option str) (cfg : option CliConfig)
    (token : str) :
  resolveToken a b cfg = Ok token -> token <> [].
Proof.
  unfold resolveToken.
  destruct a as [[|? ?]|]; try (intros H; injection H as <-; discriminate);
    destruct b as [[|? ?]|]; try (intros H; injection H as <-; discriminate);
    destruct cfg as [[[[|? ?]|]]|];
    try (intros H; injection H as <-; discriminate); discriminate.
Qed.

(** X19. The Notion client is a singleton.  Once [getClient] has returned
    a client, every later call returns this same client and never throws,
    whatever token it is given and whatever the environment holds then: a
    later --token is not looked at.  The client made by a first call holds
    a token that is not empty and a timeout of 30 seconds.  A call throws
    only when no client exists and no token is found; it throws AuthError
    and leaves no client behind, so the next call resolves the token
    again, as does a call after [resetClient]. *)
Theorem client_is_singleton (st : state) (e : environment)
    (t : option str) :
  (forall c st',
     getClient st e t = (Ok c, st') ->
     st' = Some c
     /\ (st = None ->
         resolveToken t (envToken e) (config e) = Ok (auth c)
         /\ auth c <> [] /\ timeoutMs c = 30000%Z)
     /\ forall calls,
          getClients st' calls = (map (fun _ => Ok c) calls, Some c))
  /\ (forall err st',
        getClient st e t = (Throw err, st') ->
        st = None /\ st' = None /\ err = AuthError
        /\ resolveToken t (envToken e) (config e) = Throw AuthError)
  /\ getClient (resetClient st) e t = getClient None e t.
Proof.
  split; [|split; [|reflexivity]].
  - intros c st' H. destruct st as [c0|].
    + simpl in H. injection H as <- <-.
      split; [reflexivity|]. split; [discriminate|].
      apply getClients_kept.
    + simpl in H.
      destruct (resolveToken t (envToken e) (config e)) as [token|err] eqn:E;
        [|discriminate].
      injection H as <- <-. split; [reflexivity|]. split.
      * intros _. split; [reflexivity|]. split; [|reflexivity].
        simpl. now apply resolveToken_nonempty in E.
      * apply getClients_kept.
  - intros err st' H. destruct st as [c0|]; [discriminate|].
    simpl in H.
    destruct (resolveToken t (envToken e) (config e)) as [token|err'] eqn:E;
      [discriminate|].
    injection H as <- <-.
    assert (err' = AuthError) as ->.
    { unfold resolveToken in E.
      destruct t as [[|? ?]|]; try discriminate;
        destruct (envToken e) as [[|? ?]|]; try discriminate;
        destruct (config e) as [[[[|? ?]|]]|]; try discriminate;
        now injection E as <-. }
    now repeat split.
Qed.

Lemma client_is_singleton_witness :
  getClients (Some (mkClient (lit "ntn_first") 30000))
    [(mkEnvironment None None, Some (lit "ntn_second"));
     (mkEnvironment None None, None)]
  = (map (fun _ => Ok (mkClient (lit "ntn_first") 30000))
       [(mkEnvironment None None, Some (lit "ntn_second"));
        (mkEnvironment None None, None)],
     Some (mkClient (lit "ntn_first") 30000)).
Proof.
  apply (proj2 (proj2 (proj1 (client_is_singleton None
            (mkEnvironment None None) (Some (lit "ntn_first")))
          (mkClient (lit "ntn_first") 30000)
          (Some (mkClient (lit "ntn_first") 30000)) eq_refl))).
Defined.

End ClientFacts.
